(** * A shallow embedding of [tables/index.py] (PyTables)

    The development follows the layout of the module: the numeric
    frontier ([infType], [PyNextAfter], [PyNextAfterF], [StringNextAfter],
    [IntTypeNextAfter], [nextafter]), then the [Index] class
    ([append], [appendLastRow], [optimize], [swap], [swap_chunks],
    [reorder_slices], [swap_slices], [compute_overlaps], [search],
    [getLookupRange], [_f_remove]).

    Python values are modelled as a tagged union, Python floats as IEEE-754
    binary64 numbers through the executable [SpecFloat] operations, and
    Python exceptions through an error monad. *)

From Stdlib Require Import ZArith Lia Bool.
From Stdlib Require Import Strings.Byte Strings.String Strings.Ascii.
From Stdlib Require Import Floats.SpecFloat Sorting.Sorted.
From stdpp Require Import base tactics option list.

Open Scope Z_scope.

(** ** Exceptions and the error monad *)

Inductive exn : Type :=
  | AssertionError | TypeError | KeyError | ValueError | IndexError
  | OverflowError | ZeroDivisionError | AttributeError | UnboundLocalError.

Inductive result (A : Type) : Type :=
  | Ok (a : A)
  | Raise (e : exn).
Arguments Ok {A} a.
Arguments Raise {A} e.

#[global] Instance result_ret : MRet result := fun A a => Ok a.
#[global] Instance result_bind : MBind result := fun A B f m =>
  match m with
  | Ok a => f a
  | Raise e => Raise e
  end.

(** [assert cond] *)
Definition assert (b : bool) : result unit :=
  if b then Ok tt else Raise AssertionError.

(** ** Python values

    Python 2 distinguishes [int] (a machine word bounded by [sys.maxint])
    from [long]; [IntTypeNextAfter] branches on [type(x) is int], so the
    two are kept apart.  [str] is a byte string. *)

Inductive pyval : Type :=
  | PInt (z : Z)
  | PLong (z : Z)
  | PFloat (f : spec_float)
  | PStr (s : list byte).

(** The platform's [sys.maxint]; it is not part of the repository. *)
Class Platform : Type := { sys_maxint : Z }.

(** ** binary64 arithmetic (the C [double] behind a Python [float]) *)

Module F64.
Definition prec : Z := 53.
Definition emax : Z := 1024.

Definition add : spec_float -> spec_float -> spec_float := SFadd prec emax.
Definition sub : spec_float -> spec_float -> spec_float := SFsub prec emax.
Definition mul : spec_float -> spec_float -> spec_float := SFmul prec emax.
Definition div : spec_float -> spec_float -> spec_float := SFdiv prec emax.
Definition opp : spec_float -> spec_float := SFopp.
Definition eqb : spec_float -> spec_float -> bool := SFeqb.
Definition ltb : spec_float -> spec_float -> bool := SFltb.
Definition leb : spec_float -> spec_float -> bool := SFleb.

(** Conversion of an integer, rounded to nearest even. *)
Definition of_Z (z : Z) : spec_float := binary_normalize prec emax z 0 false.

Definition is_nan (f : spec_float) : bool :=
  match f with S754_nan => true | _ => false end.
Definition is_finite (f : spec_float) : bool :=
  match f with S754_zero _ | S754_finite _ _ _ => true | _ => false end.
Definition is_zero (f : spec_float) : bool :=
  match f with S754_zero _ => true | _ => false end.

(** [ldexp] of the C library, without the range check of [math.ldexp]. *)
Definition ldexp (m : spec_float) (e : Z) : spec_float := SFldexp prec emax m e.

(** C [fmod]: the result is exact and has the sign of [x]. *)
Definition fmod (x y : spec_float) : spec_float :=
  match x, y with
  | S754_nan, _ | _, S754_nan => S754_nan
  | S754_infinity _, _ => S754_nan
  | _, S754_zero _ => S754_nan
  | _, S754_infinity _ => x
  | S754_zero _, _ => x
  | S754_finite sx mx ex, S754_finite sy my ey =>
      let e := Z.min ex ey in
      let X := Zpos mx * 2 ^ (ex - e) in
      let Y := Zpos my * 2 ^ (ey - e) in
      binary_normalize prec emax (cond_Zopp sx (Z.rem X Y)) e sx
  end.

(** Truncation toward zero of a finite number. *)
Definition trunc (f : spec_float) : Z :=
  match f with
  | S754_finite s m e =>
      cond_Zopp s (if 0 <=? e then Zpos m * 2 ^ e else Zpos m / 2 ^ (- e))
  | _ => 0
  end.

(** Exact comparison of an integer with a float, as CPython does it. *)
Definition compare_Z (z : Z) (f : spec_float) : option comparison :=
  match f with
  | S754_nan => None
  | S754_infinity s => Some (if s then Gt else Lt)
  | S754_zero _ => Some (z ?= 0)
  | S754_finite s m e =>
      Some (if 0 <=? e then z ?= cond_Zopp s (Zpos m * 2 ^ e)
            else z * 2 ^ (- e) ?= cond_Zopp s (Zpos m))
  end.
End F64.

(** ** Operators of the Python object model *)

Section PythonOps.
Context {P : Platform}.

(** An [int] result that overflows the machine word becomes a [long];
    a [long] operand makes the result a [long]. *)
Definition fits_int (z : Z) : bool :=
  (- sys_maxint - 1 <=? z) && (z <=? sys_maxint).

Definition int_result (long_operand : bool) (z : Z) : pyval :=
  if long_operand then PLong z
  else if fits_int z then PInt z else PLong z.

Definition is_long (v : pyval) : bool :=
  match v with PLong _ => true | _ => false end.

(** [float(v)] as done implicitly by mixed arithmetic and by [math.*]. *)
Definition to_float (v : pyval) : result spec_float :=
  match v with
  | PInt z | PLong z =>
      let f := F64.of_Z z in
      if F64.is_finite f then Ok f else Raise OverflowError
  | PFloat f => Ok f
  | PStr _ => Raise TypeError
  end.

Definition py_arith (iop : Z -> Z -> Z)
    (fop : spec_float -> spec_float -> spec_float) (a b : pyval)
    : result pyval :=
  match a, b with
  | (PInt x | PLong x), (PInt y | PLong y) =>
      Ok (int_result (is_long a || is_long b) (iop x y))
  | PStr _, _ | _, PStr _ => Raise TypeError
  | _, _ => fa ← to_float a; fb ← to_float b; Ok (PFloat (fop fa fb))
  end.

(** [a + b] and [a - b] on numbers. *)
Definition py_add : pyval -> pyval -> result pyval := py_arith Z.add F64.add.
Definition py_sub : pyval -> pyval -> result pyval := py_arith Z.sub F64.sub.

(** [-a] *)
Definition py_neg (a : pyval) : result pyval :=
  match a with
  | PInt z => Ok (int_result false (- z))
  | PLong z => Ok (PLong (- z))
  | PFloat f => Ok (PFloat (F64.opp f))
  | PStr _ => Raise TypeError
  end.

(** [a % b] where one operand is a float ([float_rem] of CPython 2):
    C [fmod], then a sign adjustment toward the divisor. *)
Definition float_rem (vx wx : spec_float) : result spec_float :=
  if F64.eqb wx (S754_zero false) then Raise ZeroDivisionError
  else
    let md := F64.fmod vx wx in
    if negb (F64.eqb md (S754_zero false))
       && negb (Bool.eqb (F64.ltb wx (S754_zero false))
                         (F64.ltb md (S754_zero false)))
    then Ok (F64.add md wx)
    else Ok md.

Definition py_mod (a b : pyval) : result pyval :=
  match a, b with
  | (PInt x | PLong x), (PInt y | PLong y) =>
      if y =? 0 then Raise ZeroDivisionError
      else Ok (int_result (is_long a || is_long b) (x mod y))
  | PStr _, _ | _, PStr _ => Raise TypeError
  | _, _ => fa ← to_float a; fb ← to_float b; r ← float_rem fa fb; Ok (PFloat r)
  end.

(** [int(v)] for a number. *)
Definition py_int (v : pyval) : result pyval :=
  match v with
  | PInt z => Ok (PInt z)
  | PLong z => Ok (int_result false z)
  | PFloat f =>
      match f with
      | S754_nan => Raise ValueError
      | S754_infinity _ => Raise OverflowError
      | _ => Ok (int_result false (F64.trunc f))
      end
  | PStr _ => Raise ValueError
  end.

(** Three-way comparison.  Numbers compare by exact value, byte strings
    lexicographically, a number is smaller than any string; [None] is
    the unordered outcome of a NaN. *)
Fixpoint bytes_compare (s t : list byte) : comparison :=
  match s, t with
  | [], [] => Eq
  | [], _ :: _ => Lt
  | _ :: _, [] => Gt
  | a :: s', b :: t' =>
      match (Byte.to_N a ?= Byte.to_N b)%N with
      | Eq => bytes_compare s' t'
      | c => c
      end
  end.

Definition py_cmp (a b : pyval) : option comparison :=
  match a, b with
  | (PInt x | PLong x), (PInt y | PLong y) => Some (x ?= y)
  | (PInt x | PLong x), PFloat g => F64.compare_Z x g
  | PFloat f, (PInt y | PLong y) => option_map CompOpp (F64.compare_Z y f)
  | PFloat f, PFloat g => SFcompare f g
  | PStr s, PStr t => Some (bytes_compare s t)
  | PStr _, _ => Some Gt
  | _, PStr _ => Some Lt
  end.

Definition py_eq (a b : pyval) : bool :=
  match py_cmp a b with Some Eq => true | _ => false end.
Definition py_ne (a b : pyval) : bool := negb (py_eq a b).
Definition py_lt (a b : pyval) : bool :=
  match py_cmp a b with Some Lt => true | _ => false end.
Definition py_le (a b : pyval) : bool :=
  match py_cmp a b with Some (Lt | Eq) => true | _ => false end.
Definition py_gt (a b : pyval) : bool :=
  match py_cmp a b with Some Gt => true | _ => false end.
Definition py_ge (a b : pyval) : bool :=
  match py_cmp a b with Some (Gt | Eq) => true | _ => false end.

(** [math.frexp(x)] and [math.ldexp(m, e)]; the latter raises on
    overflow. *)
Definition math_frexp (x : pyval) : result (spec_float * Z) :=
  f ← to_float x;
  match f with
  | S754_finite _ _ _ => Ok (SFfrexp F64.prec F64.emax f)
  | _ => Ok (f, 0)
  end.

Definition math_ldexp (m : spec_float) (e : Z) : result spec_float :=
  let r := F64.ldexp m e in
  match m, r with
  | S754_finite _ _ _, S754_infinity _ => Raise OverflowError
  | _, _ => Ok r
  end.
End PythonOps.

Open Scope string_scope.
Open Scope list_scope.
Open Scope Z_scope.

(** ** numpy dtype descriptors (only what the module reads) *)

Record dtype : Type := {
  kind : string;      (** [dtype.kind]: ["S"], ["i"], ["u"], ["f"], ["b"], ... *)
  name : string;      (** [dtype.name]: ["int8"], ["float64"], ... *)
  itemsize : Z        (** [dtype.itemsize] *)
}.

(** [x in xs] for strings and for small integers *)
Definition str_in (x : string) (xs : list string) : bool :=
  existsb (String.eqb x) xs.
Definition Z_in (x : Z) (xs : list Z) : bool :=
  existsb (Z.eqb x) xs.

(** ** Module constants *)

Definition float_1 : spec_float := F64.of_Z 1.
Definition float_0 : spec_float := S754_zero false.

Definition epsilon : spec_float := F64.ldexp float_1 (-53).
Definition epsilonF : spec_float := F64.ldexp float_1 (-24).

Definition maxFloat : spec_float := F64.of_Z (2 ^ 1024 - 2 ^ 971).
Definition maxFloatF : spec_float := F64.of_Z (2 ^ 128 - 2 ^ 104).

Definition minFloat : spec_float := F64.ldexp float_1 (-1022).
Definition minFloatF : spec_float := F64.ldexp float_1 (-126).

Definition smallEpsilon : spec_float := F64.ldexp float_1 (-1074).
Definition smallEpsilonF : spec_float := F64.ldexp float_1 (-149).

Definition infinity : spec_float := F64.mul (F64.ldexp float_1 1023) (F64.of_Z 2).
Definition infinityF : spec_float := F64.ldexp float_1 128.

Definition testNaN : spec_float := F64.sub infinity infinity.

Section NumericFrontier.
Context {P : Platform}.

(** Integer literals of the module, with the [int]/[long] tag Python
    gives them: [b ** e], [- v], [v - 1]. *)
Definition int_pow (b e : Z) : pyval := int_result false (b ^ e).
Definition int_neg (v : pyval) : pyval :=
  match v with
  | PInt z => int_result false (- z)
  | PLong z => PLong (- z)
  | _ => v
  end.
Definition int_pred (v : pyval) : pyval :=
  match v with
  | PInt z => int_result false (z - 1)
  | PLong z => PLong (z - 1)
  | _ => v
  end.

(** "infinity" for several types *)
Definition infinityMap : list (string * (pyval * pyval)) :=
  [ ("bool",    (PInt 0,                  PInt 1));
    ("int8",    (int_neg (int_pow 2 7),   int_pred (int_pow 2 7)));
    ("uint8",   (PInt 0,                  int_pred (int_pow 2 8)));
    ("int16",   (int_neg (int_pow 2 15),  int_pred (int_pow 2 15)));
    ("uint16",  (PInt 0,                  int_pred (int_pow 2 16)));
    ("int32",   (int_neg (int_pow 2 31),  int_pred (int_pow 2 31)));
    ("uint32",  (PInt 0,                  int_pred (int_pow 2 32)));
    ("int64",   (int_neg (int_pow 2 63),  int_pred (int_pow 2 63)));
    ("uint64",  (PInt 0,                  int_pred (int_pow 2 64)));
    ("float32", (PFloat (F64.opp infinityF), PFloat infinityF));
    ("float64", (PFloat (F64.opp infinity),  PFloat infinity)) ].

Fixpoint dict_get {V : Type} (k : string) (d : list (string * V)) : result V :=
  match d with
  | [] => Raise KeyError
  | (k', v) :: d' => if String.eqb k k' then Ok v else dict_get k d'
  end.

Definition byte_00 : byte := x00.
Definition byte_ff : byte := xff.

(** ["c" * n] *)
Definition str_repeat (c : byte) (n : Z) : list byte := replicate (Z.to_nat n) c.

(** Return a superior limit for maximum representable data type *)
Definition infType (dtype : dtype) (itemsize : Z) (sign : Z) : result pyval :=
  _ ← assert (Z_in sign [-1; 1]);
  if String.eqb (kind dtype) "S" then
    if sign <? 0 then Ok (PStr (str_repeat byte_00 itemsize))
    else Ok (PStr (str_repeat byte_ff itemsize))
  else
    match dict_get (name dtype) infinityMap with
    | Ok (lo, hi) => Ok (if 0 <=? sign then hi else lo)
    | Raise KeyError => Raise TypeError
    | Raise e => Raise e
    end.

(** a simple check for x is NaN, assumes x is float *)
Definition IsNaN (x : pyval) : bool := py_ne x x.

(** returns the next float after x in the direction of y if possible,
    else returns x *)
Definition PyNextAfter (x y : pyval) : result pyval :=
  if IsNaN x || IsNaN y then Ok x
  else if py_eq x y then Ok x
  else if py_ge x (PFloat infinity) || py_le x (PFloat (F64.opp infinity))
  then Ok x
  else if py_lt (PFloat (F64.opp minFloat)) x && py_lt x (PFloat minFloat) then
    if py_gt y x then py_add x (PFloat smallEpsilon)
    else py_sub x (PFloat smallEpsilon)
  else
    '(m, e) ← math_frexp x;
    let m := if py_gt y x then F64.add m epsilon else F64.sub m epsilon in
    r ← math_ldexp m e;
    Ok (PFloat r).

(** returns the next IEEE single after x in the direction of y if
    possible, else returns x *)
Definition PyNextAfterF (x y : pyval) : result pyval :=
  if IsNaN x || IsNaN y then Ok x
  else if py_eq x y then Ok x
  else if py_ge x (PFloat infinityF) then Ok (PFloat infinityF)
  else if py_le x (PFloat (F64.opp infinityF)) then Ok (PFloat (F64.opp infinityF))
  else if py_lt (PFloat (F64.opp minFloatF)) x && py_lt x (PFloat minFloatF) then
    extra ← (if py_gt x (PFloat float_0) then py_mod x (PFloat smallEpsilonF)
             else if py_lt x (PFloat float_0)
                  then py_mod x (PFloat (F64.opp smallEpsilonF))
                  else Ok (PFloat float_0));
    d ← py_sub x extra;
    if py_gt y x then py_add d (PFloat smallEpsilonF)
    else py_sub d (PFloat smallEpsilonF)
  else
    '(m, e) ← math_frexp x;
    extra ← (if F64.ltb float_0 m then float_rem m epsilonF
             else float_rem m (F64.opp epsilonF));
    let m := if py_gt y x then F64.add m (F64.sub epsilonF extra)
             else F64.sub m (F64.sub epsilonF extra) in
    r ← math_ldexp m e;
    Ok (PFloat r).
End NumericFrontier.

(** [ord(c)] and [chr(n)] *)
Definition ord (c : byte) : Z := Z.of_N (Byte.to_N c).
Definition chr (n : Z) : result byte :=
  if (0 <=? n) && (n <? 256) then
    match Byte.of_N (Z.to_N n) with
    | Some b => Ok b
    | None => Raise ValueError
    end
  else Raise ValueError.

(** [xlist == "..."] in [StringNextAfter]: a Python [list] compared with a
    [str]; objects of different builtin types are never equal. *)
Definition list_eq_str (xlist : list byte) (s : list byte) : bool := false.

(** The two [for xchar in xlist] loops of [StringNextAfter].  [pending]
    are the characters still to be visited, [i] the running index and
    [xlist] the list being updated in place; position [i] is written only
    after it has been read, so the characters visited are the original
    ones. *)
Fixpoint succ_loop (pending : list byte) (i : nat) (xlist : list byte)
    : result (list byte) :=
  match pending with
  | [] => Ok xlist
  | xchar :: pending' =>
      if ord xchar <? 255 then
        c ← chr (ord xchar + 1); Ok (<[i := c]> xlist)
      else succ_loop pending' (S i) (<[i := x00]> xlist)
  end.

Fixpoint pred_loop (pending : list byte) (i : nat) (xlist : list byte)
    : result (list byte) :=
  match pending with
  | [] => Ok xlist
  | xchar :: pending' =>
      if 0 <? ord xchar then
        c ← chr (ord xchar - 1); Ok (<[i := c]> xlist)
      else pred_loop pending' (S i) (<[i := xff]> xlist)
  end.

Section NextAfter.
Context {P : Platform}.

(** Return the next representable neighbor of x in the appropriate
    direction. *)
Definition StringNextAfter (x : pyval) (direction : Z) (itemsize : Z)
    : result pyval :=
  _ ← assert (Z_in direction [-1; 1]);
  match x with
  | PStr x =>
      (* Pad the string with \x00 chars until itemsize completion *)
      let padsize := itemsize - Z.of_nat (length x) in
      let x := if 0 <? padsize then x ++ str_repeat byte_00 padsize else x in
      let xlist := rev x in
      if 0 <? direction then
        if list_eq_str xlist (str_repeat byte_ff itemsize) then
          (* Maximum value, return this *)
          Ok (PStr xlist)
        else
          xlist ← succ_loop xlist 0 xlist;
          Ok (PStr (rev xlist))
      else
        if list_eq_str xlist (str_repeat byte_00 itemsize) then
          (* Minimum value, return this *)
          Ok (PStr xlist)
        else
          xlist ← pred_loop xlist 0 xlist;
          Ok (PStr (rev xlist))
  | _ => Raise TypeError   (* len(x) of a number *)
  end.

(** [type(x) is int] *)
Definition type_is_int (x : pyval) : bool :=
  match x with PInt _ => true | _ => false end.

(** Return the next representable neighbor of x in the appropriate
    direction. *)
Definition IntTypeNextAfter (x : pyval) (direction : Z) (itemsize : Z)
    : result pyval :=
  _ ← assert (Z_in direction [-1; 1]);
  (* x is guaranteed to be either an int or a float *)
  if direction <? 0 then
    if type_is_int x then py_sub x (PInt 1)
    else
      y ← py_sub x (PInt 1);
      r ← PyNextAfter x y;
      py_int r
  else
    if type_is_int x then py_add x (PInt 1)
    else
      y ← py_add x (PInt 1);
      r ← PyNextAfter x y;
      i ← py_int r;
      py_add i (PInt 1).

(** [type(x) in (int, long, float)] *)
Definition type_is_number (x : pyval) : bool :=
  match x with PStr _ => false | _ => true end.

(** Return the next representable neighbor of x in the appropriate
    direction. *)
Definition nextafter (x : pyval) (direction : Z) (dtype : dtype) (itemsize : Z)
    : result pyval :=
  _ ← assert (Z_in direction [-1; 0; 1]);
  _ ← assert (String.eqb (kind dtype) "S" || type_is_number x);
  if direction =? 0 then Ok x
  else if String.eqb (kind dtype) "S" then
    StringNextAfter x direction itemsize
  else if str_in (kind dtype) ["i"; "u"] then
    IntTypeNextAfter x direction itemsize
  else if String.eqb (name dtype) "float32" then
    if direction <? 0 then y ← py_sub x (PInt 1); PyNextAfterF x y
    else y ← py_add x (PInt 1); PyNextAfterF x y
  else if String.eqb (name dtype) "float64" then
    if direction <? 0 then y ← py_sub x (PInt 1); PyNextAfter x y
    else y ← py_add x (PInt 1); PyNextAfter x y
  else Raise TypeError.

(** ** [Index.getLookupRange]

    [column.dtype.base] is passed as [coldtype]; the unused [table]
    argument is dropped.  The empty tuple is [None]. *)
Definition getLookupRange (coldtype : dtype) (ops : list string)
    (limits : list pyval) : result (option (pyval * pyval)) :=
  _ ← assert (Z_in (Z.of_nat (length ops)) [1; 2]);
  _ ← assert (Z_in (Z.of_nat (length limits)) [1; 2]);
  _ ← assert (Z.of_nat (length ops) =? Z.of_nat (length limits));
  let itemsize := itemsize coldtype in
  match ops, limits with
  | [op], [limit] =>
      _ ← assert (str_in op ["lt"; "le"; "eq"; "ge"; "gt"]);
      if String.eqb op "lt" then
        lo ← infType coldtype itemsize (-1);
        hi ← nextafter limit (-1) coldtype itemsize;
        Ok (Some (lo, hi))
      else if String.eqb op "le" then
        lo ← infType coldtype itemsize (-1);
        Ok (Some (lo, limit))
      else if String.eqb op "gt" then
        lo ← nextafter limit 1 coldtype itemsize;
        hi ← infType coldtype itemsize 1;
        Ok (Some (lo, hi))
      else if String.eqb op "ge" then
        hi ← infType coldtype itemsize 1;
        Ok (Some (limit, hi))
      else if String.eqb op "eq" then
        Ok (Some (limit, limit))
      else Raise UnboundLocalError
  | [op0; op1], [lower; upper] =>
      _ ← assert (str_in op0 ["gt"; "ge"] && str_in op1 ["lt"; "le"]);
      if py_gt lower upper then
        (* ``a <[=] x <[=] b`` is always false if ``a > b``. *)
        Ok None
      else if String.eqb op0 "gt" && String.eqb op1 "lt" then
        lo ← nextafter lower 1 coldtype itemsize;
        hi ← nextafter upper (-1) coldtype itemsize;
        Ok (Some (lo, hi))
      else if String.eqb op0 "ge" && String.eqb op1 "lt" then
        hi ← nextafter upper (-1) coldtype itemsize;
        Ok (Some (lower, hi))
      else if String.eqb op0 "gt" && String.eqb op1 "le" then
        lo ← nextafter lower 1 coldtype itemsize;
        Ok (Some (lo, upper))
      else if String.eqb op0 "ge" && String.eqb op1 "le" then
        Ok (Some (lower, upper))
      else Raise UnboundLocalError
  | _, _ => Raise AssertionError
  end.
End NextAfter.

(** * The [Index] class *)

(** ** numpy and Python list operations used by the class

    Positions and sizes are natural numbers.  Reads outside an array raise
    [IndexError] where Python indexes one element and are clipped where
    Python takes a slice; writes of the wrong shape raise [ValueError]. *)

Section ArrayOps.
Context {A : Type}.

(** [l[i]] *)
Definition getitem (l : list A) (i : nat) : result A :=
  match l !! i with
  | Some x => Ok x
  | None => Raise IndexError
  end.

(** [l[-1]] *)
Definition getlast (l : list A) : result A :=
  match last l with
  | Some x => Ok x
  | None => Raise IndexError
  end.

(** [l[start:stop]] *)
Definition getslice (l : list A) (start stop : nat) : list A :=
  take (stop - start) (drop start l).

(** [l[start::step]]: the elements at [start], [start+step], ...;
    [fuel] bounds the number of elements. *)
Fixpoint stride_from (l : list A) (start step fuel : nat) : list A :=
  match fuel with
  | O => []
  | S fuel' =>
      match l !! start with
      | Some x => x :: stride_from l (start + step) step fuel'
      | None => []
      end
  end.

Definition stride (l : list A) (start step : nat) : result (list A) :=
  if decide (step = 0)%nat then Raise ValueError   (* slice step cannot be zero *)
  else Ok (stride_from l start step (length l)).

(** [arr[idx]] for an array of positions [idx] *)
Fixpoint take_idx (arr : list A) (idx : list nat) : result (list A) :=
  match idx with
  | [] => Ok []
  | i :: idx' => x ← getitem arr i; r ← take_idx arr idx'; Ok (x :: r)
  end.

(** [l[i] = x] *)
Definition setitem (l : list A) (i : nat) (x : A) : result (list A) :=
  if decide (i < length l)%nat then Ok (<[i := x]> l) else Raise IndexError.

(** [l[start:start+n] = v] on an array of fixed size: the shapes must
    agree; a one-element [v] is broadcast. *)
Definition setslice (l : list A) (start n : nat) (v : list A) : result (list A) :=
  let n' := (Nat.min (start + n) (length l) - start)%nat in
  if decide (length v = n') then Ok (take start l ++ v ++ drop (start + n') l)
  else match v with
       | [x] => Ok (take start l ++ replicate n' x ++ drop (start + n') l)
       | _ => Raise ValueError
       end.

End ArrayOps.

(** [rows.append([row])] on an enlargeable array of rows of size [width] *)
Definition append_row {A : Type} (width : nat) (rows : list (list A)) (row : list A)
    : result (list (list A)) :=
  if decide (length row = width) then Ok (rows ++ [row]) else Raise ValueError.

(** [rows[i] = row] on an array of rows of size [width]: the position is
    checked first, then the shape; a one-element row is broadcast. *)
Definition set_row {A : Type} (width : nat) (rows : list (list A)) (i : nat)
    (row : list A) : result (list (list A)) :=
  if decide (i < length rows)%nat then
    if decide (length row = width) then Ok (<[i := row]> rows)
    else match row with
         | [x] => Ok (<[i := replicate width x]> rows)
         | _ => Raise ValueError
         end
  else Raise IndexError.

(** [for x in xs: body], where the body may [break]: it returns the new
    state and whether the loop stops. *)
Fixpoint for_loop {X S : Type} (xs : list X) (body : X -> S -> result (S * bool))
    (s : S) : result S :=
  match xs with
  | [] => Ok s
  | x :: xs' =>
      '(s', stop) ← body x s;
      if (stop : bool) then Ok s' else for_loop xs' body s'
  end.

(** [for x in xs: body] without [break] *)
Definition for_each {X S : Type} (xs : list X) (body : X -> S -> result S)
    (s : S) : result S :=
  for_loop xs (fun x s => s' ← body x s; Ok (s', false)) s.

(** [xrange(a, b)] *)
Definition xrange (a b : nat) : list nat := seq a (b - a).

(** Integer division, [a / b] on Python ints *)
Definition py_div (a b : nat) : result nat :=
  if decide (b = 0)%nat then Raise ZeroDivisionError else Ok (a / b)%nat.

(** [mode == m], where [mode] may be [None] *)
Definition mode_is (mode : option string) (m : string) : bool :=
  match mode with
  | Some mode => String.eqb mode m
  | None => false
  end.

(** ** State of an index

    [Arrays] are the eight datasets that exist both under the index group
    and, as temporaries of the optimizer, under the root of the scratch
    file.  [Index T C] is the state of an index over values of type [T]
    with a limits cache of type [C]. *)

Record Arrays (T : Type) : Type := mkArrays {
  sorted : list (list T);
  indices : list (list nat);
  bounds : list (list T);
  abounds : list T;
  zbounds : list T;
  mbounds : list T;
  ranges : list (T * T);
  mranges : list T
}.
Arguments sorted {T} _.
Arguments indices {T} _.
Arguments bounds {T} _.
Arguments abounds {T} _.
Arguments zbounds {T} _.
Arguments mbounds {T} _.
Arguments ranges {T} _.
Arguments mranges {T} _.
Arguments mkArrays {T}.

(** Calls to collaborators that live outside the module. *)
Inductive event (T : Type) : Type :=
  | EvSwap (what : string) (mode : option string)
  | EvCleanupTemps
  | EvInitSortedSlice
  | EvGetSlot (item : T * T)
  | EvGetItem (nslot : Z)
  | EvCouldEnableCache
  | EvSetItem (item : T * T) (startlengths : list (nat * Z * Z)) (size : Z)
  | EvSearchBinNA (item : T * T)
  | EvSearchBin (i : nat) (item : T * T)
  | EvReadSortedSlice (start stop : nat).
Arguments EvSwap {T}.
Arguments EvCleanupTemps {T}.
Arguments EvInitSortedSlice {T}.
Arguments EvGetSlot {T}.
Arguments EvGetItem {T}.
Arguments EvCouldEnableCache {T}.
Arguments EvSetItem {T}.
Arguments EvSearchBinNA {T}.
Arguments EvSearchBin {T}.
Arguments EvReadSortedSlice {T}.

Record Index (T C : Type) : Type := mkIndex {
  superblocksize : nat;
  blocksize : nat;
  slicesize : nat;
  chunksize : nat;
  type_ : string;
  reord_opts : bool * bool * bool * bool;
  node : Arrays T;
  sortedLR : list T;
  indicesLR : list nat;
  bebounds : list T;
  nrows : nat;
  nelements : nat;
  nelementsLR : option nat;
  dirtycache : bool;
  verbose : option bool;
  last_tover : option spec_float;
  tmp : option (Arrays T);
  starts : list Z;
  lengths : list Z;
  limboundscache : option C;
  log : list (event T)
}.
Arguments superblocksize {T C} _.
Arguments blocksize {T C} _.
Arguments slicesize {T C} _.
Arguments chunksize {T C} _.
Arguments type_ {T C} _.
Arguments reord_opts {T C} _.
Arguments node {T C} _.
Arguments sortedLR {T C} _.
Arguments indicesLR {T C} _.
Arguments bebounds {T C} _.
Arguments nrows {T C} _.
Arguments nelements {T C} _.
Arguments nelementsLR {T C} _.
Arguments dirtycache {T C} _.
Arguments verbose {T C} _.
Arguments last_tover {T C} _.
Arguments tmp {T C} _.
Arguments starts {T C} _.
Arguments lengths {T C} _.
Arguments limboundscache {T C} _.
Arguments log {T C} _.
Arguments mkIndex {T C}.

(** Attribute and item assignment: one setter per mutable field. *)
Definition set_sorted {T : Type} (v : list (list T)) (a : Arrays T) : Arrays T :=
  mkArrays v (indices a) (bounds a) (abounds a) (zbounds a) (mbounds a) (ranges a) (mranges a).
Definition set_indices {T : Type} (v : list (list nat)) (a : Arrays T) : Arrays T :=
  mkArrays (sorted a) v (bounds a) (abounds a) (zbounds a) (mbounds a) (ranges a) (mranges a).
Definition set_bounds {T : Type} (v : list (list T)) (a : Arrays T) : Arrays T :=
  mkArrays (sorted a) (indices a) v (abounds a) (zbounds a) (mbounds a) (ranges a) (mranges a).
Definition set_abounds {T : Type} (v : list T) (a : Arrays T) : Arrays T :=
  mkArrays (sorted a) (indices a) (bounds a) v (zbounds a) (mbounds a) (ranges a) (mranges a).
Definition set_zbounds {T : Type} (v : list T) (a : Arrays T) : Arrays T :=
  mkArrays (sorted a) (indices a) (bounds a) (abounds a) v (mbounds a) (ranges a) (mranges a).
Definition set_mbounds {T : Type} (v : list T) (a : Arrays T) : Arrays T :=
  mkArrays (sorted a) (indices a) (bounds a) (abounds a) (zbounds a) v (ranges a) (mranges a).
Definition set_ranges {T : Type} (v : list (T * T)) (a : Arrays T) : Arrays T :=
  mkArrays (sorted a) (indices a) (bounds a) (abounds a) (zbounds a) (mbounds a) v (mranges a).
Definition set_mranges {T : Type} (v : list T) (a : Arrays T) : Arrays T :=
  mkArrays (sorted a) (indices a) (bounds a) (abounds a) (zbounds a) (mbounds a) (ranges a) v.
Definition set_node {T C : Type} (v : Arrays T) (s : Index T C) : Index T C :=
  mkIndex (superblocksize s) (blocksize s) (slicesize s) (chunksize s)
    (type_ s) (reord_opts s) v (sortedLR s) (indicesLR s) (bebounds s)
    (nrows s) (nelements s) (nelementsLR s) (dirtycache s) (verbose s)
    (last_tover s) (tmp s) (starts s) (lengths s) (limboundscache s) (log s).
Definition set_sortedLR {T C : Type} (v : list T) (s : Index T C) : Index T C :=
  mkIndex (superblocksize s) (blocksize s) (slicesize s) (chunksize s)
    (type_ s) (reord_opts s) (node s) v (indicesLR s) (bebounds s) (nrows s)
    (nelements s) (nelementsLR s) (dirtycache s) (verbose s) (last_tover s)
    (tmp s) (starts s) (lengths s) (limboundscache s) (log s).
Definition set_indicesLR {T C : Type} (v : list nat) (s : Index T C) : Index T C :=
  mkIndex (superblocksize s) (blocksize s) (slicesize s) (chunksize s)
    (type_ s) (reord_opts s) (node s) (sortedLR s) v (bebounds s) (nrows s)
    (nelements s) (nelementsLR s) (dirtycache s) (verbose s) (last_tover s)
    (tmp s) (starts s) (lengths s) (limboundscache s) (log s).
Definition set_bebounds {T C : Type} (v : list T) (s : Index T C) : Index T C :=
  mkIndex (superblocksize s) (blocksize s) (slicesize s) (chunksize s)
    (type_ s) (reord_opts s) (node s) (sortedLR s) (indicesLR s) v (nrows s)
    (nelements s) (nelementsLR s) (dirtycache s) (verbose s) (last_tover s)
    (tmp s) (starts s) (lengths s) (limboundscache s) (log s).
Definition set_nrows {T C : Type} (v : nat) (s : Index T C) : Index T C :=
  mkIndex (superblocksize s) (blocksize s) (slicesize s) (chunksize s)
    (type_ s) (reord_opts s) (node s) (sortedLR s) (indicesLR s) (bebounds
    s) v (nelements s) (nelementsLR s) (dirtycache s) (verbose s)
    (last_tover s) (tmp s) (starts s) (lengths s) (limboundscache s) (log s).
Definition set_nelements {T C : Type} (v : nat) (s : Index T C) : Index T C :=
  mkIndex (superblocksize s) (blocksize s) (slicesize s) (chunksize s)
    (type_ s) (reord_opts s) (node s) (sortedLR s) (indicesLR s) (bebounds
    s) (nrows s) v (nelementsLR s) (dirtycache s) (verbose s) (last_tover s)
    (tmp s) (starts s) (lengths s) (limboundscache s) (log s).
Definition set_nelementsLR {T C : Type} (v : option nat) (s : Index T C) : Index T C :=
  mkIndex (superblocksize s) (blocksize s) (slicesize s) (chunksize s)
    (type_ s) (reord_opts s) (node s) (sortedLR s) (indicesLR s) (bebounds
    s) (nrows s) (nelements s) v (dirtycache s) (verbose s) (last_tover s)
    (tmp s) (starts s) (lengths s) (limboundscache s) (log s).
Definition set_dirtycache {T C : Type} (v : bool) (s : Index T C) : Index T C :=
  mkIndex (superblocksize s) (blocksize s) (slicesize s) (chunksize s)
    (type_ s) (reord_opts s) (node s) (sortedLR s) (indicesLR s) (bebounds
    s) (nrows s) (nelements s) (nelementsLR s) v (verbose s) (last_tover s)
    (tmp s) (starts s) (lengths s) (limboundscache s) (log s).
Definition set_verbose {T C : Type} (v : option bool) (s : Index T C) : Index T C :=
  mkIndex (superblocksize s) (blocksize s) (slicesize s) (chunksize s)
    (type_ s) (reord_opts s) (node s) (sortedLR s) (indicesLR s) (bebounds
    s) (nrows s) (nelements s) (nelementsLR s) (dirtycache s) v (last_tover
    s) (tmp s) (starts s) (lengths s) (limboundscache s) (log s).
Definition set_last_tover {T C : Type} (v : option spec_float) (s : Index T C) : Index T C :=
  mkIndex (superblocksize s) (blocksize s) (slicesize s) (chunksize s)
    (type_ s) (reord_opts s) (node s) (sortedLR s) (indicesLR s) (bebounds
    s) (nrows s) (nelements s) (nelementsLR s) (dirtycache s) (verbose s) v
    (tmp s) (starts s) (lengths s) (limboundscache s) (log s).
Definition set_tmp {T C : Type} (v : option (Arrays T)) (s : Index T C) : Index T C :=
  mkIndex (superblocksize s) (blocksize s) (slicesize s) (chunksize s)
    (type_ s) (reord_opts s) (node s) (sortedLR s) (indicesLR s) (bebounds
    s) (nrows s) (nelements s) (nelementsLR s) (dirtycache s) (verbose s)
    (last_tover s) v (starts s) (lengths s) (limboundscache s) (log s).
Definition set_starts {T C : Type} (v : list Z) (s : Index T C) : Index T C :=
  mkIndex (superblocksize s) (blocksize s) (slicesize s) (chunksize s)
    (type_ s) (reord_opts s) (node s) (sortedLR s) (indicesLR s) (bebounds
    s) (nrows s) (nelements s) (nelementsLR s) (dirtycache s) (verbose s)
    (last_tover s) (tmp s) v (lengths s) (limboundscache s) (log s).
Definition set_lengths {T C : Type} (v : list Z) (s : Index T C) : Index T C :=
  mkIndex (superblocksize s) (blocksize s) (slicesize s) (chunksize s)
    (type_ s) (reord_opts s) (node s) (sortedLR s) (indicesLR s) (bebounds
    s) (nrows s) (nelements s) (nelementsLR s) (dirtycache s) (verbose s)
    (last_tover s) (tmp s) (starts s) v (limboundscache s) (log s).
Definition set_limboundscache {T C : Type} (v : option C) (s : Index T C) : Index T C :=
  mkIndex (superblocksize s) (blocksize s) (slicesize s) (chunksize s)
    (type_ s) (reord_opts s) (node s) (sortedLR s) (indicesLR s) (bebounds
    s) (nrows s) (nelements s) (nelementsLR s) (dirtycache s) (verbose s)
    (last_tover s) (tmp s) (starts s) (lengths s) v (log s).
Definition set_log {T C : Type} (v : list (event T)) (s : Index T C) : Index T C :=
  mkIndex (superblocksize s) (blocksize s) (slicesize s) (chunksize s)
    (type_ s) (reord_opts s) (node s) (sortedLR s) (indicesLR s) (bebounds
    s) (nrows s) (nelements s) (nelementsLR s) (dirtycache s) (verbose s)
    (last_tover s) (tmp s) (starts s) (lengths s) (limboundscache s) v.

(** ** Collaborators of the class

    What the module imports and calls but does not define: the numpy
    scalar operations of the column's dtype, the limits cache
    ([lrucacheExtension.ObjectCache]), the binary searches of
    [indexesExtension.IndexArray] and the node removal of [group.Group].
    They are parameters of the model. *)

Class IndexEnv (T C : Type) : Type := {
  (** [a < b], [a <= b] and [float(a)] on values of the column *)
  val_ltb : T -> T -> bool;
  val_leb : T -> T -> bool;
  val_float : T -> spec_float;
  (** the content of storage that was allocated and never written
      ([numpy.empty], a new [CArray]) *)
  val_garbage : T;
  int_garbage : Z;
  (** [ObjectCache(LIMBOUNDS_MAX_SLOTS, LIMBOUNDS_MAX_SIZE, 'bounds limits')] *)
  ObjectCache : C;
  (** [cache.getslot(key)], [cache.getitem(nslot)],
      [cache.couldenablecache()], [cache.setitem(key, value, size)] *)
  cache_getslot : C -> T * T -> Z * C;
  cache_getitem : C -> Z -> list (nat * Z * Z) * C;
  cache_couldenablecache : C -> bool * C;
  cache_setitem : C -> T * T -> list (nat * Z * Z) -> Z -> C;
  (** [sorted._searchBinNA_d/_i/_ll(item1, item2)]: fills [starts] and
      [lengths] for the complete slices and returns the total length *)
  ext_searchBinNA : Arrays T -> T * T -> list Z -> list Z -> list Z * list Z * Z;
  (** [sorted._searchBin(i, item)] *)
  ext_searchBin : Arrays T -> nat -> T * T -> Z * Z;
  (** [sortedLR._readSortedSlice(sorted, start, stop)] *)
  ext_readSortedSlice : list T -> nat -> nat -> list T;
  (** [Group._f_remove(self, recursive)] *)
  Group_f_remove : bool -> Index T C -> result (Index T C)
}.

(** ** Sorting: [numpy.argsort] and fancy indexing

    [argsort] is modelled by a stable insertion sort of the (value,
    position) pairs; numpy leaves the relative order of equal values open. *)

Section Sorting.
Context {T : Type} (ltb : T -> T -> bool).

Fixpoint insert_pair (x : T * nat) (l : list (T * nat)) : list (T * nat) :=
  match l with
  | [] => [x]
  | y :: l' => if ltb y.1 x.1 then y :: insert_pair x l' else x :: y :: l'
  end.

Fixpoint sort_pairs (l : list (T * nat)) : list (T * nat) :=
  match l with
  | [] => []
  | x :: l' => insert_pair x (sort_pairs l')
  end.

(** [arr.argsort()] *)
Definition argsort (arr : list T) : list nat :=
  (sort_pairs (zip arr (seq 0 (length arr)))).*2.

(** The values of [arr] in ascending order, [arr[arr.argsort()]]. *)
Definition sort_values (arr : list T) : list T :=
  (sort_pairs (zip arr (seq 0 (length arr)))).*1.

(** The order of the keys of two pairs: the second is not smaller. *)
Definition le_key (p q : T * nat) : Prop := ltb q.1 p.1 = false.
End Sorting.

(** [(idx != numpy.arange(n)).sum()]: the number of positions that moved *)
Definition count_moved (idx : list nat) (n : nat) : result nat :=
  if decide (length idx = n) then
    Ok (length (filter (fun p => p.1 <> p.2) (zip idx (seq 0 n))))
  else Raise ValueError.

(** [bisect.bisect_left(a, x, lo, hi)] and [bisect.bisect_right]; [fuel]
    bounds the number of halvings. *)
Section Bisect.
Context {T : Type} (ltb : T -> T -> bool).

Fixpoint bisect_left_loop (a : list T) (x : T) (lo hi fuel : nat) : result nat :=
  match fuel with
  | O => Ok lo
  | S fuel' =>
      if decide (lo < hi)%nat then
        let mid := ((lo + hi) / 2)%nat in
        am ← getitem a mid;
        if ltb am x then bisect_left_loop a x (mid + 1) hi fuel'
        else bisect_left_loop a x lo mid fuel'
      else Ok lo
  end.

Fixpoint bisect_right_loop (a : list T) (x : T) (lo hi fuel : nat) : result nat :=
  match fuel with
  | O => Ok lo
  | S fuel' =>
      if decide (lo < hi)%nat then
        let mid := ((lo + hi) / 2)%nat in
        am ← getitem a mid;
        if ltb x am then bisect_right_loop a x lo mid fuel'
        else bisect_right_loop a x (mid + 1) hi fuel'
      else Ok lo
  end.

Definition bisect_left (a : list T) (x : T) (lo hi : nat) : result nat :=
  bisect_left_loop a x lo hi (S hi).
Definition bisect_right (a : list T) (x : T) (lo hi : nat) : result nat :=
  bisect_right_loop a x lo hi (S hi).
End Bisect.

(** ** Methods of [Index] *)

Section IndexMethods.
Context {T C : Type} {env : IndexEnv T C}.

(** Reading an attribute that may not have been set yet. *)
Definition attr {X : Type} (a : option X) : result X :=
  match a with
  | Some x => Ok x
  | None => Raise AttributeError
  end.

Definition add_log (e : event T) (s : Index T C) : Index T C :=
  set_log (log s ++ [e]) s.

(** *** Properties *)

(** The number of blocks in a superblock. *)
Definition nblockssuperblock (s : Index T C) : result nat :=
  py_div (superblocksize s) (blocksize s).

(** The number of slices in a block. *)
Definition nslicesblock (s : Index T C) : result nat :=
  py_div (blocksize s) (slicesize s).

(** The number of chunks in a slice. *)
Definition nchunkslice (s : Index T C) : result nat :=
  py_div (slicesize s) (chunksize s).

(** The total number of superblocks in index. *)
Definition nsuperblocks (s : Index T C) : result nat :=
  nblocks ← py_div (nelements s) (superblocksize s);
  Ok (if decide (0 < nelements s `mod` superblocksize s)%nat
      then (nblocks + 1)%nat else nblocks).

(** The total number of blocks in index. *)
Definition nblocks (s : Index T C) : result nat :=
  nblocks ← py_div (nelements s) (blocksize s);
  Ok (if decide (0 < nelements s `mod` blocksize s)%nat
      then (nblocks + 1)%nat else nblocks).

(** The number of complete slices in index. *)
Definition nslices (s : Index T C) : result nat :=
  py_div (nelements s) (slicesize s).

(** The number of complete chunks in index. *)
Definition nchunks (s : Index T C) : result nat :=
  py_div (nelements s) (chunksize s).

(** [(slicesize - 1) // chunksize], the width of [bounds] *)
Definition nbounds_inslice (s : Index T C) : result nat :=
  py_div (slicesize s - 1) (chunksize s).

(** *** [__init__] and [_g_postInitHook] of a new index

    The four sizes and [reord_opts] are taken from the [sorted] array,
    whose class computes them; here they are arguments. *)
Definition Index_new (superblocksize blocksize slicesize chunksize : nat)
    (type_ : string) (reord_opts : bool * bool * bool * bool)
    : result (Index T C) :=
  nbounds_inslice ← py_div (slicesize - 1) chunksize;
  Ok {| superblocksize := superblocksize; blocksize := blocksize;
        slicesize := slicesize; chunksize := chunksize;
        type_ := type_; reord_opts := reord_opts;
        node := mkArrays [] [] [] [] [] [] [] [];
        sortedLR := replicate (2 + nbounds_inslice + slicesize) val_garbage;
        indicesLR := replicate slicesize 0%nat;
        bebounds := [];
        nrows := 0; nelements := 0; nelementsLR := None;
        dirtycache := true; verbose := None; last_tover := None;
        tmp := None;
        starts := []; lengths := [];
        limboundscache := None;
        log := [] |}.

(** [arr[[0,-1]]] *)
Definition first_last (arr : list T) : result (T * T) :=
  a ← getitem arr 0; z ← getlast arr; Ok (a, z).

(** Append the array to the index objects *)
Definition append (arr : list T) (s : Index T C) : result (Index T C) :=
  (* Objects that arrive here should be numpy objects already *)
  (* Save the sorted array *)
  let sorted_ := sorted (node s) in
  let sidx := argsort val_ltb arr in
  arr ← take_idx arr sidx;
  (* Indexes in PyTables Pro systems are 64-bit long. *)
  let offset := (length sorted_ * slicesize s)%nat in
  let sidx := (fun i => (i + offset)%nat) <$> sidx in
  indices' ← append_row (slicesize s) (indices (node s)) sidx;
  sorted' ← append_row (slicesize s) sorted_ arr;
  let cs := chunksize s in
  ncs ← nchunkslice s;
  fl ← first_last arr;
  let ranges' := ranges (node s) ++ [fl] in
  b ← stride arr cs cs;
  width ← nbounds_inslice s;
  bounds' ← append_row width (bounds (node s)) b;
  a ← stride arr 0 cs;
  let abounds' := abounds (node s) ++ a in
  z ← stride arr (cs - 1) cs;
  let zbounds' := zbounds (node s) ++ z in
  (* Compute the medians *)
  smedian ← stride arr (cs / 2) cs;
  let mbounds' := mbounds (node s) ++ smedian in
  m ← getitem smedian (ncs / 2);
  let mranges' := mranges (node s) ++ [m] in
  let s := set_node (mkArrays sorted' indices' bounds' abounds' zbounds'
                       mbounds' ranges' mranges') s in
  (* Update nrows after a successful append *)
  let s := set_nrows (length sorted') s in
  let s := set_nelements (nrows s * slicesize s)%nat s in
  let s := set_nelementsLR (Some 0%nat) s in  (* reset the counter of the last row index to 0 *)
  Ok (set_dirtycache true s).   (* the cache is dirty now *)

(** Append the array to the last row index objects *)
Definition appendLastRow (arr : list T) (tnrows : nat) (s : Index T C)
    : result (Index T C) :=
  (* compute the elements in the last row sorted & bounds array *)
  let sorted_ := sorted (node s) in
  let offset := (length sorted_ * slicesize s)%nat in
  _ ← assert (bool_decide (offset <= tnrows /\ tnrows - offset = length arr)%nat);
  let nelementsLR_ := (tnrows - offset)%nat in
  (* Sort the array *)
  let sidx := argsort val_ltb arr in
  arr ← take_idx arr sidx;
  (* build the cache of bounds *)
  firsts ← stride arr 0 (chunksize s);
  lastv ← getlast arr;
  let bebounds_ := firsts ++ [lastv] in
  (* Save the reverse index array *)
  let sidx := (fun i => (i + offset)%nat) <$> sidx in
  indicesLR' ← setslice (indicesLR s) 0 (length arr) sidx;
  (* The number of elements is at the end of the array *)
  _ ← getlast indicesLR';
  let indicesLR' := <[ (length indicesLR' - 1)%nat := nelementsLR_ ]> indicesLR' in
  (* Save the number of elements, bounds and sorted values *)
  let offset' := length bebounds_ in
  sortedLR' ← setslice (sortedLR s) 0 offset' bebounds_;
  sortedLR' ← setslice sortedLR' offset' (length arr) arr;
  let s := set_bebounds bebounds_ s in
  let s := set_indicesLR indicesLR' s in
  let s := set_sortedLR sortedLR' s in
  (* Update nelements after a successful append *)
  let s := set_nrows (length sorted_ + 1)%nat s in
  let s := set_nelements (length sorted_ * slicesize s + nelementsLR_)%nat s in
  let s := set_nelementsLR (Some nelementsLR_) s in
  Ok (set_dirtycache true s).   (* the cache is dirty now *)

(** *** The optimizer *)

(** Create some temporary objects for slice sorting purposes. *)
Definition create_temps (s : Index T C) : result (Index T C) :=
  let cs := chunksize s in
  let ss := slicesize s in
  (* temporary sorted & indices arrays *)
  let tsorted := replicate (nrows s) (replicate ss val_garbage) in
  let tindices := replicate (nrows s) (replicate ss 0%nat) in
  (* temporary bounds *)
  nbounds_inslice ← py_div (ss - 1) cs;
  nslices_ ← nslices s;
  let tbounds := replicate nslices_ (replicate nbounds_inslice val_garbage) in
  nchunks_ ← nchunks s;
  let tabounds := replicate nchunks_ val_garbage in
  let tzbounds := replicate nchunks_ val_garbage in
  let tmbounds := replicate nchunks_ val_garbage in
  (* temporary ranges *)
  nslices_ ← nslices s;
  let tranges := replicate nslices_ (val_garbage, val_garbage) in
  nslices_ ← nslices s;
  let tmranges := replicate nslices_ val_garbage in
  Ok (set_tmp (Some (mkArrays tsorted tindices tbounds tabounds tzbounds
                       tmbounds tranges tmranges)) s).

(** Delete the temporaries for sorting purposes. *)
Definition cleanup_temps (s : Index T C) : result (Index T C) :=
  _ ← attr (verbose s);
  Ok (add_log EvCleanupTemps (set_tmp None s)).

(** Reorder completely a block at slice level. *)
Definition reorder_slices (mode : option string) (nblock : nat) (s : Index T C)
    : result (Index T C) :=
  t ← attr (tmp s);
  let tmp_sorted := sorted t in
  let tmp_indices := indices t in
  let cs := chunksize s in
  ncs ← nchunkslice s;
  nsb ← nslicesblock s;
  (* First, reorder the complete slices *)
  for_loop (xrange (nblock * nsb) ((nblock + 1) * nsb))
    (fun nslice s =>
       (* Protection against processing non-existing slices *)
       if decide (length (sorted (node s)) <= nslice)%nat then Ok (s, true)
       else
         block ← getitem tmp_sorted nslice;
         let sblock_idx := argsort val_ltb block in
         block ← take_idx block sblock_idx;
         sorted' ← set_row (slicesize s) (sorted (node s)) nslice block;
         block_idx ← getitem tmp_indices nslice;
         block_idx ← take_idx block_idx sblock_idx;
         indices' ← set_row (slicesize s) (indices (node s)) nslice block_idx;
         fl ← first_last block;
         ranges' ← setitem (ranges (node s)) nslice fl;
         b ← stride block cs cs;
         width ← nbounds_inslice s;
         bounds' ← set_row width (bounds (node s)) nslice b;
         (* update start & stop bounds *)
         a ← stride block 0 cs;
         abounds' ← setslice (abounds (node s)) (nslice * ncs) ncs a;
         z ← stride block (cs - 1) cs;
         zbounds' ← setslice (zbounds (node s)) (nslice * ncs) ncs z;
         (* update median bounds *)
         smedian ← stride block (cs / 2) cs;
         mbounds' ← setslice (mbounds (node s)) (nslice * ncs) ncs smedian;
         m ← getitem smedian (ncs / 2);
         mranges' ← setitem (mranges (node s)) nslice m;
         Ok (set_node (mkArrays sorted' indices' bounds' abounds' zbounds'
                         mbounds' ranges' mranges') s, false))
    s.

Definition boundsnames : list (string * string) :=
  [("start", "abounds"); ("stop", "zbounds"); ("median", "mbounds")].

(** [self._v_file.getNode(self, name)[start:stop]] for one of the three
    1-D bounds arrays; the node is read when the slice is taken. *)
Definition read_bounds (name : string) (start stop : nat) (s : Index T C)
    : list T :=
  let a := if String.eqb name "abounds" then abounds (node s)
           else if String.eqb name "zbounds" then zbounds (node s)
           else mbounds (node s) in
  getslice a start stop.

(** Swap & reorder the different chunks in a block. *)
Definition swap_chunks (mode : option string) (s : Index T C)
    : result (Index T C) :=
  boundsname ← match mode with
               | Some mode => dict_get mode boundsnames
               | None => Raise KeyError
               end;
  t ← attr (tmp s);
  let tsorted := replicate (slicesize s) val_garbage in
  let tindices := replicate (slicesize s) 0%nat in
  let cs := chunksize s in
  ncs ← nchunkslice s;
  nsb ← nslicesblock s;
  let ncb := (ncs * nsb)%nat in
  let ncb2 := ncb in
  nblocks_ ← nblocks s;
  '(_, _, _, s) ← for_loop (xrange 0 nblocks_)
    (fun nblock '(ncb2, tsorted, tindices, s) =>
       (* Protection for last block having less chunks than ncb *)
       nchunks_ ← nchunks s;
       let remainingchunks := (nchunks_ - nblock * ncb)%nat in
       ncb2 ← (if decide (remainingchunks < ncb)%nat then
                 (* To avoid reordering the chunks in last row (slice) *)
                 q ← py_div remainingchunks ncs; Ok (q * ncs)%nat
               else Ok ncb2);
       if decide (ncb2 <= 1)%nat then
         (* if only zero or one chunks remains we are done *)
         Ok ((ncb2, tsorted, tindices, s), true)
       else
         nslices_ ← py_div ncb2 ncs;
         let bounds_ := read_bounds boundsname (nblock * ncb) (nblock * ncb + ncb2) s in
         let sbounds_idx := argsort val_ltb bounds_ in
         (* Don't swap the block at all if it doesn't need to *)
         moved ← count_moved sbounds_idx ncb2;
         let ndiff := (moved / 2)%nat in
         if decide (ndiff * 20 < ncb2)%nat then
           Ok ((ncb2, tsorted, tindices, s), false)
         else
           (* Swap sorted and indices following the new order *)
           let offset := (nblock * nsb)%nat in
           '(tsorted, tindices, s) ← for_each (xrange 0 nslices_)
             (fun i '(tsorted, tindices, s) =>
                let ns := (offset + i)%nat in
                (* Get sorted & indices slices in new order *)
                '(tsorted, tindices) ← for_each (xrange 0 ncs)
                  (fun j '(tsorted, tindices) =>
                     idx ← getitem sbounds_idx (i * ncs + j);
                     ins ← py_div idx ncs;
                     let inc := ((idx - ins * ncs) * cs)%nat in
                     let ins := (ins + offset)%nat in
                     let nc := (j * cs)%nat in
                     row ← getitem (sorted (node s)) ins;
                     tsorted ← setslice tsorted nc cs (getslice row inc (inc + cs));
                     row ← getitem (indices (node s)) ins;
                     tindices ← setslice tindices nc cs (getslice row inc (inc + cs));
                     Ok (tsorted, tindices))
                  (tsorted, tindices);
                t ← attr (tmp s);
                tmp_sorted ← set_row (slicesize s) (sorted t) ns tsorted;
                tmp_indices ← set_row (slicesize s) (indices t) ns tindices;
                let t := set_indices tmp_indices (set_sorted tmp_sorted t) in
                Ok (tsorted, tindices, set_tmp (Some t) s))
             (tsorted, tindices, s);
           (* Reorder completely indices at slice level *)
           s ← reorder_slices mode nblock s;
           Ok ((ncb2, tsorted, tindices, s), false))
    (ncb2, tsorted, tindices, s);
  Ok s.

(** Swap slices in a superblock. *)
Definition swap_slices (mode : option string) (s : Index T C)
    : result (Index T C) :=
  _ ← attr (tmp s);
  ncs ← nchunkslice s;
  nss ← py_div (superblocksize s) (slicesize s);
  let nss2 := nss in
  nsuperblocks_ ← nsuperblocks s;
  '(_, s) ← for_loop (xrange 0 nsuperblocks_)
    (fun sblock '(nss2, s) =>
       (* Protection for last superblock having less slices than nss *)
       nslices_ ← nslices s;
       let remainingslices := (nslices_ - sblock * nss)%nat in
       let nss2 := if decide (remainingslices < nss)%nat then remainingslices
                   else nss2 in
       if decide (nss2 <= 1)%nat then Ok ((nss2, s), true)
       else
         ranges_ ←
           (if mode_is mode "start" then
              Ok ((getslice (ranges (node s)) (sblock * nss) (sblock * nss + nss2)).*1)
            else if mode_is mode "stop" then
              Ok ((getslice (ranges (node s)) (sblock * nss) (sblock * nss + nss2)).*2)
            else if mode_is mode "median" then
              Ok (getslice (mranges (node s)) (sblock * nss) (sblock * nss + nss2))
            else Raise UnboundLocalError);
         let sranges_idx := argsort val_ltb ranges_ in
         (* Don't swap the superblock at all if it doesn't need to *)
         moved ← count_moved sranges_idx nss2;
         let ndiff := (moved / 2)%nat in
         if decide (ndiff * 50 < nss2)%nat then Ok ((nss2, s), false)
         else
           let ns := (sblock * nss2)%nat in
           (* Swap sorted and indices slices following the new order *)
           s ← for_each (xrange 0 nss2)
             (fun i s =>
                idx ← getitem sranges_idx i;
                (* Swap sorted & indices slices *)
                let oi := (ns + i)%nat in
                let oidx := (ns + idx)%nat in
                t ← attr (tmp s);
                row ← getitem (sorted (node s)) oidx;
                tsorted ← set_row (slicesize s) (sorted t) oi row;
                row ← getitem (indices (node s)) oidx;
                tindices ← set_row (slicesize s) (indices t) oi row;
                (* Swap start, stop & median ranges *)
                r ← getitem (ranges (node s)) oidx;
                tranges ← setitem (ranges t) oi r;
                m ← getitem (mranges (node s)) oidx;
                tmranges ← setitem (mranges t) oi m;
                (* Swap chunk bounds *)
                b ← getitem (bounds (node s)) oidx;
                width ← nbounds_inslice s;
                tbounds ← set_row width (bounds t) oi b;
                (* Swap start, stop & median bounds *)
                let j := (oi * ncs)%nat in
                let xj := (oidx * ncs)%nat in
                tabounds ← setslice (abounds t) j ncs
                             (getslice (abounds (node s)) xj (xj + ncs));
                tzbounds ← setslice (zbounds t) j ncs
                             (getslice (zbounds (node s)) xj (xj + ncs));
                tmbounds ← setslice (mbounds t) j ncs
                             (getslice (mbounds (node s)) xj (xj + ncs));
                Ok (set_tmp (Some (mkArrays tsorted tindices tbounds tabounds
                                     tzbounds tmbounds tranges tmranges)) s))
             s;
           (* tmp --> originals *)
           s ← for_each (xrange 0 nss2)
             (fun i s =>
                (* Copy sorted & indices slices *)
                let oi := (ns + i)%nat in
                t ← attr (tmp s);
                row ← getitem (sorted t) oi;
                sorted' ← set_row (slicesize s) (sorted (node s)) oi row;
                row ← getitem (indices t) oi;
                indices' ← set_row (slicesize s) (indices (node s)) oi row;
                (* Copy start, stop & median ranges *)
                r ← getitem (ranges t) oi;
                ranges' ← setitem (ranges (node s)) oi r;
                m ← getitem (mranges t) oi;
                mranges' ← setitem (mranges (node s)) oi m;
                (* Copy chunk bounds *)
                b ← getitem (bounds t) oi;
                width ← nbounds_inslice s;
                bounds' ← set_row width (bounds (node s)) oi b;
                (* Copy start, stop & median bounds *)
                let j := (oi * ncs)%nat in
                abounds' ← setslice (abounds (node s)) j ncs
                             (getslice (abounds t) j (j + ncs));
                zbounds' ← setslice (zbounds (node s)) j ncs
                             (getslice (zbounds t) j (j + ncs));
                mbounds' ← setslice (mbounds (node s)) j ncs
                             (getslice (mbounds t) j (j + ncs));
                Ok (set_node (mkArrays sorted' indices' bounds' abounds'
                                zbounds' mbounds' ranges' mranges') s))
             s;
           Ok ((nss2, s), false))
    (nss2, s);
  Ok s.

(** Compute some statistics about overlaping of slices in index:
    [(noverlaps, multiplicity, toverlap)]. *)
Definition compute_overlaps (s : Index T C)
    : result (nat * list nat * spec_float) :=
  let ranges_ := ranges (node s) in
  nslices_ ← nslices s;
  let is_string := String.eqb (type_ s) "string" in
  '(noverlaps, soverlap, multiplicity) ←
    for_each (xrange 0 nslices_)
      (fun i acc =>
         for_each (xrange (i + 1) nslices_)
           (fun j '(noverlaps, soverlap, multiplicity) =>
              ri ← getitem ranges_ i;
              rj ← getitem ranges_ j;
              if val_ltb rj.1 ri.2 then
                k ← getitem multiplicity (j - i);
                multiplicity ← setitem multiplicity (j - i) (k + 1)%nat;
                let soverlap :=
                  if is_string then soverlap
                  else
                    (* Convert ranges into floats in order to allow
                       doing operations with them without overflows *)
                    F64.add soverlap (F64.sub (val_float ri.2) (val_float rj.1)) in
                Ok ((noverlaps + 1)%nat, soverlap, multiplicity)
              else Ok (noverlaps, soverlap, multiplicity))
           acc)
      (0%nat, float_0, replicate nslices_ 0%nat);
  (* Return the overlap as the ratio between overlaps and entire range *)
  toverlap ←
    (if is_string then Ok (F64.of_Z (-1))
     else
       rl ← getlast ranges_;
       r0 ← getitem ranges_ 0;
       let erange := F64.sub (val_float rl.2) (val_float r0.1) in
       (* Check that there is an effective range of values *)
       if F64.ltb float_0 erange then Ok (F64.div soverlap erange)
       else Ok (F64.of_Z (-1)));
  Ok (noverlaps, multiplicity, toverlap).

(** Thresholds for avoiding continuing the optimization *)
Definition thnover : nat := 4.                                  (* minimum number of overlapping slices *)
Definition thmult : spec_float := F64.div float_1 (F64.of_Z 100).   (* 0.01 *)
Definition thtover : spec_float := F64.div float_1 (F64.of_Z 1000). (* 0.001 *)
Definition float_0_1 : spec_float := F64.div float_1 (F64.of_Z 10). (* 0.1 *)

(** Swap chunks or slices using a certain bounds reference. *)
Definition swap (what : string) (mode : option string) (s : Index T C)
    : result (Index T C * bool) :=
  let s := add_log (EvSwap what mode) s in
  _ ← attr (verbose s);
  s ← (if String.eqb what "create" then create_temps s
       else if String.eqb what "chunks" then swap_chunks mode s
       else if String.eqb what "slices" then swap_slices mode s
       else Ok s);
  '(nover, mult, tover) ← compute_overlaps s;
  rmult ← (if decide (length mult = 0)%nat then Raise ZeroDivisionError
           else Ok (F64.div
                      (F64.of_Z (Z.of_nat (length (filter (fun k => k <> 0%nat) mult))))
                      (F64.of_Z (Z.of_nat (length mult)))));
  (* Check that entropy is actually decreasing *)
  too_few ←
    (if String.eqb what "chunks" then
       last_tover_ ← attr (last_tover s);
       Ok (F64.ltb float_0 last_tover_ && F64.ltb float_0 tover
           && F64.ltb (F64.div (F64.sub last_tover_ tover) last_tover_) float_0_1)
     else Ok false);
  if (too_few : bool) then
    (* Less than a 10% of improvement is too few *)
    Ok (s, true)
  else
    let s := set_last_tover (Some tover) s in
    (* Check if some threshold has met *)
    if decide (nover < thnover)%nat then Ok (s, true)
    else if F64.ltb rmult thmult then Ok (s, true)
    (* Additional check for the overlap ratio *)
    else if F64.leb float_0 tover && F64.ltb tover thtover then Ok (s, true)
    else Ok (s, false).

(** [if self.swap(what, mode): break], followed by the rest of the body
    of the [while True] loop of [optimize] *)
Definition swap_or_break (what : string) (mode : option string)
    (rest : Index T C -> result (Index T C)) (s : Index T C)
    : result (Index T C) :=
  '(s, stop) ← swap what mode s;
  if (stop : bool) then Ok s else rest s.

(** [if cond: if self.swap(what, mode): break] *)
Definition when_swap_or_break (cond : bool) (what : string)
    (mode : option string) (rest : Index T C -> result (Index T C))
    (s : Index T C) : result (Index T C) :=
  if cond then swap_or_break what mode rest s else rest s.

(** The flags [(optmedian, optstarts, optstops, optfull)] chosen by
    [optimize] for a level, or the stored [reord_opts] without one. *)
Definition opt_flags (level : option Z) (s : Index T C)
    : bool * bool * bool * bool :=
  match level with
  | Some level =>
      if (3 <=? level) && (level <? 6) then (false, true, false, false)
      else if (6 <=? level) && (level <? 9) then (false, true, true, false)
      else if level =? 9 then (false, false, false, true)
      else (false, false, false, false)
  | None => reord_opts s
  end.

(** Optimize an index to allow faster searches. *)
Definition optimize (level : option Z) (verbose_ : bool) (s : Index T C)
    : result (Index T C) :=
  let s := set_verbose (Some verbose_) s in
  (* Initialize last_tover *)
  let s := set_last_tover (Some float_0) s in
  (* Optimize only when we have more than one slice *)
  nslices_ ← nslices s;
  if decide (nslices_ <= 1)%nat then Ok s
  else
    _ ← (if verbose_ then compute_overlaps s else Ok (0%nat, [], float_0));
    let '(optmedian, optstarts, optstops, optfull) := opt_flags level s in
    (* Start the optimization process *)
    let create_tmp := optmedian || optstarts || optstops || optfull in
    let swap_done := create_tmp in
    let phases : Index T C -> result (Index T C) :=
      if optfull then
        swap_or_break "chunks" (Some "median") (fun s =>
          nblocks_ ← nblocks s;
          (if decide (1 < nblocks_)%nat then
             (* Swap slices only in the case that we have several blocks *)
             swap_or_break "slices" (Some "median")
               (swap_or_break "chunks" (Some "median")
                  (swap_or_break "chunks" (Some "start")
                     (swap_or_break "chunks" (Some "stop") Ok)))
           else
             swap_or_break "chunks" (Some "start")
               (swap_or_break "chunks" (Some "stop") Ok)) s)
      else
        when_swap_or_break optmedian "chunks" (Some "median")
          (when_swap_or_break optstarts "chunks" (Some "start")
             (when_swap_or_break optstops "chunks" (Some "stop") Ok)) in
    '(s, swap_done) ←
      (if create_tmp then
         '(s, stop) ← swap "create" None s;
         if (stop : bool) then Ok (s, false)   (* No swap has been done! *)
         else s ← phases s; Ok (s, swap_done)
       else s ← phases s; Ok (s, swap_done));
    (* Close and delete the temporal optimization index file *)
    if create_tmp then
      s ← cleanup_temps s;
      (* the memory data cache is dirty now *)
      Ok (if (swap_done : bool) then set_dirtycache true s else s)
    else Ok s.

(** *** Searching *)

(** Clean the limits cache and resize starts and lengths arrays *)
Definition restorecache (s : Index T C) : Index T C :=
  let s := set_limboundscache (Some ObjectCache) s in
  let s := set_starts (replicate (nrows s) int_garbage) s in
  let s := set_lengths (replicate (nrows s) int_garbage) s in
  (* Initialize the sorted array in extension *)
  let s := add_log EvInitSortedSlice s in
  set_dirtycache false s.

(** Do a binary search in this index for an item (scalar version). *)
Definition search_scalar (item : T * T) (s : Index T C) : result (Z * Index T C) :=
  for_each (xrange 0 (length (sorted (node s))))
    (fun i '(tlen, s) =>
       let s := add_log (EvSearchBin i item) s in
       let '(start, stop) := ext_searchBin (node s) i item in
       starts' ← setitem (starts s) i start;
       lengths' ← setitem (lengths s) i (stop - start);
       Ok (tlen + (stop - start), set_lengths lengths' (set_starts starts' s)))
    (0, s).

Definition searchLastRow (item : T * T) (s : Index T C)
    : result (nat * nat * Index T C) :=
  let '(item1, item2) := item in
  nelementsLR_ ← attr (nelementsLR s);
  let hi := nelementsLR_ in
  let hi2 := nelementsLR_ in
  let bebounds_ := bebounds s in
  _ ← assert (bool_decide
                (nelements s = hi + length (sorted (node s)) * slicesize s)%nat);
  begin ← getitem bebounds_ 0;
  (* Look for items at the beginning of sorted slices *)
  let result1 := if val_leb item1 begin then Some 0%nat else None in
  let result2 := if val_ltb item2 begin then Some 0%nat else None in
  match result1, result2 with
  | Some r1, Some r2 => Ok (r1, r2, s)
  | _, _ =>
    (* Then, look for items at the end of the sorted slice *)
    end_ ← getlast bebounds_;
    let result1 := match result1 with
                   | None => if val_ltb end_ item1 then Some hi else None
                   | r => r
                   end in
    let result2 := match result2 with
                   | None => if val_leb end_ item2 then Some hi else None
                   | r => r
                   end in
    match result1, result2 with
    | Some r1, Some r2 => Ok (r1, r2, s)
    | _, _ =>
      (* Finally, do a lookup for item1 and item2 if they were not found *)
      let bounds_ := getslice bebounds_ 1 (length bebounds_ - 1) in
      let nbounds := length bebounds_ in
      let cs := chunksize s in
      (* Lookup in the middle of the slice for item1 *)
      '(result1, nchunk, chunk, hi2, s) ←
        match result1 with
        | Some r1 => Ok (r1, None, None, hi2, s)
        | None =>
            (* Search the appropriate chunk in bounds cache *)
            nchunk ← bisect_left val_ltb bounds_ item1 0 (length bounds_);
            let end_ := Nat.min (cs * (nchunk + 1)) hi in
            let s := add_log (EvReadSortedSlice (nbounds + cs * nchunk)
                                (nbounds + end_)) s in
            let chunk := ext_readSortedSlice (sortedLR s)
                           (nbounds + cs * nchunk) (nbounds + end_) in
            let hi2 := if decide (length chunk < hi)%nat then length chunk
                       else hi2 in
            r1 ← bisect_left val_ltb chunk item1 0 hi2;
            Ok ((r1 + cs * nchunk)%nat, Some nchunk, Some chunk, hi2, s)
        end;
      (* Lookup in the middle of the slice for item2 *)
      match result2 with
      | Some r2 => Ok (result1, r2, s)
      | None =>
          (* Search the appropriate chunk in bounds cache *)
          nchunk2 ← bisect_right val_ltb bounds_ item2 0 (length bounds_);
          '(chunk, hi2, s) ←
            (if bool_decide (nchunk = Some nchunk2) then
               chunk ← match chunk with
                       | Some c => Ok c
                       | None => Raise UnboundLocalError
                       end;
               Ok (chunk, hi2, s)
             else
               let end_ := Nat.min (cs * (nchunk2 + 1)) hi in
               let s := add_log (EvReadSortedSlice (nbounds + cs * nchunk2)
                                   (nbounds + end_)) s in
               let chunk := ext_readSortedSlice (sortedLR s)
                              (nbounds + cs * nchunk2) (nbounds + end_) in
               let hi2 := if decide (length chunk < hi)%nat then length chunk
                          else hi2 in
               Ok (chunk, hi2, s));
          r2 ← bisect_right val_ltb chunk item2 0 hi2;
          Ok (result1, (r2 + cs * nchunk2)%nat, s)
      end
    end
  end.

(** [a[:] = 0] *)
Definition fill_zero (a : list Z) : list Z := replicate (length a) 0.

(** Do a binary search in this index for an item.  The empty tuple is
    [None]; the result is the total length and the new state. *)
Definition search (item : option (T * T)) (s : Index T C)
    : result (Z * Index T C) :=
  let s := if dirtycache s then restorecache s else s in
  (* An empty item means that the number of records is always
     going to be empty, so we avoid further computation
     (including looking up the limits cache). *)
  match item with
  | None =>
      let s := set_starts (fill_zero (starts s)) s in
      let s := set_lengths (fill_zero (lengths s)) s in
      Ok (0, s)
  | Some item =>
      (* Check whether the item tuple is in the limits cache or not *)
      cache ← attr (limboundscache s);
      let s := add_log (EvGetSlot item) s in
      let '(nslot, cache) := cache_getslot cache item in
      let s := set_limboundscache (Some cache) s in
      if 0 <=? nslot then
        let s := add_log (EvGetItem nslot) s in
        let '(startlengths, cache) := cache_getitem cache nslot in
        let s := set_limboundscache (Some cache) s in
        (* Reset the lengths array (the starts is not necessary) *)
        let s := set_lengths (fill_zero (lengths s)) s in
        (* Now, set the interesting rows *)
        for_each startlengths
          (fun '(nrow2, start, length_) '(tlen, s) =>
             starts' ← setitem (starts s) nrow2 start;
             lengths' ← setitem (lengths s) nrow2 length_;
             Ok (tlen + length_, set_lengths lengths' (set_starts starts' s)))
          (0, s)
      else
        (* The item is not in cache. Do the real lookup. *)
        '(tlen, s) ←
          (if decide (0 < length (sorted (node s)))%nat then
             if negb (String.eqb (type_ s) "string") then
               if str_in (type_ s) ["float64"; "int32"; "int64"] then
                 let s := add_log (EvSearchBinNA item) s in
                 let '(starts', lengths', tlen) :=
                   ext_searchBinNA (node s) item (starts s) (lengths s) in
                 Ok (tlen, set_lengths lengths' (set_starts starts' s))
               else search_scalar item s
             else search_scalar item s
           else Ok (0, s));
        (* Get possible remaing values in last row *)
        nelementsLR_ ← attr (nelementsLR s);
        '(tlen, s) ←
          (if decide (0 < nelementsLR_)%nat then
             (* Look for more indexes in the last row *)
             '(start, stop, s) ← searchLastRow item s;
             _ ← getlast (starts s);
             let starts' := <[(length (starts s) - 1)%nat := Z.of_nat start]> (starts s) in
             _ ← getlast (lengths s);
             let lengths' := <[(length (lengths s) - 1)%nat :=
                                 Z.of_nat stop - Z.of_nat start]> (lengths s) in
             Ok (tlen + (Z.of_nat stop - Z.of_nat start),
                 set_lengths lengths' (set_starts starts' s))
           else Ok (tlen, s));
        cache ← attr (limboundscache s);
        let s := add_log EvCouldEnableCache s in
        let '(enable, cache) := cache_couldenablecache cache in
        let s := set_limboundscache (Some cache) s in
        if (enable : bool) then
          (* Get a startlengths tuple and save it in cache. *)
          startlengths ←
            for_each (zip (seq 0 (length (lengths s))) (lengths s))
              (fun '(nrow, length_) acc =>
                 if 0 <? length_ then
                   start ← getitem (starts s) nrow;
                   Ok (acc ++ [(nrow, start, length_)])
                 else Ok acc)
              [];
          (* Compute the size of the recarray (aproximately) *)
          let size := Z.of_nat (length startlengths) * 8 * 2 + 1 in
          (* Put this startlengths list in cache *)
          let s := add_log (EvSetItem item startlengths size) s in
          Ok (tlen, set_limboundscache
                      (Some (cache_setitem cache item startlengths size)) s)
        else Ok (tlen, s)
  end.

(** Remove this Index object *)
Definition _f_remove (recursive : bool) (s : Index T C) : result (Index T C) :=
  (* Index removal is always recursive,
     no matter what `recursive` says. *)
  Group_f_remove true s.
End IndexMethods.

(** ** Concrete platform and dtypes used by the examples *)

(** CPython 2 on an LP64 platform: [sys.maxint == 2**63 - 1]. *)
Definition LP64 : Platform := {| sys_maxint := 2 ^ 63 - 1 |}.

Definition dtype_int8 : dtype := {| kind := "i"; name := "int8"; itemsize := 1 |}.
Definition dtype_int64 : dtype := {| kind := "i"; name := "int64"; itemsize := 8 |}.
Definition dtype_float64 : dtype := {| kind := "f"; name := "float64"; itemsize := 8 |}.
Definition dtype_S2 : dtype := {| kind := "S"; name := "string16"; itemsize := 2 |}.

(** The numeric value of an [int] or [long]. *)
Definition int_value (v : pyval) : option Z :=
  match v with
  | PInt z | PLong z => Some z
  | _ => None
  end.

(** [2.0 ** 53], [1.0 - 2.0 ** -53] and [1.0 - 2.0 ** -52] as doubles. *)
Definition float_2p53 : spec_float := S754_finite false (2 ^ 52) 1.
Definition float_below_1 : spec_float := S754_finite false (2 ^ 53 - 1) (-53).
Definition float_below_below_1 : spec_float := S754_finite false (2 ^ 53 - 2) (-53).

(** ** A concrete environment for the examples: an [int64] column

    Modelled from the spec: the collaborators of the class are not in the
    module.  The cache is the trivial one (no slot is ever found, nothing
    is stored); the binary searches return, per slice, the positions of
    the first value [>= lo] and of the first value [> hi] (section 4.3);
    [_readSortedSlice] reads [sortedLR[start:stop]]; [Group._f_remove]
    succeeds. *)

Definition count_lt (x : Z) (row : list Z) : Z :=
  Z.of_nat (length (filter (fun v => v < x) row)).
Definition count_le (x : Z) (row : list Z) : Z :=
  Z.of_nat (length (filter (fun v => v <= x) row)).

(** The positions [(start, stop)] of the values of [row] in
    [[lo, hi]]; [stop] is not before [start]. *)
Definition Z_bounds (item : Z * Z) (row : list Z) : Z * Z :=
  let start := count_lt item.1 row in
  (start, Z.max start (count_le item.2 row)).

Definition Z_searchBin (a : Arrays Z) (i : nat) (item : Z * Z) : Z * Z :=
  match sorted a !! i with
  | Some row => Z_bounds item row
  | None => (0, 0)
  end.

Definition Z_searchBinNA (a : Arrays Z) (item : Z * Z) (starts lengths : list Z)
    : list Z * list Z * Z :=
  let se := Z_bounds item <$> sorted a in
  let n := length (sorted a) in
  (se.*1 ++ drop n starts,
   ((fun p => p.2 - p.1) <$> se) ++ drop n lengths,
   foldr Z.add 0 ((fun p => p.2 - p.1) <$> se)).

Definition ZEnv : IndexEnv Z unit := {|
  val_ltb := Z.ltb;
  val_leb := Z.leb;
  val_float := F64.of_Z;
  val_garbage := 0;
  int_garbage := 0;
  ObjectCache := tt;
  cache_getslot := fun c _ => (-1, c);
  cache_getitem := fun c _ => ([], c);
  cache_couldenablecache := fun c => (false, c);
  cache_setitem := fun c _ _ _ => c;
  ext_searchBinNA := Z_searchBinNA;
  ext_searchBin := Z_searchBin;
  ext_readSortedSlice := fun l start stop => getslice l start stop;
  Group_f_remove := fun _ s => Ok s
|}.

(** ** Concrete indexes

    The state of a run that does not fail. *)
Definition from_ok {A : Type} (d : A) (r : result A) : A :=
  match r with
  | Ok a => a
  | Raise _ => d
  end.

(** A new index with slices of 4 values in chunks of 2, and blocks and
    superblocks of 2 slices. *)
Definition index_empty : Index Z unit :=
  {| superblocksize := 8; blocksize := 8; slicesize := 4; chunksize := 2;
     type_ := "int64"; reord_opts := (false, true, false, false);
     node := mkArrays [] [] [] [] [] [] [] [];
     sortedLR := replicate 7 0; indicesLR := replicate 4 0%nat;
     bebounds := [];
     nrows := 0; nelements := 0; nelementsLR := None;
     dirtycache := true; verbose := None; last_tover := None;
     tmp := None; starts := []; lengths := []; limboundscache := None;
     log := [] |}.

(** One and two slices appended, then a last row of 2 values, then a
    third slice. *)
Definition index_1 : Index Z unit :=
  from_ok index_empty (append (env := ZEnv) [5; 1; 7; 3] index_empty).
Definition index_2 : Index Z unit :=
  from_ok index_1 (append (env := ZEnv) [2; 8; 4; 6] index_1).
Definition index_2_LR : Index Z unit :=
  from_ok index_2 (appendLastRow (env := ZEnv) [6; 0] 10 index_2).
Definition index_3 : Index Z unit :=
  from_ok index_2_LR (append (env := ZEnv) [6; 0; 11; 12] index_2_LR).

(** Eight equal slices in one block of 8 slices. *)
Definition index_block_0 : Index Z unit :=
  from_ok index_empty
    (Index_new (env := ZEnv) 32 32 4 2 "int64" (false, true, false, false)).
Definition index_block : Index Z unit :=
  from_ok index_block_0
    (for_each (xrange 0 8) (fun _ s => append (env := ZEnv) [0; 100; 100; 200] s)
       index_block_0).

(** ** Invariants and reachable states *)

Section Invariants.
Local Open Scope nat_scope.
Context {T C : Type} {env : IndexEnv T C}.

(** Modelled from the spec: the four sizes are chosen at creation by the
    class of the [sorted] array, which is not in the module;
    "chunksize <= slicesize <= blocksize <= superblocksize, each a multiple
    of the next smaller" (section 3). *)
Definition sizes_ok (superblocksize blocksize slicesize chunksize : nat) : Prop :=
  0 < chunksize
  /\ (exists ncs, 0 < ncs /\ slicesize = ncs * chunksize)
  /\ (exists nsb, 0 < nsb /\ blocksize = nsb * slicesize)
  /\ (exists nbs, 0 < nbs /\ superblocksize = nbs * blocksize).

(** Slice [i] of the arrays [a] is the row [r] together with the rows
    derived from it, as [append] and [reorder_slices] compute them. *)
Definition slice_ok (cs ncs : nat) (a : Arrays T) (i : nat) (r : list T) : Prop :=
  sorted a !! i = Some r
  /\ length r = ncs * cs
  /\ (exists fl, first_last r = Ok fl /\ ranges a !! i = Some fl)
  /\ bounds a !! i = Some (stride_from r cs cs (length r))
  /\ getslice (abounds a) (i * ncs) (i * ncs + ncs) = stride_from r 0 cs (length r)
  /\ getslice (zbounds a) (i * ncs) (i * ncs + ncs)
     = stride_from r (cs - 1) cs (length r)
  /\ getslice (mbounds a) (i * ncs) (i * ncs + ncs)
     = stride_from r (cs / 2) cs (length r)
  /\ (exists m, stride_from r (cs / 2) cs (length r) !! (ncs / 2) = Some m
                /\ mranges a !! i = Some m).

(** The derived arrays have one entry per slice (per chunk) and every
    slice is consistent. *)
Record arrays_ok (cs ncs : nat) (a : Arrays T) : Prop := {
  ok_ranges : length (ranges a) = length (sorted a);
  ok_bounds : length (bounds a) = length (sorted a);
  ok_mranges : length (mranges a) = length (sorted a);
  ok_abounds : length (abounds a) = length (sorted a) * ncs;
  ok_zbounds : length (zbounds a) = length (sorted a) * ncs;
  ok_mbounds : length (mbounds a) = length (sorted a) * ncs;
  ok_slices : forall i, i < length (sorted a) -> exists r, slice_ok cs ncs a i r
}.

(** The shape of the temporaries, as [create_temps] makes them: rows of
    [slicesize] values, and room in the bounds of the chunks for every
    slice that has a range. *)
Definition tmp_ok (cs ncs : nat) (s : Index T C) : Prop :=
  forall t, tmp s = Some t ->
    Forall (fun r => length r = ncs * cs) (sorted t)
    /\ length (ranges t) * ncs <= length (abounds t)
    /\ length (ranges t) * ncs <= length (zbounds t)
    /\ length (ranges t) * ncs <= length (mbounds t).

(** The invariant of an index with chunks of [cs] values and slices of
    [ncs] chunks. *)
Definition index_inv (cs ncs : nat) (s : Index T C) : Prop :=
  0 < cs /\ 0 < ncs
  /\ chunksize s = cs /\ slicesize s = ncs * cs
  /\ arrays_ok cs ncs (node s)
  /\ tmp_ok cs ncs s.

Definition index_ok (s : Index T C) : Prop :=
  exists cs ncs, index_inv cs ncs s.

(** What the optimizer and the searcher leave alone. *)
Definition same_frame (s s' : Index T C) : Prop :=
  superblocksize s' = superblocksize s
  /\ blocksize s' = blocksize s
  /\ slicesize s' = slicesize s
  /\ chunksize s' = chunksize s
  /\ type_ s' = type_ s
  /\ reord_opts s' = reord_opts s
  /\ nrows s' = nrows s
  /\ nelements s' = nelements s
  /\ nelementsLR s' = nelementsLR s
  /\ sortedLR s' = sortedLR s
  /\ indicesLR s' = indicesLR s
  /\ bebounds s' = bebounds s
  /\ length (sorted (node s')) = length (sorted (node s)).

(** The part of the state that a search leaves alone: everything but
    [starts], [lengths], the limits cache, its dirty flag and the log. *)
Definition search_core (s : Index T C) :=
  (superblocksize s, blocksize s, slicesize s, chunksize s, type_ s,
   reord_opts s, node s, sortedLR s, indicesLR s, bebounds s,
   nrows s, nelements s, nelementsLR s, verbose s, last_tover s, tmp s).

(** A continuation of the loop of [optimize] keeps the invariant and the
    frame of [s0]. *)
Definition keeps (cs ncs : nat) (s0 : Index T C)
    (rest : Index T C -> result (Index T C)) : Prop :=
  forall s1 s2, index_inv cs ncs s1 -> same_frame s0 s1 -> rest s1 = Ok s2 ->
                index_inv cs ncs s2 /\ same_frame s0 s2.

(** [nrows], [nelements] and [nelementsLR] against the number of
    complete slices. *)
Definition counts_ok (s : Index T C) : Prop :=
  let n := length (sorted (node s)) in
  match nelementsLR s with
  | None => nrows s = 0 /\ nelements s = 0 /\ n = 0
  | Some k =>
      nelements s = n * slicesize s + k
      /\ nrows s = n + (if decide (k = 0) then 0 else 1)
  end.

(** A trailing partial slice exists: elements are indexed beyond the
    complete slices. *)
Definition has_partial_slice (s : Index T C) : Prop :=
  length (sorted (node s)) * slicesize s < nelements s.

(** The states of an index object: a new index with well-formed sizes,
    then any sequence of successful calls; the steps of the optimizer are
    included so that its intermediate states are reachable states. *)
Inductive reachable : Index T C -> Prop :=
  | reach_new sbs bs ss cs ty ro s :
      sizes_ok sbs bs ss cs -> Index_new sbs bs ss cs ty ro = Ok s ->
      reachable s
  | reach_append s arr s' :
      reachable s -> append arr s = Ok s' -> reachable s'
  | reach_appendLastRow s arr tnrows s' :
      reachable s -> appendLastRow arr tnrows s = Ok s' -> reachable s'
  | reach_optimize s level v s' :
      reachable s -> optimize level v s = Ok s' -> reachable s'
  | reach_search s item n s' :
      reachable s -> search item s = Ok (n, s') -> reachable s'
  | reach_swap s what mode s' stop :
      reachable s -> swap what mode s = Ok (s', stop) -> reachable s'
  | reach_create_temps s s' :
      reachable s -> create_temps s = Ok s' -> reachable s'
  | reach_swap_chunks s mode s' :
      reachable s -> swap_chunks mode s = Ok s' -> reachable s'
  | reach_reorder_slices s mode nblock s' :
      reachable s -> reorder_slices mode nblock s = Ok s' -> reachable s'
  | reach_swap_slices s mode s' :
      reachable s -> swap_slices mode s = Ok s' -> reachable s'
  | reach_cleanup_temps s s' :
      reachable s -> cleanup_temps s = Ok s' -> reachable s'.

(** The formulas of the data model (invariant 2 of section 3), for
    every complete slice [i] with sorted row [r]. *)
Definition formulas_hold (s : Index T C) : Prop :=
  let cs := chunksize s in
  let ss := slicesize s in
  let ncs := ss / cs in
  let a := node s in
  forall i r, sorted a !! i = Some r ->
    length r = ss
    /\ (exists lo hi, ranges a !! i = Some (lo, hi)
                      /\ r !! 0 = Some lo /\ r !! (ss - 1) = Some hi)
    /\ (exists b, bounds a !! i = Some b /\ length b = ncs - 1
                  /\ forall k, k + 2 <= ncs ->
                       is_Some (b !! k) /\ b !! k = r !! ((k + 1) * cs))
    /\ (forall j, j < ncs ->
          is_Some (abounds a !! (i * ncs + j))
          /\ abounds a !! (i * ncs + j) = r !! (j * cs)
          /\ zbounds a !! (i * ncs + j) = r !! ((j + 1) * cs - 1)
          /\ mbounds a !! (i * ncs + j) = r !! (j * cs + cs / 2))
    /\ is_Some (mranges a !! i)
    /\ mranges a !! i = mbounds a !! (i * ncs + ncs / 2).

(** *** The level table of the optimizer, following section 4.5 with the
    single-block case of level 9 as the code has it *)

Definition level_phases (level : Z) (nblocks : nat) : list (string * string) :=
  if ((3 <=? level) && (level <? 6))%Z then [("chunks", "start")]
  else if ((6 <=? level) && (level <? 9))%Z then
    [("chunks", "start"); ("chunks", "stop")]
  else if (level =? 9)%Z then
    if decide (1 < nblocks) then
      [("chunks", "median"); ("slices", "median"); ("chunks", "median");
       ("chunks", "start"); ("chunks", "stop")]
    else [("chunks", "median"); ("chunks", "start"); ("chunks", "stop")]
  else [].

(** Run the phases in order; a phase whose termination test holds ends
    the run. *)
Fixpoint run_phases (phases : list (string * string)) (s : Index T C)
    : result (Index T C) :=
  match phases with
  | [] => Ok s
  | (what, mode) :: phases' =>
      swap_or_break what (Some mode) (run_phases phases') s
  end.

(** [optimize] as the level table describes it. *)
Definition optimize_by_plan (phases : list (string * string)) (verbose_ : bool)
    (s : Index T C) : result (Index T C) :=
  let s := set_last_tover (Some float_0) (set_verbose (Some verbose_) s) in
  nslices_ ← nslices s;
  if decide (nslices_ <= 1) then Ok s
  else
    _ ← (if verbose_ then compute_overlaps s else Ok (0, [], float_0));
    match phases with
    | [] => Ok s
    | _ =>
        '(s, stop) ← swap "create" None s;
        if (stop : bool) then cleanup_temps s
        else
          s ← run_phases phases s;
          s ← cleanup_temps s;
          Ok (set_dirtycache true s)
    end.
End Invariants.

(** ** Notions used to state further properties of the frontier *)

(** The number that a byte string denotes when read as big-endian digits
    in base 256; the order of strings of one length is the order of these
    numbers. *)
Definition be_value (s : list byte) : Z :=
  fold_left (fun acc c => acc * 256 + ord c) s 0.

(** [x] right-padded with [\x00] up to [itemsize] bytes (unchanged when it
    is that long already). *)
Definition pad_00 (x : list byte) (itemsize : Z) : list byte :=
  x ++ str_repeat byte_00 (itemsize - Z.of_nat (length x)).

(** The same number read from the reversed string, which is the list
    that the loops of [StringNextAfter] walk through. *)
Fixpoint le_value (l : list byte) : Z :=
  match l with
  | [] => 0
  | c :: l' => ord c + 256 * le_value l'
  end.

(** The comparison [x op a] that an operator name of a query stands for. *)
Definition py_op (op : string) (x a : pyval) : bool :=
  if String.eqb op "lt" then py_lt x a
  else if String.eqb op "le" then py_le x a
  else if String.eqb op "eq" then py_eq x a
  else if String.eqb op "ge" then py_ge x a
  else if String.eqb op "gt" then py_gt x a
  else false.

(** [lo <= x <= hi] for the closed interval [(lo, hi)] that
    [getLookupRange] returns; no value is in the empty tuple. *)
Definition in_range (r : option (pyval * pyval)) (x : pyval) : bool :=
  match r with
  | Some (lo, hi) => py_le lo x && py_le x hi
  | None => false
  end.

(** ** Notions used to state further properties of the index *)

Section IndexExtras.
Local Open Scope nat_scope.
Context {T C : Type} {env : IndexEnv T C}.

(** *** [__init__] and [_g_postInitHook] of an existing index

    The branch [if not self._v_new] of [_g_postInitHook]: the object is
    set up from what is on disk, which is the part of the state [disk]
    that lives in the file (the arrays, [sortedLR], [indicesLR] and the
    attributes of the [sorted] array).  [__init__] has set [dirtycache];
    [starts], [lengths], the limits cache, [verbose] and [last_tover] are
    not assigned on this path ([starts] and [lengths] are read only after
    [restorecache], which the dirty flag forces before any search). *)
Definition Index_open (disk : Index T C) : result (Index T C) :=
  (* Set-up some variables from info on disk and return *)
  let sorted_ := sorted (node disk) in
  (* The number of elements is at the end of the indices array *)
  nelementsLR_ ← getlast (indicesLR disk);
  let nrows_ := length sorted_ in
  let nelements_ := nrows_ * slicesize disk + nelementsLR_ in
  let nrows_ := if decide (0 < nelementsLR_) then nrows_ + 1 else nrows_ in
  (* Get the bounds as a cache (this has to remain here!) *)
  nboundsLR ← (if decide (chunksize disk = 0) then Raise ZeroDivisionError
               else Ok ((Z.of_nat nelementsLR_ - 1) `div` Z.of_nat (chunksize disk))%Z);
  let nboundsLR := if (nboundsLR <? 0)%Z then 0%Z   (* correction for -1 bounds *)
                   else nboundsLR in
  let nboundsLR := (nboundsLR + 2)%Z in             (* bounds + begin + end *)
  (* All bounds values (+begin+end) are at the beginning of sortedLR *)
  Ok {| superblocksize := superblocksize disk; blocksize := blocksize disk;
        slicesize := slicesize disk; chunksize := chunksize disk;
        type_ := type_ disk; reord_opts := reord_opts disk;
        node := node disk;
        sortedLR := sortedLR disk; indicesLR := indicesLR disk;
        bebounds := getslice (sortedLR disk) 0 (Z.to_nat nboundsLR);
        nrows := nrows_; nelements := nelements_;
        nelementsLR := Some nelementsLR_;
        dirtycache := true; verbose := None; last_tover := None;
        tmp := None; starts := []; lengths := []; limboundscache := None;
        log := [] |}.

(** The sizes of the two last-row arrays, as [_g_postInitHook] creates
    them. *)
Definition lr_ok (s : Index T C) : Prop :=
  length (sortedLR s) = 2 + (slicesize s - 1) / chunksize s + slicesize s
  /\ length (indicesLR s) = slicesize s.
End IndexExtras.

Section IndexExtras2.
Local Open Scope nat_scope.
Context {T C : Type} {env : IndexEnv T C}.

(** The part of the state that belongs to the searcher and to the
    caller of [optimize]: the optimizer's steps leave it alone. *)
Definition opt_core (s : Index T C) :=
  (starts s, lengths s, limboundscache s, verbose s).
End IndexExtras2.

Section IndexExtras3.
Local Open Scope nat_scope.
Context {T C : Type} {env : IndexEnv T C}.

(** A property of the state that the steps of the optimizer keep. *)
Definition stable (Q : Index T C -> Prop) : Prop :=
  (forall s e, Q s -> Q (add_log e s))
  /\ (forall s t, Q s -> Q (set_last_tover t s))
  /\ (forall s b, Q s -> Q (set_dirtycache b s))
  /\ (forall s s', Q s -> create_temps s = Ok s' -> Q s')
  /\ (forall s s', Q s -> cleanup_temps s = Ok s' -> Q s')
  /\ (forall mode s s', Q s -> swap_chunks mode s = Ok s' -> Q s')
  /\ (forall mode s s', Q s -> swap_slices mode s = Ok s' -> Q s').
End IndexExtras3.

Section IndexExtras4.
Local Open Scope nat_scope.
Context {T C : Type} {env : IndexEnv T C}.

(** The complete slices as rows of (value, table row) pairs: the value
    [sorted[i][j]] with the number [indices[i][j]] of the table row it
    was read from. *)
Definition prows (a : Arrays T) : list (list (T * nat)) :=
  zip_with zip (sorted a) (indices a).

(** All the (value, table row) pairs of the complete slices. *)
Definition entries (a : Arrays T) : list (T * nat) := mjoin (prows a).

(** [sorted] and [indices] have the same number of rows, all of [w]
    elements. *)
Definition rows_ok (w : nat) (a : Arrays T) : Prop :=
  length (indices a) = length (sorted a)
  /\ Forall (fun r => length r = w) (sorted a)
  /\ Forall (fun r => length r = w) (indices a).

(** The shape of the slices of the index and of the temporaries. *)
Definition shape_ok (s : Index T C) : Prop :=
  rows_ok (slicesize s) (node s)
  /\ forall t, tmp s = Some t -> rows_ok (slicesize s) t.

(** A row of values in ascending order: no value is smaller than its
    predecessor. *)
Definition ascending (r : list T) : Prop :=
  Sorted (fun a b => val_ltb b a = false) r.

(** A row that is the result of sorting some row. *)
Definition sorted_row (r : list (T * nat)) : Prop :=
  exists b, r.*1 = sort_values val_ltb b.
End IndexExtras4.

(** The chunk that position [idx] of the bounds of a block refers to, as
    [swap_chunks] locates it: chunk [idx - ins*ncs] of the slice
    [ins + offset], where [ins = idx / ncs]. *)
Definition chunk_at {A : Type} (cs ncs offset : nat) (rows : list (list A))
    (idx : nat) : list A :=
  let ins := (idx / ncs)%nat in
  let inc := ((idx - ins * ncs) * cs)%nat in
  getslice (rows !!! (ins + offset)%nat) inc (inc + cs)%nat.

Section IndexExtras5.
Local Open Scope nat_scope.
Context {T C : Type} {env : IndexEnv T C}.

(** Every slice of [s] is one of the rows [L] or a row that has just
    been sorted. *)
Definition rows_from (L : list (list (T * nat))) (s : Index T C) : Prop :=
  Forall (fun r => r ∈ L \/ sorted_row r) (prows (node s)).

(** What the steps of the optimizer keep: the invariant of the index,
    its counters, the shape of the slices, the entries [E] and where the
    slices come from. *)
Definition moves (cs ncs : nat) (E : list (T * nat))
    (L : list (list (T * nat))) (s : Index T C) : Prop :=
  index_inv cs ncs s /\ counts_ok s /\ shape_ok s
  /\ entries (node s) ≡ₚ E /\ rows_from L s.

(** The states of an index that is only used through its public
    methods. *)
Inductive built : Index T C -> Prop :=
  | built_new sbs bs ss cs ty ro s :
      sizes_ok sbs bs ss cs -> Index_new sbs bs ss cs ty ro = Ok s -> built s
  | built_append s arr s' :
      built s -> append arr s = Ok s' -> built s'
  | built_appendLastRow s arr tnrows s' :
      built s -> appendLastRow arr tnrows s = Ok s' -> built s'
  | built_optimize s level v s' :
      built s -> optimize level v s = Ok s' -> built s'
  | built_search s item n s' :
      built s -> search item s = Ok (n, s') -> built s'.
End IndexExtras5.

(** * Properties of the numeric frontier and of the range translation *)

Section FrontierFacts.
Context {P : Platform}.

Lemma str_in_2 (x a b : string) :
  str_in x [a; b] = true -> x = a \/ x = b.
Proof.
  unfold str_in; simpl. rewrite orb_false_r, orb_true_iff.
  intros [E | E]; apply String.eqb_eq in E; auto.
Qed.

Lemma py_le_not_gt (a b : pyval) : py_le a b = true -> py_gt a b = false.
Proof.
  unfold py_le, py_gt. destruct (py_cmp a b) as [[]|]; congruence.
Qed.

Lemma int_value_int_result (l : bool) (z : Z) :
  int_value (int_result l z) = Some z.
Proof.
  unfold int_result. destruct l; [reflexivity|].
  destruct (fits_int z); reflexivity.
Qed.

Lemma nextafter_int (x d : Z) (dt : dtype) (isz : Z) :
  str_in (kind dt) ["i"; "u"] = true -> d = 1 \/ d = -1 ->
  nextafter (PInt x) d dt isz = Ok (int_result false (x + d)).
Proof.
  intros Hk Hd. unfold nextafter.
  assert (HS : String.eqb (kind dt) "S" = false).
  { apply str_in_2 in Hk as [-> | ->]; reflexivity. }
  rewrite HS, Hk. destruct Hd as [-> | ->]; reflexivity.
Qed.
End FrontierFacts.

(** C1. [getLookupRange] follows the translation table: one operator
    gives [(-inf, nextafter(a,-1))], [(-inf, a)], [(nextafter(a,+1), +inf)],
    [(a, +inf)] or [(a, a)]; two operators with [lower <= upper] give the
    pair whose lower end is [nextafter(lower,+1)] exactly for [gt] and whose
    upper end is [nextafter(upper,-1)] exactly for [lt].  The equations are
    in the error monad: the ends are the values returned by [infType] and
    [nextafter], evaluated from left to right, and an exception of either
    is the exception of [getLookupRange]. *)
Theorem getLookupRange_table {P : Platform} (dt : dtype) :
  let isz := itemsize dt in
  (forall a, getLookupRange dt ["lt"] [a] =
     lo ← infType dt isz (-1); hi ← nextafter a (-1) dt isz; Ok (Some (lo, hi)))
  /\ (forall a, getLookupRange dt ["le"] [a] =
     lo ← infType dt isz (-1); Ok (Some (lo, a)))
  /\ (forall a, getLookupRange dt ["gt"] [a] =
     lo ← nextafter a 1 dt isz; hi ← infType dt isz 1; Ok (Some (lo, hi)))
  /\ (forall a, getLookupRange dt ["ge"] [a] =
     hi ← infType dt isz 1; Ok (Some (a, hi)))
  /\ (forall a, getLookupRange dt ["eq"] [a] = Ok (Some (a, a)))
  /\ (forall op_lo op_hi lower upper,
        str_in op_lo ["gt"; "ge"] = true ->
        str_in op_hi ["lt"; "le"] = true ->
        py_le lower upper = true ->
        getLookupRange dt [op_lo; op_hi] [lower; upper] =
          lo ← (if String.eqb op_lo "gt" then nextafter lower 1 dt isz
                else Ok lower);
          hi ← (if String.eqb op_hi "lt" then nextafter upper (-1) dt isz
                else Ok upper);
          Ok (Some (lo, hi))).
Proof.
  intros isz. repeat split; try reflexivity.
  intros op_lo op_hi lower upper Hlo Hhi Hle.
  apply py_le_not_gt in Hle.
  unfold getLookupRange; cbn [length Z_in existsb assert mbind result_bind].
  simpl (Z.of_nat _ =? _). cbn [orb].
  rewrite Hlo, Hhi; cbn [andb assert]. rewrite Hle.
  apply str_in_2 in Hlo as [-> | ->]; apply str_in_2 in Hhi as [-> | ->];
    cbn [String.eqb Ascii.eqb Bool.eqb andb]; fold isz.
  - reflexivity.
  - destruct (nextafter lower 1 dt isz); reflexivity.
  - reflexivity.
  - reflexivity.
Qed.

Lemma getLookupRange_table_witness :
  py_le (PInt 3) (PInt 7) = true /\
  getLookupRange (P := LP64) dtype_int64 ["gt"; "lt"] [PInt 3; PInt 7]
    = Ok (Some (PInt 4, PInt 6)).
Proof.
  split; [reflexivity|].
  rewrite (proj2 (proj2 (proj2 (proj2 (proj2
             (getLookupRange_table (P := LP64) dtype_int64)))))
             "gt" "lt" (PInt 3) (PInt 7) eq_refl eq_refl eq_refl).
  reflexivity.
Defined.

(** C8. A two-sided query whose lower limit is greater than its upper
    limit yields the empty tuple and no exception; the only exception of
    the two-sided case before the limits are looked at is the assertion on
    a malformed pair of operators. *)
Theorem getLookupRange_empty {P : Platform} (dt : dtype)
    (op_lo op_hi : string) (a b : pyval) :
  (str_in op_lo ["gt"; "ge"] = true ->
   str_in op_hi ["lt"; "le"] = true ->
   py_gt a b = true ->
   getLookupRange dt [op_lo; op_hi] [a; b] = Ok None)
  /\ (str_in op_lo ["gt"; "ge"] && str_in op_hi ["lt"; "le"] = false ->
      getLookupRange dt [op_lo; op_hi] [a; b] = Raise AssertionError).
Proof.
  split.
  - intros Hlo Hhi Hgt. unfold getLookupRange.
    cbn [length Z_in existsb assert mbind result_bind].
    simpl (Z.of_nat _ =? _). cbn [orb].
    rewrite Hlo, Hhi; cbn [andb assert]. rewrite Hgt. reflexivity.
  - intros Hbad. unfold getLookupRange.
    cbn [length Z_in existsb assert mbind result_bind].
    simpl (Z.of_nat _ =? _). cbn [orb].
    rewrite Hbad. reflexivity.
Qed.

Lemma getLookupRange_empty_witness :
  getLookupRange (P := LP64) dtype_int8 ["ge"; "lt"] [PInt 8; PInt 7] = Ok None
  /\ getLookupRange (P := LP64) dtype_int8 ["lt"; "gt"] [PInt 8; PInt 7]
     = Raise AssertionError.
Proof.
  split.
  - apply (proj1 (getLookupRange_empty (P := LP64) dtype_int8
                    "ge" "lt" (PInt 8) (PInt 7))); reflexivity.
  - apply (proj2 (getLookupRange_empty (P := LP64) dtype_int8
                    "lt" "gt" (PInt 8) (PInt 7))); reflexivity.
Defined.

(** C3, as the code has it.  On an integer dtype and a Python [int] [x],
    [nextafter] returns [x + 1] upward and [x - 1] downward, whatever the
    bounds of the dtype: there is no saturation. *)
Theorem nextafter_int_no_saturation {P : Platform} (dt : dtype) (isz x : Z) :
  str_in (kind dt) ["i"; "u"] = true ->
  (exists up, nextafter (PInt x) 1 dt isz = Ok up /\ int_value up = Some (x + 1))
  /\ (exists down, nextafter (PInt x) (-1) dt isz = Ok down
                   /\ int_value down = Some (x - 1)).
Proof.
  intros Hk. split; eexists; (split; [apply nextafter_int; auto |]);
    apply int_value_int_result.
Qed.

Lemma nextafter_int_no_saturation_witness :
  (exists up, nextafter (P := LP64) (PInt 5) 1 dtype_int8 1 = Ok up
              /\ int_value up = Some 6)
  /\ (exists down, nextafter (P := LP64) (PInt 5) (-1) dtype_int8 1 = Ok down
                   /\ int_value down = Some 4).
Proof.
  apply (nextafter_int_no_saturation (P := LP64) dtype_int8 1 5). reflexivity.
Defined.

(** C3 as stated fails: [127] is the maximum of [int8] (it is what
    [infType] returns), and [nextafter] moves past it to [128]; likewise
    below the minimum [-128]. *)
Lemma nextafter_int_saturation_counterexample :
  infType (P := LP64) dtype_int8 1 1 = Ok (PInt 127)
  /\ nextafter (P := LP64) (PInt 127) 1 dtype_int8 1 = Ok (PInt 128)
  /\ nextafter (P := LP64) (PInt 127) 1 dtype_int8 1 <> Ok (PInt 127)
  /\ infType (P := LP64) dtype_int8 1 (-1) = Ok (PInt (-128))
  /\ nextafter (P := LP64) (PInt (-128)) (-1) dtype_int8 1 = Ok (PInt (-129))
  /\ nextafter (P := LP64) (PInt (-128)) (-1) dtype_int8 1 <> Ok (PInt (-128)).
Proof. repeat split; try reflexivity; vm_compute; discriminate. Qed.

(** C4 at the saturation points.  The guard of [StringNextAfter] compares
    a list with a string and never holds, so the carry runs through the
    whole string: the successor of [\xff\xff] is [\x00\x00] and the
    predecessor of [\x00\x00] is [\xff\xff]. *)
Theorem StringNextAfter_wraps_around :
  nextafter (P := LP64) (PStr [xff; xff]) 1 dtype_S2 2 = Ok (PStr [x00; x00])
  /\ nextafter (P := LP64) (PStr [x00; x00]) (-1) dtype_S2 2 = Ok (PStr [xff; xff]).
Proof. split; reflexivity. Qed.

(** C5 on [float64].  [nextafter] hands [x + 1] to [PyNextAfter] as the
    direction; at [2.0**53] the sum rounds back to [x] and [x] itself is
    returned although it is finite and far from the largest double.  The
    round trip fails just below [1.0]: the successor of [1 - 2**-53] is
    [1.0], whose computed predecessor is [1 - 2**-52]. *)
Theorem nextafter_float64_stuck_and_round_trip :
  nextafter (P := LP64) (PFloat float_2p53) 1 dtype_float64 8
    = Ok (PFloat float_2p53)
  /\ py_gt (PFloat float_2p53) (PFloat float_2p53) = false
  /\ py_lt (PFloat float_2p53) (PFloat maxFloat) = true
  /\ nextafter (P := LP64) (PFloat float_below_1) 1 dtype_float64 8
     = Ok (PFloat float_1)
  /\ nextafter (P := LP64) (PFloat float_1) (-1) dtype_float64 8
     = Ok (PFloat float_below_below_1)
  /\ py_eq (PFloat float_below_below_1) (PFloat float_below_1) = false.
Proof. repeat split; vm_compute; reflexivity. Qed.

(** * Facts about the error monad and the array operations *)

Lemma bind_Ok {A B : Type} (m : result A) (f : A -> result B) (b : B) :
  m ≫= f = Ok b <-> exists a, m = Ok a /\ f a = Ok b.
Proof.
  destruct m as [a|e]; simpl.
  - split; [eauto | intros (a' & [= <-] & Hf); exact Hf].
  - split; [discriminate | intros (a' & [=] & _)].
Qed.

Lemma assert_Ok (b : bool) (u : unit) : assert b = Ok u -> b = true.
Proof. destruct b; [reflexivity | discriminate]. Qed.

(** Decompose a successful run of a chain of binds found in [H]. *)
Ltac inv_bind H :=
  repeat match type of H with
  | (_ ≫= _) = Ok _ =>
      let x := fresh "x" in
      let Hx := fresh "Hx" in
      apply bind_Ok in H as (x & Hx & H)
  | (let '(_, _) := ?p in _) = Ok _ => destruct p
  | (if ?c then _ else _) = Ok _ => fail
  | Raise _ = Ok _ => discriminate H
  end.

(** Reduce the projections of updated states. *)
Ltac simpl_state :=
  cbn [set_sorted set_indices set_bounds set_abounds set_zbounds set_mbounds
       set_ranges set_mranges set_node set_sortedLR set_indicesLR set_bebounds
       set_nrows set_nelements set_nelementsLR set_dirtycache set_verbose
       set_last_tover set_tmp set_starts set_lengths set_limboundscache
       set_log add_log
       superblocksize blocksize slicesize chunksize type_ reord_opts node
       sortedLR indicesLR bebounds nrows nelements nelementsLR dirtycache
       verbose last_tover tmp starts lengths limboundscache log
       sorted indices bounds abounds zbounds mbounds ranges mranges] in *.

Section ArrayFacts.
Local Open Scope nat_scope.
Context {A : Type}.
Implicit Types (l v : list A) (x : A).

Lemma getitem_Ok l i x : getitem l i = Ok x <-> l !! i = Some x.
Proof. unfold getitem. destruct (l !! i); split; congruence. Qed.

Lemma getlast_Ok l x : getlast l = Ok x <-> last l = Some x.
Proof. unfold getlast. destruct (last l); split; congruence. Qed.

Lemma setitem_Ok l i x l' :
  setitem l i x = Ok l' -> i < length l /\ l' = <[i := x]> l.
Proof. unfold setitem. case_decide; [|discriminate]. intros [= <-]. auto. Qed.

Lemma py_div_Ok (a b q : nat) : py_div a b = Ok q -> b <> 0 /\ q = a / b.
Proof. unfold py_div. case_decide; [discriminate|]. intros [= <-]. auto. Qed.

Lemma stride_Ok l start step v :
  stride l start step = Ok v ->
  step <> 0 /\ v = stride_from l start step (length l).
Proof. unfold stride. case_decide; [discriminate|]. intros [= <-]. auto. Qed.

Lemma lookup_stride_from_lt l start step fuel j :
  j < fuel -> stride_from l start step fuel !! j = l !! (start + j * step).
Proof.
  revert start j. induction fuel as [|fuel IH]; intros start j Hj; [lia|].
  simpl. destruct (l !! start) as [x|] eqn:Hx.
  - destruct j as [|j]; simpl.
    + rewrite Nat.add_0_r. by rewrite Hx.
    + rewrite IH by lia. f_equal. lia.
  - simpl. symmetry. apply lookup_ge_None. apply lookup_ge_None in Hx. lia.
Qed.

Lemma length_stride_from_le l start step fuel :
  length (stride_from l start step fuel) <= fuel.
Proof.
  revert start. induction fuel as [|fuel IH]; intros start; simpl; [lia|].
  destruct (l !! start); simpl; [specialize (IH (start + step))|]; lia.
Qed.

(** [l[start::step][j]] is [l[start + j*step]]. *)
Lemma lookup_stride_from l start step j :
  0 < step ->
  stride_from l start step (length l) !! j = l !! (start + j * step).
Proof.
  intros Hstep. destruct (decide (j < length l)) as [Hj|Hj].
  - by apply lookup_stride_from_lt.
  - transitivity (@None A).
    + apply lookup_ge_None.
      pose proof (length_stride_from_le l start step (length l)). lia.
    + symmetry. apply lookup_ge_None. nia.
Qed.

Lemma length_from_lookup l n :
  (forall j, j < n -> is_Some (l !! j)) -> l !! n = None -> length l = n.
Proof.
  intros Hlt Hn. apply lookup_ge_None in Hn.
  destruct (decide (length l = n)) as [|Hne]; [done|].
  assert (n = 0 \/ 0 < n) as [->|Hpos] by lia; [lia|].
  specialize (Hlt (n - 1)). destruct Hlt as [y Hy]; [lia|].
  apply lookup_lt_Some in Hy. lia.
Qed.

(** A slice of [ncs] chunks of size [cs]: [l[start::cs]] has one element
    per chunk when [start < cs], and [l[cs::cs]] one less. *)
Lemma length_stride_from_chunks l cs ncs start :
  0 < cs -> length l = ncs * cs -> start < cs ->
  length (stride_from l start cs (length l)) = ncs.
Proof.
  intros Hcs Hl Hstart. apply length_from_lookup.
  - intros j Hj. rewrite lookup_stride_from by done.
    apply lookup_lt_is_Some. nia.
  - rewrite lookup_stride_from by done. apply lookup_ge_None. nia.
Qed.

Lemma length_stride_from_bounds l cs ncs :
  0 < cs -> length l = ncs * cs ->
  length (stride_from l cs cs (length l)) = ncs - 1.
Proof.
  intros Hcs Hl. apply length_from_lookup.
  - intros j Hj. rewrite lookup_stride_from by done.
    apply lookup_lt_is_Some. nia.
  - rewrite lookup_stride_from by done. apply lookup_ge_None. nia.
Qed.

Lemma lookup_getslice l a b k :
  getslice l a b !! k = if decide (k < b - a) then l !! (a + k) else None.
Proof.
  unfold getslice. case_decide.
  - rewrite lookup_take_lt by done. apply lookup_drop.
  - apply lookup_take_ge. lia.
Qed.

Lemma length_getslice l a b :
  b <= length l -> length (getslice l a b) = b - a.
Proof. intros. unfold getslice. rewrite length_take, length_drop. lia. Qed.

Lemma length_getslice_le l a b : length (getslice l a b) <= b - a.
Proof. unfold getslice. rewrite length_take. lia. Qed.

Lemma setslice_Ok_length l start n v l' :
  setslice l start n v = Ok l' -> length l' = length l.
Proof.
  unfold setslice. case_decide as Hv.
  - intros [= <-]. rewrite !length_app, length_take, length_drop. lia.
  - destruct v as [|x [|? ?]]; try discriminate. intros [= <-].
    rewrite !length_app, length_take, length_replicate, length_drop. lia.
Qed.

(** Inside the array and with a value of the right size, a slice
    assignment replaces exactly the addressed segment. *)
Lemma setslice_Ok_exact l start n v l' :
  setslice l start n v = Ok l' -> start + n <= length l -> length v = n ->
  l' = take start l ++ v ++ drop (start + n) l.
Proof.
  unfold setslice. intros H Hin Hv.
  replace (Nat.min (start + n) (length l) - start) with n in H by lia.
  case_decide; [by injection H as <- | lia].
Qed.

Lemma lookup_setslice_exact l start v k :
  start + length v <= length l ->
  (take start l ++ v ++ drop (start + length v) l) !! k =
    if decide (start <= k < start + length v) then v !! (k - start)
    else l !! k.
Proof.
  intros Hin. case_decide as Hk.
  - rewrite lookup_app_r by (rewrite length_take; lia).
    rewrite length_take. rewrite lookup_app_l by lia. f_equal. lia.
  - destruct (decide (k < start)).
    + rewrite lookup_app_l by (rewrite length_take; lia).
      by rewrite lookup_take_lt.
    + rewrite lookup_app_r by (rewrite length_take; lia).
      rewrite length_take. rewrite lookup_app_r by lia.
      rewrite lookup_drop. f_equal. lia.
Qed.

Lemma getslice_setslice_same l start v :
  start + length v <= length l ->
  getslice (take start l ++ v ++ drop (start + length v) l)
           start (start + length v) = v.
Proof.
  intros Hin. apply list_eq. intros k.
  rewrite lookup_getslice, lookup_setslice_exact by done.
  case_decide.
  - rewrite decide_True by lia. f_equal. lia.
  - symmetry. apply lookup_ge_None. lia.
Qed.

Lemma getslice_setslice_other l start v a b :
  start + length v <= length l ->
  b <= start \/ start + length v <= a ->
  getslice (take start l ++ v ++ drop (start + length v) l) a b
  = getslice l a b.
Proof.
  intros Hin Hdisj. apply list_eq. intros k.
  rewrite !lookup_getslice. case_decide; [|done].
  rewrite lookup_setslice_exact by done. rewrite decide_False by lia. done.
Qed.

Lemma getslice_seg_same l start n v :
  length v = n -> start + n <= length l ->
  getslice (take start l ++ v ++ drop (start + n) l) start (start + n) = v.
Proof. intros <- ?. by apply getslice_setslice_same. Qed.

Lemma getslice_seg_other l start n v a b :
  length v = n -> start + n <= length l ->
  b <= start \/ start + n <= a ->
  getslice (take start l ++ v ++ drop (start + n) l) a b = getslice l a b.
Proof. intros <- ? ?. by apply getslice_setslice_other. Qed.

Lemma length_seg l start n v :
  length v = n -> start + n <= length l ->
  length (take start l ++ v ++ drop (start + n) l) = length l.
Proof. intros. rewrite !length_app, length_take, length_drop. lia. Qed.

Lemma getslice_app_l l v a b :
  b <= length l -> getslice (l ++ v) a b = getslice l a b.
Proof.
  intros Hb. apply list_eq. intros k. rewrite !lookup_getslice.
  case_decide; [|done]. apply lookup_app_l. lia.
Qed.

Lemma getslice_app_r l v :
  getslice (l ++ v) (length l) (length l + length v) = v.
Proof.
  unfold getslice. rewrite drop_app_length.
  replace (length l + length v - length l) with (length v) by lia.
  apply firstn_all.
Qed.

Lemma getslice_app_r_at l v a n :
  a = length l -> n = length v -> getslice (l ++ v) a (a + n) = v.
Proof. intros -> ->. apply getslice_app_r. Qed.

Lemma lookup_snoc_at l x n : n = length l -> (l ++ [x]) !! n = Some x.
Proof. intros ->. by apply list_lookup_middle. Qed.
End ArrayFacts.

Lemma append_row_Ok {A : Type} (w : nat) (rows : list (list A))
    (row : list A) (rows' : list (list A)) :
  append_row w rows row = Ok rows' -> length row = w /\ rows' = rows ++ [row].
Proof. unfold append_row. case_decide; [|discriminate]. intros [= <-]. auto. Qed.

(** Read the successful reads found in the context. *)
Ltac inv_reads :=
  repeat match goal with
  | H : append_row _ _ _ = Ok _ |- _ => apply append_row_Ok in H as [? ->]
  | H : stride _ _ _ = Ok _ |- _ => apply stride_Ok in H as [? ->]
  | H : getitem _ _ = Ok _ |- _ => apply getitem_Ok in H
  | H : getlast _ = Ok _ |- _ => apply getlast_Ok in H
  | H : py_div _ _ = Ok _ |- _ => apply py_div_Ok in H as [? ->]
  | H : assert _ = Ok _ |- _ => apply assert_Ok in H
  | H : Ok _ = Ok _ |- _ => injection H as <-
  end.

Lemma set_row_Ok {A : Type} (w : nat) (rows : list (list A)) (i : nat)
    (row : list A) (rows' : list (list A)) :
  set_row w rows i row = Ok rows' ->
  (i < length rows)%nat /\
  exists row', length row' = w /\ rows' = <[i := row']> rows
               /\ (length row = w -> row' = row).
Proof.
  unfold set_row. case_decide as Hi; [|discriminate]. case_decide as Hw.
  - intros [= <-]. split; [done|]. exists row. auto.
  - destruct row as [|x [|? ?]]; try discriminate. intros [= <-].
    split; [done|]. exists (replicate w x).
    rewrite length_replicate. split_and!; [done..|]. intros. done.
Qed.



(** * Facts about [argsort] *)

Section SortFacts.
Local Open Scope nat_scope.
Context {T : Type} (ltb : T -> T -> bool).

Lemma insert_pair_Permutation (x : T * nat) (l : list (T * nat)) :
  insert_pair ltb x l ≡ₚ x :: l.
Proof.
  induction l as [|y l IH]; simpl; [done|].
  destruct (ltb y.1 x.1); [|done].
  rewrite IH. apply Permutation_swap.
Qed.

Lemma sort_pairs_Permutation (l : list (T * nat)) : sort_pairs ltb l ≡ₚ l.
Proof.
  induction l as [|x l IH]; simpl; [done|].
  by rewrite insert_pair_Permutation, IH.
Qed.

Lemma zip_seq_lookup (arr : list T) (start : nat) :
  Forall (fun p : T * nat => start <= p.2 /\ arr !! (p.2 - start) = Some p.1)
         (zip arr (seq start (length arr))).
Proof.
  revert start. induction arr as [|x arr IH]; intros start; simpl; [done|].
  constructor.
  - simpl. split; [lia|]. by rewrite Nat.sub_diag.
  - eapply Forall_impl; [apply (IH (S start))|].
    intros [v i] [Hle Hv]; simpl in *. split; [lia|].
    replace (i - start) with (S (i - S start)) by lia. done.
Qed.

Lemma take_idx_pairs (arr : list T) (ps : list (T * nat)) :
  Forall (fun p : T * nat => arr !! p.2 = Some p.1) ps ->
  take_idx arr ps.*2 = Ok ps.*1.
Proof.
  induction 1 as [|[v i] ps Hp _ IH]; [done|].
  cbn [fmap list_fmap take_idx fst snd] in *.
  unfold getitem. rewrite Hp. cbn [mbind result_bind].
  destruct (take_idx arr ps.*2); [|discriminate]. by injection IH as ->.
Qed.

(** Fancy indexing by the result of [argsort] succeeds and gives the
    values in sorted order. *)
Lemma take_idx_argsort (arr : list T) :
  take_idx arr (argsort ltb arr) = Ok (sort_values ltb arr).
Proof.
  unfold argsort, sort_values. apply take_idx_pairs.
  rewrite sort_pairs_Permutation.
  eapply Forall_impl; [apply (zip_seq_lookup arr 0)|].
  intros [v i] [_ Hv]; simpl in *. by rewrite Nat.sub_0_r in Hv.
Qed.

Lemma sort_values_Permutation (arr : list T) : sort_values ltb arr ≡ₚ arr.
Proof.
  unfold sort_values. rewrite sort_pairs_Permutation.
  rewrite fst_zip; [done|]. by rewrite length_seq.
Qed.

Lemma length_sort_values (arr : list T) :
  length (sort_values ltb arr) = length arr.
Proof. by rewrite sort_values_Permutation. Qed.

Lemma length_argsort (arr : list T) : length (argsort ltb arr) = length arr.
Proof.
  unfold argsort. rewrite length_fmap, sort_pairs_Permutation.
  rewrite length_zip_with, length_seq. lia.
Qed.

Lemma argsort_Permutation (arr : list T) :
  argsort ltb arr ≡ₚ seq 0 (length arr).
Proof.
  unfold argsort. rewrite sort_pairs_Permutation.
  rewrite snd_zip; [done|]. by rewrite length_seq.
Qed.

(** When [<] is asymmetric the result is in ascending order: no element
    is smaller than its predecessor. *)
Section Sorted.
Hypothesis ltb_asym : forall a b, ltb a b = true -> ltb b a = false.

Local Abbreviation le_key := (le_key ltb).

Lemma insert_pair_HdRel (y x : T * nat) (l : list (T * nat)) :
  le_key y x -> HdRel le_key y l -> HdRel le_key y (insert_pair ltb x l).
Proof.
  intros Hyx Hl. destruct l as [|z l]; simpl; [by constructor|].
  destruct (ltb z.1 x.1); constructor; [|done].
  by inversion Hl.
Qed.

Lemma insert_pair_Sorted (x : T * nat) (l : list (T * nat)) :
  Sorted le_key l -> Sorted le_key (insert_pair ltb x l).
Proof.
  induction 1 as [|y l Hl IH Hy]; simpl.
  - repeat constructor.
  - destruct (ltb y.1 x.1) eqn:Hyx.
    + constructor; [done|]. apply insert_pair_HdRel; [|done].
      unfold le_key. by apply ltb_asym.
    + repeat constructor; done.
Qed.

Lemma sort_pairs_Sorted (l : list (T * nat)) : Sorted le_key (sort_pairs ltb l).
Proof.
  induction l as [|x l IH]; simpl; [constructor|].
  by apply insert_pair_Sorted.
Qed.

Lemma Sorted_fmap_fst (l : list (T * nat)) :
  Sorted le_key l -> Sorted (fun a b => ltb b a = false) l.*1.
Proof.
  induction 1 as [|y l Hl IH Hy]; simpl; constructor; [done|].
  destruct Hy; simpl; constructor; done.
Qed.

Lemma sort_values_Sorted (arr : list T) :
  Sorted (fun a b => ltb b a = false) (sort_values ltb arr).
Proof. apply Sorted_fmap_fst, sort_pairs_Sorted. Qed.
End Sorted.
End SortFacts.

(** * Loop invariants *)

Lemma for_loop_ind {X S : Type} (P : S -> Prop) (xs : list X)
    (body : X -> S -> result (S * bool)) (s s' : S) :
  P s ->
  (forall x s1 s2 b, x ∈ xs -> P s1 -> body x s1 = Ok (s2, b) -> P s2) ->
  for_loop xs body s = Ok s' -> P s'.
Proof.
  revert s. induction xs as [|x xs IH]; intros s Hs Hbody H; simpl in H.
  - by injection H as <-.
  - apply bind_Ok in H as ([s1 b] & Hx & H).
    assert (P s1) by (eapply Hbody; [left | done..]).
    destruct b.
    + by injection H as <-.
    + eapply IH; [done | | done].
      intros y ? ? ? Hy. apply Hbody. by right.
Qed.

Lemma for_each_ind {X S : Type} (P : S -> Prop) (xs : list X)
    (body : X -> S -> result S) (s s' : S) :
  P s ->
  (forall x s1 s2, x ∈ xs -> P s1 -> body x s1 = Ok s2 -> P s2) ->
  for_each xs body s = Ok s' -> P s'.
Proof.
  intros Hs Hbody. unfold for_each. apply for_loop_ind; [done|].
  intros x s1 s2 b Hx H1 H. apply bind_Ok in H as (s3 & H3 & [= <- <-]).
  eauto.
Qed.

(** A loop over [xrange] with an invariant that depends on the number of
    iterations done. *)
Lemma for_each_seq_ind {S : Type} (Q : nat -> S -> Prop) (a n : nat)
    (body : nat -> S -> result S) (s s' : S) :
  Q a s ->
  (forall k s1 s2, (a <= k < a + n)%nat -> Q k s1 -> body k s1 = Ok s2 ->
                   Q (Datatypes.S k) s2) ->
  for_each (seq a n) body s = Ok s' -> Q (a + n)%nat s'.
Proof.
  revert a s. induction n as [|n IH]; intros a s Hs Hbody H.
  - injection H as <-. by rewrite Nat.add_0_r.
  - unfold for_each in H; simpl in H.
    apply bind_Ok in H as ([s1 b] & Hx & H).
    apply bind_Ok in Hx as (s2 & H2 & [= <- <-]).
    replace (a + Datatypes.S n)%nat with (Datatypes.S a + n)%nat by lia.
    apply (IH (Datatypes.S a) s2); [ | | exact H].
    + eapply Hbody; [|done..]. lia.
    + intros k ? ? ?. apply Hbody. lia.
Qed.

Lemma elem_of_xrange (a b k : nat) : k ∈ xrange a b <-> (a <= k < b)%nat.
Proof. unfold xrange. rewrite elem_of_seq. lia. Qed.

(** * Writing one slice and the rows derived from it *)

Section SliceFacts.
Local Open Scope nat_scope.
Context {T : Type}.
Implicit Types (a : Arrays T) (r : list T).

Lemma div_chunks (ncs cs : nat) : 0 < cs -> ncs * cs / cs = ncs.
Proof. intros. by apply Nat.div_mul, Nat.neq_0_lt_0. Qed.

Lemma nbounds_inslice_chunks (ncs cs : nat) :
  0 < cs -> 0 < ncs -> (ncs * cs - 1) / cs = ncs - 1.
Proof.
  intros Hcs Hncs. symmetry. apply (Nat.div_unique _ _ _ (cs - 1)); nia.
Qed.

Lemma half_lt (cs : nat) : 0 < cs -> cs / 2 < cs.
Proof. intros. apply Nat.div_lt; lia. Qed.

(** The monadic writes of one slice [i]: the sorted row [r], its range,
    its chunk bounds, its start, stop and median bounds and its median
    range.  Slice [i] becomes consistent and the other slices are not
    touched. *)
Lemma write_bundle (cs ncs w : nat) a (i : nat) r (fl : T * T) (m : T)
    (sorted' bounds' : list (list T)) (ranges' : list (T * T))
    (abounds' zbounds' mbounds' mranges' : list T) (idx' : list (list nat)) :
  0 < cs -> 0 < ncs -> length r = ncs * cs -> w = ncs - 1 ->
  i * ncs + ncs <= length (abounds a) ->
  i * ncs + ncs <= length (zbounds a) ->
  i * ncs + ncs <= length (mbounds a) ->
  first_last r = Ok fl ->
  stride_from r (cs / 2) cs (length r) !! (ncs / 2) = Some m ->
  set_row (ncs * cs) (sorted a) i r = Ok sorted' ->
  setitem (ranges a) i fl = Ok ranges' ->
  set_row w (bounds a) i (stride_from r cs cs (length r)) = Ok bounds' ->
  setslice (abounds a) (i * ncs) ncs (stride_from r 0 cs (length r)) = Ok abounds' ->
  setslice (zbounds a) (i * ncs) ncs (stride_from r (cs - 1) cs (length r))
    = Ok zbounds' ->
  setslice (mbounds a) (i * ncs) ncs (stride_from r (cs / 2) cs (length r))
    = Ok mbounds' ->
  setitem (mranges a) i m = Ok mranges' ->
  let a' := mkArrays sorted' idx' bounds' abounds' zbounds' mbounds'
              ranges' mranges' in
  slice_ok cs ncs a' i r
  /\ (forall j r', j <> i -> slice_ok cs ncs a j r' -> slice_ok cs ncs a' j r')
  /\ length (sorted a') = length (sorted a)
  /\ length (ranges a') = length (ranges a)
  /\ length (bounds a') = length (bounds a)
  /\ length (mranges a') = length (mranges a)
  /\ length (abounds a') = length (abounds a)
  /\ length (zbounds a') = length (zbounds a)
  /\ length (mbounds a') = length (mbounds a)
  /\ (Forall (fun x => length x = ncs * cs) (sorted a) ->
      Forall (fun x => length x = ncs * cs) (sorted a')).
Proof.
  intros Hcs Hncs Hr -> Ha Hz Hm Hfl Hmed Hs Hrg Hb Hab Hzb Hmb Hmr a'.
  subst a'.
  pose proof (half_lt cs Hcs) as Hhalf.
  apply set_row_Ok in Hs as (Hi & row' & _ & -> & Hrow).
  rewrite (Hrow Hr); clear Hrow row'.
  apply setitem_Ok in Hrg as (Hirg & ->).
  apply set_row_Ok in Hb as (Hib & row' & _ & -> & Hrow).
  rewrite (Hrow (length_stride_from_bounds r cs ncs Hcs Hr)); clear Hrow row'.
  apply setitem_Ok in Hmr as (Himr & ->).
  pose proof (length_stride_from_chunks r cs ncs 0 Hcs Hr Hcs) as La.
  pose proof (length_stride_from_chunks r cs ncs (cs - 1) Hcs Hr ltac:(lia)) as Lz.
  pose proof (length_stride_from_chunks r cs ncs (cs / 2) Hcs Hr Hhalf) as Lm.
  apply setslice_Ok_exact in Hab; [|lia..].
  apply setslice_Ok_exact in Hzb; [|lia..].
  apply setslice_Ok_exact in Hmb; [|lia..].
  cbn [sorted ranges bounds mranges abounds zbounds mbounds].
  split_and!.
  - unfold slice_ok. cbn [sorted ranges bounds mranges abounds zbounds mbounds].
    rewrite !list_lookup_insert_eq by done.
    split_and!; [done | done | eauto | done | | | | eauto].
    + rewrite Hab. by apply getslice_seg_same.
    + rewrite Hzb. by apply getslice_seg_same.
    + rewrite Hmb. by apply getslice_seg_same.
  - intros j r' Hj (Hs & Hlen & Hf & Hbd & Hja & Hjz & Hjm & Hmg).
    unfold slice_ok. cbn [sorted ranges bounds mranges abounds zbounds mbounds].
    rewrite !list_lookup_insert_ne by done.
    assert (j * ncs + ncs <= i * ncs \/ i * ncs + ncs <= j * ncs) by nia.
    split_and!; [done | done | done | done | | | | done].
    + rewrite Hab, <- Hja. apply getslice_seg_other; [done | lia..].
    + rewrite Hzb, <- Hjz. apply getslice_seg_other; [done | lia..].
    + rewrite Hmb, <- Hjm. apply getslice_seg_other; [done | lia..].
  - by rewrite length_insert.
  - by rewrite length_insert.
  - by rewrite length_insert.
  - by rewrite length_insert.
  - rewrite Hab. by apply length_seg.
  - rewrite Hzb. by apply length_seg.
  - rewrite Hmb. by apply length_seg.
  - intros HF. apply Forall_insert; done.
Qed.

(** Consistent arrays stay consistent when one slice is rewritten. *)
Lemma arrays_ok_write (cs ncs : nat) a a' (i : nat) r :
  arrays_ok cs ncs a ->
  slice_ok cs ncs a' i r ->
  (forall j r', j <> i -> slice_ok cs ncs a j r' -> slice_ok cs ncs a' j r') ->
  length (sorted a') = length (sorted a) ->
  length (ranges a') = length (ranges a) ->
  length (bounds a') = length (bounds a) ->
  length (mranges a') = length (mranges a) ->
  length (abounds a') = length (abounds a) ->
  length (zbounds a') = length (zbounds a) ->
  length (mbounds a') = length (mbounds a) ->
  arrays_ok cs ncs a'.
Proof.
  intros [] Hi Hother Ls Lr Lb Lm La Lz Lmb.
  split; try congruence.
  intros j Hj. destruct (decide (j = i)) as [->|Hne]; [eauto|].
  destruct (ok_slices0 j) as [r' Hr']; [lia|]. eauto.
Qed.

(** What a consistent slice says about the reads of its parts. *)
Lemma slice_ok_rows (cs ncs : nat) a i r :
  slice_ok cs ncs a i r ->
  Forall (fun x => length x = ncs * cs) (sorted a) -> length r = ncs * cs.
Proof. by intros (_ & ? & _). Qed.

Lemma arrays_ok_rows (cs ncs : nat) a :
  arrays_ok cs ncs a -> Forall (fun x => length x = ncs * cs) (sorted a).
Proof.
  intros [_ _ _ _ _ _ Hs]. apply Forall_lookup. intros i r Hi.
  destruct (Hs i) as (r' & Hr' & Hl & _); [by eapply lookup_lt_Some|].
  congruence.
Qed.
End SliceFacts.

(** * The invariant of the index *)

Section IndexFacts.
Local Open Scope nat_scope.
Context {T C : Type} {env : IndexEnv T C}.
Implicit Types (s : Index T C) (a : Arrays T).

Lemma first_last_Ok (r : list T) (fl : T * T) :
  first_last r = Ok fl ->
  r !! 0 = Some fl.1 /\ r !! (length r - 1) = Some fl.2.
Proof.
  unfold first_last. intros H. inv_bind H. injection H as <-.
  apply getitem_Ok in Hx. apply getlast_Ok in Hx0.
  rewrite last_lookup in Hx0. split; [done|].
  by replace (length r - 1) with (pred (length r)) by lia.
Qed.

(** Normalise the sizes of the states in the context. *)
Ltac norm_sizes :=
  repeat match goal with
  | E : chunksize ?s = ?c |- _ => is_var c; progress (rewrite E in * )
  | E : slicesize ?s = ?n * ?c |- _ => is_var c; progress (rewrite E in * )
  end.

Lemma nchunkslice_inv (cs ncs : nat) s x :
  index_inv cs ncs s -> nchunkslice s = Ok x -> x = ncs.
Proof.
  intros (Hcs & Hncs & Ec & Es & _) H. unfold nchunkslice in H.
  apply py_div_Ok in H as [_ ->]. rewrite Es, Ec. by apply div_chunks.
Qed.

Lemma nchunkslice_Ok (cs ncs : nat) s :
  index_inv cs ncs s -> nchunkslice s = Ok ncs.
Proof.
  intros (Hcs & Hncs & Ec & Es & _). unfold nchunkslice, py_div.
  rewrite decide_False by lia. rewrite Es, Ec, div_chunks by done. done.
Qed.

Lemma nbounds_inslice_inv (cs ncs : nat) s w :
  index_inv cs ncs s -> nbounds_inslice s = Ok w -> w = ncs - 1.
Proof.
  intros (Hcs & Hncs & Ec & Es & _) H. unfold nbounds_inslice in H.
  apply py_div_Ok in H as [_ ->]. rewrite Es, Ec.
  by apply nbounds_inslice_chunks.
Qed.

(** The formulas of the data model follow from the invariant. *)
Lemma index_ok_formulas s : index_ok s -> formulas_hold s.
Proof.
  intros (cs & ncs & Hcs & Hncs & Ec & Es & Hok & _).
  unfold formulas_hold. rewrite Es, Ec, div_chunks by done. intros i r Hi.
  destruct (ok_slices _ _ _ Hok i) as (r' & Hr' & Hlen & (fl & Hfl & Hrg)
    & Hb & Ha & Hz & Hm & (m & Hmed & Hmr)); [by eapply lookup_lt_Some|].
  assert (r' = r) as -> by congruence. clear Hr'.
  pose proof (half_lt _ Hcs) as Hhalf.
  apply first_last_Ok in Hfl as [Hf Hl]. rewrite Hlen in Hl.
  split_and!.
  - congruence.
  - exists fl.1, fl.2. by destruct fl.
  - eexists. split_and!; [done | by apply length_stride_from_bounds |].
    intros k Hk. rewrite lookup_stride_from by done.
    replace (cs + k * cs) with ((k + 1) * cs) by lia.
    split; [|done]. apply lookup_lt_is_Some. nia.
  - intros j Hj.
    assert (forall (l v : list T) start,
              getslice l (i * ncs) (i * ncs + ncs) =
                stride_from r start cs (length r) ->
              l !! (i * ncs + j) = r !! (start + j * cs)) as Hget.
    { intros l v start Hg.
      rewrite <- lookup_stride_from by done. rewrite <- Hg.
      rewrite lookup_getslice. by rewrite decide_True by lia. }
    rewrite (Hget _ [] _ Ha), (Hget _ [] _ Hz), (Hget _ [] _ Hm).
    split_and!.
    + apply lookup_lt_is_Some. nia.
    + done.
    + f_equal. nia.
    + f_equal. lia.
  - by rewrite Hmr.
  - rewrite Hmr, <- Hmed, <- Hm, lookup_getslice.
    rewrite decide_True; [done|]. pose proof (Nat.div_lt ncs 2). lia.
Qed.

Lemma index_ok_new sbs bs ss cs ty ro s :
  sizes_ok sbs bs ss cs -> Index_new sbs bs ss cs ty ro = Ok s ->
  index_ok s /\ counts_ok s.
Proof.
  intros (Hcs & (ncs & Hncs & ->) & _) H. unfold Index_new in H. inv_bind H.
  injection H as <-. split.
  - exists cs, ncs. split_and!; simpl_state; [done.. | | by intros t [=]].
    split; try done. simpl_state. intros i Hi. simpl in Hi. lia.
  - unfold counts_ok. by simpl_state.
Qed.

(** [append] adds one consistent slice at the end. *)
Lemma arrays_ok_append (cs ncs : nat) a (r : list T) (fl : T * T) (m : T)
    (idx' : list (list nat)) :
  0 < cs -> 0 < ncs -> arrays_ok cs ncs a -> length r = ncs * cs ->
  first_last r = Ok fl ->
  stride_from r (cs / 2) cs (length r) !! (ncs / 2) = Some m ->
  arrays_ok cs ncs
    (mkArrays (sorted a ++ [r]) idx'
       (bounds a ++ [stride_from r cs cs (length r)])
       (abounds a ++ stride_from r 0 cs (length r))
       (zbounds a ++ stride_from r (cs - 1) cs (length r))
       (mbounds a ++ stride_from r (cs / 2) cs (length r))
       (ranges a ++ [fl]) (mranges a ++ [m])).
Proof.
  intros Hcs Hncs [Lr Lb Lm La Lz Lmb Hs] Hr Hfl Hmed.
  pose proof (half_lt cs Hcs) as Hhalf.
  pose proof (length_stride_from_chunks r cs ncs 0 Hcs Hr Hcs) as L0.
  pose proof (length_stride_from_chunks r cs ncs (cs - 1) Hcs Hr ltac:(lia)) as L1.
  pose proof (length_stride_from_chunks r cs ncs (cs / 2) Hcs Hr Hhalf) as L2.
  split; cbn [sorted ranges bounds mranges abounds zbounds mbounds];
    rewrite ?length_app; cbn [length]; try lia.
  intros i Hi. destruct (decide (i < length (sorted a))) as [Hlt|Hge].
  - destruct (Hs i Hlt) as (r' & Hr' & Hlen & (fl' & Hfl' & Hrg)
      & Hb & Ha & Hz & Hm & (m' & Hmed' & Hmr)).
    exists r'. unfold slice_ok.
    cbn [sorted ranges bounds mranges abounds zbounds mbounds].
    rewrite !lookup_app_l by lia. rewrite !getslice_app_l by nia.
    split_and!; eauto.
  - assert (i = length (sorted a)) as -> by lia.
    exists r. unfold slice_ok.
    cbn [sorted ranges bounds mranges abounds zbounds mbounds].
    rewrite !lookup_snoc_at by done.
    split_and!; [done | done | eauto | done | | | | eauto];
      apply getslice_app_r_at; lia.
Qed.

Lemma append_Ok (cs ncs : nat) arr s s' :
  index_inv cs ncs s -> append arr s = Ok s' ->
  index_inv cs ncs s'
  /\ length arr = slicesize s
  /\ sorted (node s') = sorted (node s) ++ [sort_values val_ltb arr]
  /\ nrows s' = length (sorted (node s)) + 1
  /\ nelements s' = (length (sorted (node s)) + 1) * slicesize s
  /\ nelementsLR s' = Some 0.
Proof.
  intros Hinv H. pose proof (nchunkslice_Ok _ _ _ Hinv) as Hn.
  destruct Hinv as (Hcs & Hncs & Ec & Es & Hok & Htmp).
  unfold append in H. rewrite take_idx_argsort in H.
  cbn [mbind result_bind] in H. rewrite Hn in H.
  unfold nbounds_inslice in H. inv_bind H. injection H as <-. inv_reads.
  match goal with H : length (sort_values _ _) = _ |- _ => rename H into Hlen end.
  rewrite length_sort_values in Hlen.
  assert (length (sort_values val_ltb arr) = ncs * cs) as Hr
    by (rewrite length_sort_values; lia).
  simpl_state. norm_sizes.
  split_and!; try done.
  - split_and!; simpl_state; try done. by apply arrays_ok_append.
  - rewrite length_app. simpl. lia.
  - rewrite length_app. simpl. lia.
Qed.

Lemma appendLastRow_Ok arr tnrows s s' :
  appendLastRow arr tnrows s = Ok s' ->
  node s' = node s /\ tmp s' = tmp s
  /\ slicesize s' = slicesize s /\ chunksize s' = chunksize s
  /\ 0 < length arr
  /\ nelementsLR s' = Some (length arr)
  /\ nrows s' = length (sorted (node s)) + 1
  /\ nelements s' = length (sorted (node s)) * slicesize s + length arr.
Proof.
  intros H. unfold appendLastRow in H. rewrite take_idx_argsort in H.
  cbn [mbind result_bind] in H. inv_bind H. injection H as <-.
  simpl_state. inv_reads.
  match goal with H : bool_decide _ = true |- _ =>
    apply bool_decide_eq_true in H as [? Hn] end.
  match goal with H : last (sort_values _ _) = Some _ |- _ =>
    apply last_Some in H as (l' & Hl') end.
  apply (f_equal length) in Hl'.
  rewrite length_sort_values, length_app in Hl'. simpl in Hl'.
  rewrite Hn. split_and!; try done. lia.
Qed.

(** *** The frame of the optimizer and of the searcher *)

Lemma same_frame_refl s : same_frame s s.
Proof. by repeat split. Qed.

Lemma same_frame_trans s1 s2 s3 :
  same_frame s1 s2 -> same_frame s2 s3 -> same_frame s1 s3.
Proof. unfold same_frame. intros ? ?. split_and!; destruct_and!; congruence. Qed.

Lemma same_frame_nslices s s' : same_frame s s' -> nslices s' = nslices s.
Proof. unfold same_frame, nslices. intros ?; destruct_and!. congruence. Qed.

Lemma same_frame_nblocks s s' : same_frame s s' -> nblocks s' = nblocks s.
Proof.
  unfold nblocks. intros (_ & Hb & _ & _ & _ & _ & _ & Hn & _).
  by rewrite Hb, Hn.
Qed.

Lemma same_frame_counts s s' : same_frame s s' -> counts_ok s -> counts_ok s'.
Proof.
  unfold same_frame, counts_ok. intros ?; destruct_and!.
  repeat match goal with H : _ s' = _ s |- _ => rewrite H end.
  match goal with H : length _ = length _ |- _ => rewrite H end. done.
Qed.

(** The invariant only depends on the sizes, the arrays and the
    temporaries. *)
Lemma index_inv_ext (cs ncs : nat) s s' :
  index_inv cs ncs s -> slicesize s' = slicesize s -> chunksize s' = chunksize s ->
  node s' = node s -> tmp s' = tmp s -> index_inv cs ncs s'.
Proof.
  unfold index_inv, tmp_ok. intros H Hss Hcs Hn Ht.
  by rewrite Hss, Hcs, Hn, Ht.
Qed.

(** *** The optimizer keeps the invariant *)

Ltac inv_sort :=
  repeat match goal with
  | H : take_idx ?b (argsort ?f ?b) = Ok _ |- _ =>
      rewrite take_idx_argsort in H; injection H as <-
  end.

(** Read an attribute that holds a value. *)
Ltac inv_attr :=
  repeat match goal with
  | H : attr ?a = Ok ?t |- _ =>
      let E := fresh "Eattr" in
      unfold attr in H; destruct a eqn:E; [|discriminate H];
      injection H as ->
  end.

Lemma same_frame_set_node s (a' : Arrays T) :
  length (sorted a') = length (sorted (node s)) ->
  same_frame s (set_node a' s).
Proof. intros. unfold same_frame. by simpl_state. Qed.

Lemma same_frame_set_tmp s (t : option (Arrays T)) : same_frame s (set_tmp t s).
Proof. unfold same_frame. by simpl_state. Qed.

(** Rewriting slice [i] of the index with a row and the rows derived
    from it keeps the invariant. *)
Lemma index_inv_write (cs ncs : nat) s (i : nat) (r : list T) (fl : T * T)
    (m : T) (sorted' bounds' : list (list T)) (ranges' : list (T * T))
    (abounds' zbounds' mbounds' mranges' : list T) (idx' : list (list nat)) :
  index_inv cs ncs s ->
  length r = ncs * cs ->
  first_last r = Ok fl ->
  stride_from r (cs / 2) cs (length r) !! (ncs / 2) = Some m ->
  set_row (ncs * cs) (sorted (node s)) i r = Ok sorted' ->
  setitem (ranges (node s)) i fl = Ok ranges' ->
  set_row (ncs - 1) (bounds (node s)) i (stride_from r cs cs (length r))
    = Ok bounds' ->
  setslice (abounds (node s)) (i * ncs) ncs (stride_from r 0 cs (length r))
    = Ok abounds' ->
  setslice (zbounds (node s)) (i * ncs) ncs (stride_from r (cs - 1) cs (length r))
    = Ok zbounds' ->
  setslice (mbounds (node s)) (i * ncs) ncs (stride_from r (cs / 2) cs (length r))
    = Ok mbounds' ->
  setitem (mranges (node s)) i m = Ok mranges' ->
  let s' := set_node (mkArrays sorted' idx' bounds' abounds' zbounds' mbounds'
                        ranges' mranges') s in
  index_inv cs ncs s' /\ same_frame s s' /\ tmp s' = tmp s.
Proof.
  intros (Hcs & Hncs & Ec & Es & Hok & Htmp) Hr Hfl Hm
    Hsorted Hranges Hbounds Ha Hz Hmb Hmr s'.
  pose proof (proj1 (set_row_Ok _ _ _ _ _ Hsorted)) as Hi.
  pose proof Hok as [Lr Lb Lm La Lz Lmb Hs].
  edestruct (write_bundle cs ncs (ncs - 1) (node s) i r fl m) with (idx' := idx')
    as (Hslice & Hother & Ls' & Lr' & Lb' & Lm' & La' & Lz' & Lmb' & _);
    [done | done | done | done | nia | nia | nia | done..| ].
  subst s'. split_and!.
  - split_and!; simpl_state; [done..| | done].
    eapply arrays_ok_write; [exact Hok | done..].
  - by apply same_frame_set_node.
  - done.
Qed.

Lemma reorder_slices_Ok (cs ncs : nat) mode nblock s s' :
  index_inv cs ncs s -> reorder_slices mode nblock s = Ok s' ->
  index_inv cs ncs s' /\ same_frame s s' /\ tmp s' = tmp s.
Proof.
  intros Hinv H. unfold reorder_slices in H. inv_bind H.
  match goal with H : nchunkslice s = Ok _ |- _ =>
    apply (nchunkslice_inv _ _ _ _ Hinv) in H as -> end.
  pose proof Hinv as (_ & _ & Ec & _). rewrite Ec in H.
  match goal with H : attr (tmp s) = Ok ?t |- _ =>
    assert (tmp s = Some t) as Et
      by (unfold attr in H; destruct (tmp s); [by injection H as ->|done]);
    clear H end.
  rewrite Et. revert H.
  apply (for_loop_ind (fun s1 =>
           index_inv cs ncs s1 /\ same_frame s s1 /\ tmp s1 = Some x)).
  { split_and!; [done | apply same_frame_refl | done]. }
  intros nslice s1 s2 b _ (Hinv1 & Hfr1 & Htmp1) Hbody.
  case_decide as Hns; [by injection Hbody as <- <-|].
  inv_bind Hbody. injection Hbody as <- <-. inv_sort. inv_reads.
  match goal with H : nbounds_inslice s1 = Ok _ |- _ =>
    apply (nbounds_inslice_inv _ _ _ _ Hinv1) in H as -> end.
  pose proof Hinv1 as (_ & _ & Ec1 & Es1 & _ & Ht1).
  norm_sizes.
  assert (length (sort_values val_ltb x0) = ncs * cs) as Hlen.
  { rewrite length_sort_values.
    destruct (Ht1 _ Htmp1) as [HF _].
    eapply (Forall_lookup_1 _ _ _ _ HF). eassumption. }
  edestruct (index_inv_write cs ncs s1 nslice (sort_values val_ltb x0))
    as (Hinv2 & Hfr2 & Htmp2); [done..|].
  split_and!; [exact Hinv2 | by eapply same_frame_trans | by rewrite Htmp2].
Qed.

Lemma index_inv_set_tmp_sorted (cs ncs : nat) s (t : Arrays T) (ns : nat)
    (row : list T) (row_i : list (list nat)) (ts' : list (list T)) :
  index_inv cs ncs s -> tmp s = Some t ->
  set_row (ncs * cs) (sorted t) ns row = Ok ts' ->
  let s' := set_tmp (Some (set_indices row_i (set_sorted ts' t))) s in
  index_inv cs ncs s' /\ same_frame s s'.
Proof.
  intros (Hcs & Hncs & Ec & Es & Hok & Htmp) Ht Hrow s'.
  apply set_row_Ok in Hrow as (_ & row' & Hlen & -> & _).
  destruct (Htmp t Ht) as (HF & Ha & Hz & Hm).
  subst s'. split.
  - split_and!; simpl_state; [done..|].
    intros t' [= <-]. simpl_state. split_and!; [|done..].
    by apply Forall_insert.
  - apply same_frame_set_tmp.
Qed.

Lemma swap_chunks_Ok (cs ncs : nat) mode s s' :
  index_inv cs ncs s -> swap_chunks mode s = Ok s' ->
  index_inv cs ncs s' /\ same_frame s s'.
Proof.
  intros Hinv H. unfold swap_chunks in H. inv_bind H.
  injection H as <-.
  match goal with H : for_loop _ _ _ = Ok _ |- _ => revert H end.
  apply (for_loop_ind (fun st : nat * list T * list nat * Index T C =>
           index_inv cs ncs st.2 /\ same_frame s st.2)).
  { split; [done | apply same_frame_refl]. }
  intros nblock [[[ncb2 ts] ti] s1] [[[ncb2' ts'] ti'] s2] b _.
  cbn [snd]. intros (Hinv1 & Hfr1) Hbody.
  inv_bind Hbody.
  case_decide; [by injection Hbody as <- <- <- <- <-|].
  inv_bind Hbody.
  case_decide; [by injection Hbody as <- <- <- <- <-|].
  inv_bind Hbody. injection Hbody as <- <- <- <- <-.
  match goal with H : for_each _ _ _ = Ok (_, _, ?s3) |- _ =>
    assert (index_inv cs ncs s3 /\ same_frame s1 s3) as [Hinv2 Hfr2];
    [revert H|] end.
  { apply (for_each_ind (fun st : list T * list nat * Index T C =>
             index_inv cs ncs st.2 /\ same_frame s1 st.2)).
    { split; [done | apply same_frame_refl]. }
    intros k [[ts1 ti1] s3] [[ts2 ti2] s4] _. cbn [snd].
    intros (Hinv3 & Hfr3) Hb.
    inv_bind Hb. injection Hb as <- <- <-.
    pose proof Hinv3 as (_ & _ & _ & Es3 & _). rewrite Es3 in *.
    inv_attr.
    match goal with H : set_row _ (sorted _) _ _ = Ok _ |- _ =>
      eapply (index_inv_set_tmp_sorted cs ncs s3) in H as [Hinv4 Hfr4];
      [|done..] end.
    split; [exact Hinv4 | by eapply same_frame_trans]. }
  match goal with H : reorder_slices _ _ _ = Ok _ |- _ =>
    apply (reorder_slices_Ok cs ncs) in H as (Hinv3 & Hfr3 & _); [|done] end.
  split; [done|]. eauto using same_frame_trans.
Qed.

Lemma create_temps_Ok (cs ncs : nat) s s' :
  index_inv cs ncs s -> create_temps s = Ok s' ->
  index_inv cs ncs s' /\ same_frame s s'.
Proof.
  intros (Hcs & Hncs & Ec & Es & Hok & Htmp) H.
  unfold create_temps in H. inv_bind H. injection H as <-. inv_reads.
  unfold nslices, nchunks in *. inv_reads. split.
  - split_and!; simpl_state; [done..|].
    intros t [= <-]. simpl_state. rewrite !length_replicate.
    rewrite Ec, Es.
    assert (nelements s / (ncs * cs) * ncs <= nelements s / cs) as Hle.
    { apply Nat.div_le_lower_bound; [lia|].
      pose proof (Nat.Div0.mul_div_le (nelements s) (ncs * cs)). nia. }
    split_and!; [|done..].
    apply Forall_replicate. by rewrite length_replicate.
  - apply same_frame_set_tmp.
Qed.

Lemma cleanup_temps_Ok (cs ncs : nat) s s' :
  index_inv cs ncs s -> cleanup_temps s = Ok s' ->
  index_inv cs ncs s' /\ same_frame s s'.
Proof.
  intros (Hcs & Hncs & Ec & Es & Hok & Htmp) H.
  unfold cleanup_temps in H. inv_bind H. injection H as <-. split.
  - split_and!; simpl_state; [done..|]. by intros t [=].
  - unfold same_frame. by simpl_state.
Qed.

(** Copying slice [p] of [A] (the sorted row and all the rows derived
    from it) to slice [q] of [B]. *)
Lemma copy_bundle (cs ncs w : nat) (A B : Arrays T) (p q : nat) (r : list T)
    (row rowb : list T) (rowfl : T * T) (rowm : T)
    (sorted' bounds' : list (list T)) (ranges' : list (T * T))
    (abounds' zbounds' mbounds' mranges' : list T) (idx' : list (list nat)) :
  0 < cs -> 0 < ncs -> w = ncs - 1 -> slice_ok cs ncs A p r ->
  q * ncs + ncs <= length (abounds B) ->
  q * ncs + ncs <= length (zbounds B) ->
  q * ncs + ncs <= length (mbounds B) ->
  getitem (sorted A) p = Ok row ->
  set_row (ncs * cs) (sorted B) q row = Ok sorted' ->
  getitem (ranges A) p = Ok rowfl ->
  setitem (ranges B) q rowfl = Ok ranges' ->
  getitem (mranges A) p = Ok rowm ->
  setitem (mranges B) q rowm = Ok mranges' ->
  getitem (bounds A) p = Ok rowb ->
  set_row w (bounds B) q rowb = Ok bounds' ->
  setslice (abounds B) (q * ncs) ncs (getslice (abounds A) (p * ncs) (p * ncs + ncs))
    = Ok abounds' ->
  setslice (zbounds B) (q * ncs) ncs (getslice (zbounds A) (p * ncs) (p * ncs + ncs))
    = Ok zbounds' ->
  setslice (mbounds B) (q * ncs) ncs (getslice (mbounds A) (p * ncs) (p * ncs + ncs))
    = Ok mbounds' ->
  let B' := mkArrays sorted' idx' bounds' abounds' zbounds' mbounds'
              ranges' mranges' in
  slice_ok cs ncs B' q r
  /\ (forall j r', j <> q -> slice_ok cs ncs B j r' -> slice_ok cs ncs B' j r')
  /\ length (sorted B') = length (sorted B)
  /\ length (ranges B') = length (ranges B)
  /\ length (bounds B') = length (bounds B)
  /\ length (mranges B') = length (mranges B)
  /\ length (abounds B') = length (abounds B)
  /\ length (zbounds B') = length (zbounds B)
  /\ length (mbounds B') = length (mbounds B)
  /\ (Forall (fun x => length x = ncs * cs) (sorted B) ->
      Forall (fun x => length x = ncs * cs) (sorted B')).
Proof.
  intros Hcs Hncs Hw (Hs & Hlen & (fl & Hfl & Hrg) & Hb & Ha & Hz & Hm
    & (m & Hmed & Hmr)) Ra Rz Rm Grow Srow Gfl Sfl Gm Sm Gb Sb Sa Sz Smb.
  apply getitem_Ok in Grow, Gfl, Gm, Gb.
  assert (row = r) as -> by congruence.
  assert (rowfl = fl) as -> by congruence.
  assert (rowm = m) as -> by congruence.
  assert (rowb = stride_from r cs cs (length r)) as -> by congruence.
  rewrite Ha in Sa. rewrite Hz in Sz. rewrite Hm in Smb.
  by eapply (write_bundle cs ncs w B q r fl m).
Qed.

(** Copying slice [p] of the index to slice [q] of the temporaries. *)
Lemma index_inv_stash (cs ncs : nat) s (t : Arrays T) (p q : nat) (r : list T)
    (row rowb : list T) (rowfl : T * T) (rowm : T)
    (sorted' bounds' : list (list T)) (ranges' : list (T * T))
    (abounds' zbounds' mbounds' mranges' : list T) (idx' : list (list nat)) :
  index_inv cs ncs s -> tmp s = Some t ->
  getitem (sorted (node s)) p = Ok row ->
  set_row (ncs * cs) (sorted t) q row = Ok sorted' ->
  getitem (ranges (node s)) p = Ok rowfl ->
  setitem (ranges t) q rowfl = Ok ranges' ->
  getitem (mranges (node s)) p = Ok rowm ->
  setitem (mranges t) q rowm = Ok mranges' ->
  getitem (bounds (node s)) p = Ok rowb ->
  set_row (ncs - 1) (bounds t) q rowb = Ok bounds' ->
  setslice (abounds t) (q * ncs) ncs
    (getslice (abounds (node s)) (p * ncs) (p * ncs + ncs)) = Ok abounds' ->
  setslice (zbounds t) (q * ncs) ncs
    (getslice (zbounds (node s)) (p * ncs) (p * ncs + ncs)) = Ok zbounds' ->
  setslice (mbounds t) (q * ncs) ncs
    (getslice (mbounds (node s)) (p * ncs) (p * ncs + ncs)) = Ok mbounds' ->
  let t' := mkArrays sorted' idx' bounds' abounds' zbounds' mbounds'
              ranges' mranges' in
  let s' := set_tmp (Some t') s in
  index_inv cs ncs s' /\ same_frame s s'
  /\ (exists r, slice_ok cs ncs t' q r)
  /\ (forall j r', j <> q -> slice_ok cs ncs t j r' -> slice_ok cs ncs t' j r').
Proof.
  intros Hinv Ht Grow Srow Gfl Sfl Gm Sm Gb Sb Sa Sz Smb t' s'.
  pose proof Hinv as (Hcs & Hncs & Ec & Es & Hok & Htmp).
  destruct (Htmp _ Ht) as (HF & Ra & Rz & Rm).
  pose proof Grow as Hp. apply getitem_Ok, lookup_lt_Some in Hp.
  destruct (ok_slices _ _ _ Hok p Hp) as [r0 Hr0].
  pose proof (proj1 (setitem_Ok _ _ _ _ Sfl)) as Hq.
  edestruct (copy_bundle cs ncs (ncs - 1) (node s) t p q r0) with (idx' := idx')
    as (Hnew & Hother & Ls & Lr & Lb & Lm & La & Lz & Lmb & HF');
    [done | done | done | exact Hr0 | nia | nia | nia | done..| ].
  subst s' t'. split_and!.
  - split_and!; simpl_state; [done..|].
    intros t' [= <-]. split_and!; [by apply HF' | simpl_state; lia..].
  - apply same_frame_set_tmp.
  - eauto.
  - done.
Qed.

(** Copying slice [q] of the temporaries back to slice [q] of the index. *)
Lemma index_inv_restore (cs ncs : nat) s (t : Arrays T) (q : nat) (r : list T)
    (row rowb : list T) (rowfl : T * T) (rowm : T)
    (sorted' bounds' : list (list T)) (ranges' : list (T * T))
    (abounds' zbounds' mbounds' mranges' : list T) (idx' : list (list nat)) :
  index_inv cs ncs s -> slice_ok cs ncs t q r ->
  getitem (sorted t) q = Ok row ->
  set_row (ncs * cs) (sorted (node s)) q row = Ok sorted' ->
  getitem (ranges t) q = Ok rowfl ->
  setitem (ranges (node s)) q rowfl = Ok ranges' ->
  getitem (mranges t) q = Ok rowm ->
  setitem (mranges (node s)) q rowm = Ok mranges' ->
  getitem (bounds t) q = Ok rowb ->
  set_row (ncs - 1) (bounds (node s)) q rowb = Ok bounds' ->
  setslice (abounds (node s)) (q * ncs) ncs
    (getslice (abounds t) (q * ncs) (q * ncs + ncs)) = Ok abounds' ->
  setslice (zbounds (node s)) (q * ncs) ncs
    (getslice (zbounds t) (q * ncs) (q * ncs + ncs)) = Ok zbounds' ->
  setslice (mbounds (node s)) (q * ncs) ncs
    (getslice (mbounds t) (q * ncs) (q * ncs + ncs)) = Ok mbounds' ->
  let s' := set_node (mkArrays sorted' idx' bounds' abounds' zbounds' mbounds'
                        ranges' mranges') s in
  index_inv cs ncs s' /\ same_frame s s' /\ tmp s' = tmp s.
Proof.
  intros Hinv Hr Grow Srow Gfl Sfl Gm Sm Gb Sb Sa Sz Smb s'.
  pose proof Hinv as (Hcs & Hncs & Ec & Es & Hok & Htmp).
  pose proof (proj1 (set_row_Ok _ _ _ _ _ Srow)) as Hq.
  pose proof Hok as [Lr0 Lb0 Lm0 La0 Lz0 Lmb0 Hs0].
  edestruct (copy_bundle cs ncs (ncs - 1) t (node s) q q r) with (idx' := idx')
    as (Hnew & Hother & Ls & Lr & Lb & Lm & La & Lz & Lmb & HF');
    [done | done | done | exact Hr | nia | nia | nia | done..| ].
  subst s'. split_and!.
  - split_and!; simpl_state; [done..| | done].
    eapply arrays_ok_write; [exact Hok | done..].
  - by apply same_frame_set_node.
  - done.
Qed.

Lemma swap_slices_Ok (cs ncs : nat) mode s s' :
  index_inv cs ncs s -> swap_slices mode s = Ok s' ->
  index_inv cs ncs s' /\ same_frame s s'.
Proof.
  intros Hinv H. unfold swap_slices in H. inv_bind H. injection H as <-.
  match goal with H : nchunkslice s = Ok _ |- _ =>
    apply (nchunkslice_inv _ _ _ _ Hinv) in H as -> end.
  match goal with H : for_loop _ _ _ = Ok _ |- _ => revert H end.
  apply (for_loop_ind (fun st : nat * Index T C =>
           index_inv cs ncs st.2 /\ same_frame s st.2)).
  { split; [done | apply same_frame_refl]. }
  intros sblock [nss2 s1] [nss2' s2] b _. cbn [snd].
  intros (Hinv1 & Hfr1) Hbody.
  inv_bind Hbody.
  case_decide; [by injection Hbody as <- <- <-|].
  inv_bind Hbody.
  case_decide; [by injection Hbody as <- <- <-|].
  inv_bind Hbody. injection Hbody as <- <- <-.
  set (n2 := if decide (_ - _ < _) then _ else nss2) in *. clearbody n2.
  set (ns := sblock * n2) in *. clearbody ns.
  (* originals --> tmp *)
  match goal with H : for_each _ _ s1 = Ok ?s3 |- _ =>
    assert (index_inv cs ncs s3 /\ same_frame s1 s3
            /\ exists t, tmp s3 = Some t
                 /\ forall i', i' < n2 -> exists r, slice_ok cs ncs t (ns + i') r)
      as (Hinv3 & Hfr3 & t3 & Ht3 & Hslices3);
    [revert H|] end.
  { unfold xrange. rewrite Nat.sub_0_r. intros Hloop.
    apply (for_each_seq_ind (fun k (s2 : Index T C) =>
             index_inv cs ncs s2 /\ same_frame s1 s2
             /\ (0 < k -> exists t, tmp s2 = Some t
                  /\ forall i', i' < k ->
                       exists r, slice_ok cs ncs t (ns + i') r)))
      in Hloop.
    - destruct Hloop as (? & ? & Hex). split_and!; [done..|].
      destruct Hex as (t & ? & Hsl); [lia|]. exists t. split; [done|].
      intros. apply Hsl. lia.
    - split_and!; [done | apply same_frame_refl | lia].
    - intros k s2 s3 Hk (Hinv2 & Hfr2 & Hsl2) Hb.
      inv_bind Hb. injection Hb as <-.
      match goal with H : nbounds_inslice s2 = Ok _ |- _ =>
        apply (nbounds_inslice_inv _ _ _ _ Hinv2) in H as -> end.
      pose proof Hinv2 as (_ & _ & _ & Es2 & _). rewrite Es2 in *.
      inv_attr.
      edestruct (index_inv_stash cs ncs s2) as (Hinv4 & Hfr4 & Hnew & Hother);
        [done..|].
      split_and!; [exact Hinv4 | by eapply same_frame_trans |].
      intros _. eexists. simpl_state. split; [done|].
      intros i' Hi'. destruct (decide (i' = k)) as [->|Hne]; [eauto|].
      destruct Hsl2 as (t & [= <-] & Hsl); [lia|].
      destruct (Hsl i') as [r' Hr']; [lia|].
      exists r'. apply Hother; [lia | done]. }
  (* tmp --> originals *)
  match goal with H : for_each _ _ _ = Ok ?s5 |- index_inv _ _ ?s5 /\ _ =>
    cut (index_inv cs ncs s5 /\ same_frame s s5 /\ tmp s5 = Some t3);
    [by intros (? & ? & _) | revert H] end.
  apply (for_each_ind (fun s4 : Index T C =>
           index_inv cs ncs s4 /\ same_frame s s4 /\ tmp s4 = Some t3)).
  { split_and!; [done | by eapply same_frame_trans | done]. }
  intros k s4 s5 Hk (Hinv4 & Hfr4 & Ht4) Hb.
  apply elem_of_xrange in Hk.
  inv_bind Hb. injection Hb as <-.
  match goal with H : nbounds_inslice s4 = Ok _ |- _ =>
    apply (nbounds_inslice_inv _ _ _ _ Hinv4) in H as -> end.
  pose proof Hinv4 as (_ & _ & _ & Es4 & _). rewrite Es4 in *.
  inv_attr. injection Ht4 as ->.
  destruct (Hslices3 k) as [r Hr]; [lia|].
  edestruct (index_inv_restore cs ncs s4 t3 (ns + k) r)
    as (Hinv5 & Hfr5 & Ht5); [done..|].
  split_and!; [exact Hinv5 | by eapply same_frame_trans | by rewrite Ht5].
Qed.

(** *** [swap], [optimize] and [search] *)

Lemma swap_Ok (cs ncs : nat) what mode s s' stop :
  index_inv cs ncs s -> swap what mode s = Ok (s', stop) ->
  index_inv cs ncs s' /\ same_frame s s'.
Proof.
  intros Hinv H. unfold swap in H. inv_bind H.
  assert (index_inv cs ncs (add_log (EvSwap what mode) s)) as Hinv0
    by (by eapply index_inv_ext).
  assert (same_frame s (add_log (EvSwap what mode) s)) as Hfr0
    by (unfold same_frame; by simpl_state).
  match goal with H : _ = Ok ?s1 |- _ =>
    match type of H with context [create_temps] =>
      assert (index_inv cs ncs s1 /\ same_frame s s1) as [Hinv1 Hfr1]
    end
  end.
  { match goal with H : _ = Ok ?s1 |- _ =>
      match type of H with context [create_temps] => rename H into Hstep end
    end.
    destruct (String.eqb what "create");
      [|destruct (String.eqb what "chunks");
        [|destruct (String.eqb what "slices")]].
    - apply (create_temps_Ok cs ncs) in Hstep as [? ?]; [|done].
      eauto using same_frame_trans.
    - apply (swap_chunks_Ok cs ncs) in Hstep as [? ?]; [|done].
      eauto using same_frame_trans.
    - apply (swap_slices_Ok cs ncs) in Hstep as [? ?]; [|done].
      eauto using same_frame_trans.
    - by injection Hstep as <-. }
  assert (forall tover s2, s2 = set_last_tover tover x0 ->
            index_inv cs ncs s2 /\ same_frame s s2) as Hlast.
  { intros tover s2 ->. split; [by eapply index_inv_ext|].
    eapply same_frame_trans; [done|]. unfold same_frame. by simpl_state. }
  repeat case_match; injection H as <- <-; eauto.
Qed.

Lemma keeps_Ok (cs ncs : nat) s0 : keeps cs ncs s0 Ok.
Proof. intros s1 s2 ? ? [= <-]. done. Qed.

Lemma keeps_swap_or_break (cs ncs : nat) s0 what mode rest :
  keeps cs ncs s0 rest -> keeps cs ncs s0 (swap_or_break what mode rest).
Proof.
  intros Hrest s1 s2 Hinv Hfr H. unfold swap_or_break in H.
  apply bind_Ok in H as ([s3 stop] & Hswap & H).
  apply (swap_Ok cs ncs) in Hswap as [Hinv3 Hfr3]; [|done].
  assert (same_frame s0 s3) by by eapply same_frame_trans.
  destruct stop; [by injection H as <-|]. by eapply Hrest.
Qed.

Lemma keeps_when_swap_or_break (cs ncs : nat) s0 cond what mode rest :
  keeps cs ncs s0 rest ->
  keeps cs ncs s0 (when_swap_or_break cond what mode rest).
Proof.
  intros Hrest. unfold when_swap_or_break. destruct cond; [|done].
  by apply keeps_swap_or_break.
Qed.

Lemma keeps_run_phases (cs ncs : nat) s0 phases :
  keeps cs ncs s0 (run_phases phases).
Proof.
  induction phases as [|[what mode] phases IH]; simpl.
  - apply keeps_Ok.
  - by apply keeps_swap_or_break.
Qed.

Lemma optimize_Ok (cs ncs : nat) level v s s' :
  index_inv cs ncs s -> optimize level v s = Ok s' ->
  index_inv cs ncs s' /\ same_frame s s'.
Proof.
  intros Hinv H. unfold optimize in H.
  set (s0 := set_last_tover _ _) in H.
  assert (index_inv cs ncs s0) as Hinv0 by (by eapply index_inv_ext).
  assert (same_frame s s0) as Hfr0 by (unfold same_frame; by simpl_state).
  clearbody s0.
  cut (index_inv cs ncs s' /\ same_frame s0 s').
  { intros [? ?]. eauto using same_frame_trans. }
  clear Hinv Hfr0 s.
  destruct (opt_flags level s0) as [[[optmedian optstarts] optstops] optfull].
  set (phases := if optfull then _ else _) in H.
  assert (keeps cs ncs s0 phases) as Hphases.
  { subst phases. destruct optfull.
    - apply keeps_swap_or_break. intros s1 s2 ? ? Hb. inv_bind Hb.
      revert Hb. case_decide; intros Hb;
        (eapply (keeps_swap_or_break cs ncs s0); [|done|done|exact Hb]);
        repeat apply keeps_swap_or_break; apply keeps_Ok.
    - repeat apply keeps_when_swap_or_break. apply keeps_Ok. }
  clearbody phases.
  inv_bind H. case_decide; [by injection H as <-; auto using same_frame_refl|].
  apply bind_Ok in H as (? & _ & H).
  destruct (optmedian || optstarts || optstops || optfull).
  - apply bind_Ok in H as ([s3 d] & Hrun & H).
    assert (index_inv cs ncs s3 /\ same_frame s0 s3) as [Hinv3 Hfr3].
    { apply bind_Ok in Hrun as ([s1 stop] & Hswap & Hrun).
      apply (swap_Ok cs ncs) in Hswap as [? ?]; [|done].
      destruct stop; [by injection Hrun as <- <-|].
      apply bind_Ok in Hrun as (s2 & Hrun & [= <- <-]).
      by apply (Hphases s1 s2). }
    apply bind_Ok in H as (s4 & Hclean & [= <-]).
    apply (cleanup_temps_Ok cs ncs) in Hclean as [? ?]; [|done].
    assert (same_frame s0 s4) by by eapply same_frame_trans.
    destruct d; [|done].
    split; [by apply (index_inv_ext cs ncs s4)|].
    eapply same_frame_trans; [done|]. unfold same_frame. by simpl_state.
  - apply bind_Ok in H as ([s3 d] & Hrun & [= <-]).
    apply bind_Ok in Hrun as (s2 & Hrun & [= <- <-]).
    by apply (Hphases s0 s2); [| apply same_frame_refl |].
Qed.

(** *** The frame of a search *)

(** Take a successful run apart, branch by branch. *)
Ltac inv_run :=
  repeat match goal with
  | H : (_ ≫= _) = Ok _ |- _ =>
      let x := fresh "x" in apply bind_Ok in H as (x & ? & H)
  | H : Raise _ = Ok _ |- _ => discriminate H
  | H : Ok _ = Ok _ |- _ => injection H as ?; simplify_eq
  | H : match ?c with _ => _ end = Ok _ |- _ => destruct c eqn:?
  end.

Lemma search_core_restorecache s : search_core (restorecache s) = search_core s.
Proof. done. Qed.

Lemma search_scalar_core item s n s' :
  search_scalar item s = Ok (n, s') -> search_core s' = search_core s.
Proof.
  unfold search_scalar.
  apply (for_each_ind (fun st : Z * Index T C => search_core st.2 = search_core s));
    [done|].
  intros i [tlen s1] [tlen' s2] _ Hs1 H. cbn [snd] in *.
  destruct (ext_searchBin _ _ _) as [start stop].
  inv_bind H. injection H as <- <-. by rewrite <- Hs1.
Qed.

Lemma searchLastRow_core item s r1 r2 s' :
  searchLastRow item s = Ok (r1, r2, s') -> search_core s' = search_core s.
Proof.
  unfold searchLastRow. destruct item as [item1 item2]. intros H.
  inv_run; done.
Qed.

Lemma for_each_core {X A : Type} (xs : list X)
    (body : X -> A * Index T C -> result (A * Index T C)) st st' :
  (forall x st1 st2, body x st1 = Ok st2 ->
                     search_core st2.2 = search_core st1.2) ->
  for_each xs body st = Ok st' -> search_core st'.2 = search_core st.2.
Proof.
  intros Hbody.
  apply (for_each_ind (fun st1 => search_core st1.2 = search_core st.2));
    [done|].
  intros x st1 st2 _ H1 H. rewrite <- H1. by eapply Hbody.
Qed.

Lemma search_core_eq item s n s' :
  search item s = Ok (n, s') -> search_core s' = search_core s.
Proof.
  intros H. unfold search in H.
  set (s0 := if dirtycache s then _ else s) in H.
  assert (search_core s0 = search_core s) as <-
    by (subst s0; by destruct (dirtycache s)).
  clearbody s0. destruct item as [item|]; [|by injection H as <- <-].
  apply bind_Ok in H as (cache & _ & H).
  destruct (cache_getslot cache item) as [nslot cache1].
  destruct (0 <=? nslot)%Z.
  - destruct (cache_getitem cache1 nslot) as [startlengths cache2].
    apply for_each_core in H; [exact H|].
    intros [[nrow2 start] len] [tlen s1] [tlen' s2] Hb. inv_run. done.
  - apply bind_Ok in H as ([tlen1 s1] & H1 & H).
    assert (search_core s1 = search_core s0) as <-.
    { clear H. repeat case_match; inv_run; try done;
        match goal with H : search_scalar _ _ = Ok _ |- _ =>
          by apply search_scalar_core in H end. }
    apply bind_Ok in H as (k & _ & H).
    apply bind_Ok in H as ([tlen2 s2] & H2 & H).
    assert (search_core s2 = search_core s1) as <-.
    { clear H H1. case_decide; inv_run; [|done].
      match goal with H : searchLastRow _ _ = Ok _ |- _ =>
        by apply searchLastRow_core in H end. }
    apply bind_Ok in H as (cache3 & _ & H).
    clear H1 H2.
    destruct (cache_couldenablecache cache3) as [[] cache4]; inv_run; done.
Qed.

(** *** Every reachable state satisfies the invariant *)

Lemma search_core_frame s s' : search_core s' = search_core s -> same_frame s s'.
Proof.
  unfold search_core, same_frame. intros H. simplify_eq.
  split_and!; congruence.
Qed.

Lemma search_core_inv (cs ncs : nat) s s' :
  search_core s' = search_core s -> index_inv cs ncs s -> index_inv cs ncs s'.
Proof.
  unfold search_core. intros H Hinv. simplify_eq.
  by apply (index_inv_ext cs ncs s).
Qed.

Lemma reachable_inv s : reachable s -> index_ok s /\ counts_ok s.
Proof.
  induction 1 as [sbs bs ss cs ty ro s Hsz Hnew
                 | s arr s' _ [(cs & ncs & Hinv) Hc] H
                 | s arr tnrows s' _ [(cs & ncs & Hinv) Hc] H
                 | s level v s' _ [(cs & ncs & Hinv) Hc] H
                 | s item n s' _ [(cs & ncs & Hinv) Hc] H
                 | s what mode s' stop _ [(cs & ncs & Hinv) Hc] H
                 | s s' _ [(cs & ncs & Hinv) Hc] H
                 | s mode s' _ [(cs & ncs & Hinv) Hc] H
                 | s mode nblock s' _ [(cs & ncs & Hinv) Hc] H
                 | s mode s' _ [(cs & ncs & Hinv) Hc] H
                 | s s' _ [(cs & ncs & Hinv) Hc] H].
  - split; [by eapply index_ok_new|].
    unfold Index_new in Hnew. inv_bind Hnew. injection Hnew as <-.
    unfold counts_ok. by simpl_state.
  - apply (append_Ok cs ncs) in H as (Hinv' & _ & Hs & Hr & Hn & Hlr); [|done].
    split; [by exists cs, ncs|].
    pose proof Hinv as (_ & _ & _ & Es & _).
    pose proof Hinv' as (_ & _ & _ & Es' & _).
    unfold counts_ok. rewrite Hlr, Hs, length_app, Hr, Hn, Es, Es'. simpl.
    split; lia.
  - apply appendLastRow_Ok in H as (Hn & Ht & Hss & Hcs & Hlen & Hlr & Hr & He).
    split; [exists cs, ncs; by apply (index_inv_ext cs ncs s)|].
    unfold counts_ok. rewrite Hlr, Hn, Hr, He, Hss.
    split; [done|]. by rewrite decide_False by lia.
  - apply (optimize_Ok cs ncs) in H as [? ?]; [|done].
    split; [by exists cs, ncs | by eapply same_frame_counts].
  - apply search_core_eq in H.
    split; [exists cs, ncs; by eapply search_core_inv|].
    eapply same_frame_counts; [|done]. by apply search_core_frame.
  - apply (swap_Ok cs ncs) in H as [? ?]; [|done].
    split; [by exists cs, ncs | by eapply same_frame_counts].
  - apply (create_temps_Ok cs ncs) in H as [? ?]; [|done].
    split; [by exists cs, ncs | by eapply same_frame_counts].
  - apply (swap_chunks_Ok cs ncs) in H as [? ?]; [|done].
    split; [by exists cs, ncs | by eapply same_frame_counts].
  - apply (reorder_slices_Ok cs ncs) in H as (? & ? & _); [|done].
    split; [by exists cs, ncs | by eapply same_frame_counts].
  - apply (swap_slices_Ok cs ncs) in H as [? ?]; [|done].
    split; [by exists cs, ncs | by eapply same_frame_counts].
  - apply (cleanup_temps_Ok cs ncs) in H as [? ?]; [|done].
    split; [by exists cs, ncs | by eapply same_frame_counts].
Qed.

(** *** The log of a search only grows *)

Lemma for_each_log {X A : Type} (xs : list X)
    (body : X -> A * Index T C -> result (A * Index T C)) st st' :
  (forall x st1 st2, body x st1 = Ok st2 -> log st1.2 `prefix_of` log st2.2) ->
  for_each xs body st = Ok st' -> log st.2 `prefix_of` log st'.2.
Proof.
  intros Hbody.
  apply (for_each_ind (fun st1 => log st.2 `prefix_of` log st1.2)); [done|].
  intros x st1 st2 _ H1 H. etrans; [done|]. by eapply Hbody.
Qed.

Lemma search_scalar_log item s n s' :
  search_scalar item s = Ok (n, s') -> log s `prefix_of` log s'.
Proof.
  unfold search_scalar. intros H. apply for_each_log in H; [done|].
  intros i [tlen s1] [tlen' s2] Hb. cbn [snd].
  destruct (ext_searchBin _ _ _) as [start stop].
  inv_bind Hb. injection Hb as <- <-. simpl_state. by apply prefix_app_r.
Qed.

Lemma searchLastRow_log item s r1 r2 s' :
  searchLastRow item s = Ok (r1, r2, s') -> log s `prefix_of` log s'.
Proof.
  unfold searchLastRow. destruct item as [item1 item2]. intros H.
  inv_run; simpl_state; try done;
    repeat (etrans; [|by apply prefix_app_r]); done.
Qed.

(** After the cache has been restored and the slot of the item asked,
    the rest of a search only adds to the log. *)
Lemma search_log item s n s' :
  search (Some item) s = Ok (n, s') ->
  let s0 := if dirtycache s then restorecache s else s in
  (log s0 ++ [EvGetSlot item]) `prefix_of` log s'.
Proof.
  intros H s0. unfold search in H. fold s0 in H. clearbody s0.
  apply bind_Ok in H as (cache & _ & H).
  destruct (cache_getslot cache item) as [nslot cache1].
  destruct (0 <=? nslot)%Z.
  - destruct (cache_getitem cache1 nslot) as [startlengths cache2].
    apply for_each_log in H.
    + cbn [snd] in H. simpl_state. etrans; [|exact H]. by apply prefix_app_r.
    + intros [[nrow2 start] len] [tlen s1] [tlen' s2] Hb. inv_run. done.
  - apply bind_Ok in H as ([tlen1 s1] & H1 & H).
    assert ((log s0 ++ [EvGetSlot item]) `prefix_of` log s1) as Hp1.
    { clear H. repeat case_match; inv_run; simpl_state; try done.
      - by apply prefix_app_r.
      - match goal with H : search_scalar _ _ = Ok _ |- _ =>
          by apply search_scalar_log in H end.
      - match goal with H : search_scalar _ _ = Ok _ |- _ =>
          by apply search_scalar_log in H end. }
    apply bind_Ok in H as (k & _ & H).
    apply bind_Ok in H as ([tlen2 s2] & H2 & H).
    assert (log s1 `prefix_of` log s2) as Hp2.
    { clear H H1 Hp1. case_decide; inv_run; simpl_state; [|done].
      match goal with H : searchLastRow _ _ = Ok _ |- _ =>
        by apply searchLastRow_log in H end. }
    apply bind_Ok in H as (cache3 & _ & H).
    clear H1 H2. etrans; [exact Hp1|]. etrans; [exact Hp2|]. clear Hp1 Hp2.
    destruct (cache_couldenablecache cache3) as [[] cache4]; inv_run;
      simpl_state.
    + etrans; [|by apply prefix_app_r]. by apply prefix_app_r.
    + by apply prefix_app_r.
Qed.

(** *** [optimize] against the level table *)

Lemma bind_ext {A B : Type} (m : result A) (f g : A -> result B) :
  (forall x, m = Ok x -> f x = g x) -> m ≫= f = m ≫= g.
Proof. intros H. destruct m; simpl; auto. Qed.

Lemma bind_ret {A : Type} (m : result A) : m ≫= Ok = m.
Proof. by destruct m. Qed.

Lemma swap_or_break_ext (cs ncs : nat) s0 what mode
    (rest1 rest2 : Index T C -> result (Index T C)) s1 :
  index_inv cs ncs s1 -> same_frame s0 s1 ->
  (forall s2, index_inv cs ncs s2 -> same_frame s0 s2 -> rest1 s2 = rest2 s2) ->
  swap_or_break what mode rest1 s1 = swap_or_break what mode rest2 s1.
Proof.
  intros Hinv Hfr Hrest. unfold swap_or_break. apply bind_ext.
  intros [s2 stop] Hswap. destruct stop; [done|].
  apply (swap_Ok cs ncs) in Hswap as [? ?]; [|done].
  apply Hrest; [done|]. by eapply same_frame_trans.
Qed.

(** The run of [optimize] once the temporaries are needed: [create],
    the phases, the cleanup. *)
Lemma optimize_tail (cs ncs : nat) s0
    (ph : Index T C -> result (Index T C)) (plan : list (string * string)) :
  index_inv cs ncs s0 ->
  (forall s1, index_inv cs ncs s1 -> same_frame s0 s1 ->
              ph s1 = run_phases plan s1) ->
  ('(s, swap_done) ←
      ('(s, stop) ← swap "create" None s0;
       if (stop : bool) then Ok (s, false)
       else s ← ph s; Ok (s, true));
   s ← cleanup_temps s;
   Ok (if (swap_done : bool) then set_dirtycache true s else s))
  = ('(s, stop) ← swap "create" None s0;
     if (stop : bool) then cleanup_temps s
     else s ← run_phases plan s; s ← cleanup_temps s;
          Ok (set_dirtycache true s)).
Proof.
  intros Hinv Hph.
  destruct (swap "create" None s0) as [[s1 stop]|e] eqn:Hswap; [|done].
  cbn [mbind result_bind]. destruct stop.
  - cbn [mbind result_bind]. apply bind_ret.
  - apply (swap_Ok cs ncs) in Hswap as [? ?]; [|done].
    rewrite Hph by done.
    destruct (run_phases plan s1); [|done]. done.
Qed.

(** * Properties of the index *)

(** C2. In every reachable state, the states between the steps of the
    optimizer included, every slice [i] with sorted row [r] satisfies the
    formulas of the data model: [ranges[i] = (r[0], r[ss-1])],
    [bounds[i,k] = r[(k+1)*cs]] for [k <= ncs - 2],
    [abounds[i*ncs+j] = r[j*cs]], [zbounds[i*ncs+j] = r[(j+1)*cs-1]] and
    [mbounds[i*ncs+j] = r[j*cs + cs/2]] for [j < ncs], and
    [mranges[i] = mbounds[i*ncs + ncs/2]].  A successful [append arr] has
    [len(arr) = ss], the new slice is the last one, its sorted row is a
    permutation of [arr] in ascending order (when [<] is asymmetric), and
    the state it returns satisfies the formulas. *)
Theorem formulas_hold_in_reachable_states s :
  reachable s ->
  formulas_hold s
  /\ forall arr s', append arr s = Ok s' ->
       let r := sort_values val_ltb arr in
       length arr = slicesize s
       /\ sorted (node s') !! length (sorted (node s)) = Some r
       /\ length (sorted (node s')) = length (sorted (node s)) + 1
       /\ r ≡ₚ arr
       /\ ((forall x y : T, val_ltb x y = true -> val_ltb y x = false) ->
           Sorted (fun x y : T => val_ltb y x = false) r)
       /\ formulas_hold s'.
Proof.
  intros Hs. split.
  { by apply index_ok_formulas, reachable_inv. }
  intros arr s' Happ r.
  pose proof (reach_append _ _ _ Hs Happ) as Hs'.
  destruct (reachable_inv _ Hs) as [(cs & ncs & Hinv) _].
  apply (append_Ok cs ncs) in Happ as (_ & Hlen & Hsorted & _); [|done].
  split_and!.
  - done.
  - rewrite Hsorted. by apply list_lookup_middle.
  - rewrite Hsorted, length_app. simpl. lia.
  - apply sort_values_Permutation.
  - intros Hasym. by apply sort_values_Sorted.
  - by apply index_ok_formulas, reachable_inv.
Qed.

(** C6, as the code has it.  A successful [append arr] on a reachable
    state has [len(arr) = slicesize] and sets [nelements] to the number of
    complete slices times [slicesize]: the values of a trailing partial
    slice leave the count, so [nelements] grows by [len(arr)] minus
    [nelementsLR] (taken as [0] while it is unset).  Where [nelementsLR]
    is set, it is [0] exactly when no trailing partial slice exists; it is
    unset only in an index without elements. *)
Theorem append_nelements s :
  reachable s ->
  (forall arr s', append arr s = Ok s' ->
     length arr = slicesize s
     /\ nelements s' = length (sorted (node s')) * slicesize s'
     /\ nelements s' + default 0 (nelementsLR s) = nelements s + length arr
     /\ nelementsLR s' = Some 0)
  /\ (forall k, nelementsLR s = Some k -> (k = 0 <-> ~ has_partial_slice s))
  /\ (nelementsLR s = None -> nelements s = 0 /\ ~ has_partial_slice s).
Proof.
  intros Hs. destruct (reachable_inv _ Hs) as [(cs & ncs & Hinv) Hc].
  unfold counts_ok, has_partial_slice in *. split_and!.
  - intros arr s' Happ.
    apply (append_Ok cs ncs) in Happ as (Hinv' & Hlen & Hsorted & _ & Hn & Hlr);
      [|done].
    pose proof Hinv as (_ & _ & _ & Es & _).
    pose proof Hinv' as (_ & _ & _ & Es' & _).
    rewrite Hsorted, length_app, Hn, Hlen, Hlr, Es, Es' in *. simpl.
    destruct (nelementsLR s); simpl; split_and!; try done; lia.
  - intros k Hk. rewrite Hk in Hc. lia.
  - intros Hk. rewrite Hk in Hc. lia.
Qed.

(** C10. [_f_remove] removes the whole group recursively whatever the
    value of [recursive]: it is the recursive removal of the group. *)
Theorem f_remove_always_recursive (recursive : bool) s :
  _f_remove recursive s = Group_f_remove true s
  /\ _f_remove false s = _f_remove true s.
Proof. done. Qed.

(** C9, as the code has it.  Only the empty tuple is an empty query:
    [search] first restores the cache of a dirty index (which initialises
    the sorted slice, replaces the limits cache by a fresh one and resizes
    [starts] and [lengths]), then sets every entry of [starts] and
    [lengths] to [0] and returns [0], with no call to the limits cache and
    no search in the sorted array.  A query [(lo, hi)] is never taken as
    empty, whatever the order of [lo] and [hi]: [search] asks the limits
    cache for its slot before anything else. *)
Theorem search_empty_item s :
  let s0 := if dirtycache s then restorecache s else s in
  (exists s', search None s = Ok (0%Z, s')
     /\ starts s' = replicate (length (starts s0)) 0%Z
     /\ lengths s' = replicate (length (lengths s0)) 0%Z
     /\ search_core s' = search_core s
     /\ limboundscache s' = limboundscache s0
     /\ log s' = log s ++ (if dirtycache s then [EvInitSortedSlice] else []))
  /\ forall lo hi n s', search (Some (lo, hi)) s = Ok (n, s') ->
       (log s ++ (if dirtycache s then [EvInitSortedSlice] else [])
          ++ [EvGetSlot (lo, hi)]) `prefix_of` log s'.
Proof.
  intros s0.
  assert (log s0 = log s ++ (if dirtycache s then [EvInitSortedSlice] else []))
    as Hlog.
  { subst s0. destruct (dirtycache s); [done|]. by rewrite app_nil_r. }
  split.
  - eexists. split; [reflexivity|]. fold s0. simpl_state.
    split_and!; try done.
    subst s0. by destruct (dirtycache s).
  - intros lo hi n s' H. apply search_log in H. fold s0 in H.
    by rewrite Hlog, <- app_assoc in H.
Qed.

(** C7, as the code has it.  [optimize(level)] runs the phases of the
    level table, each phase ending the run when its termination test
    holds: none for the levels 0-2, [chunks(start)] for 3-5,
    [chunks(start)], [chunks(stop)] for 6-8; at level 9 the full sequence
    [chunks(median)], [slices(median)], [chunks(median)], [chunks(start)],
    [chunks(stop)] only when the index has more than one block, and
    [chunks(median)], [chunks(start)], [chunks(stop)] otherwise.  With at
    most one complete slice no phase is run, at any level: the state is
    left as it is but for [verbose] and [last_tover], which are set. *)
Theorem optimize_level_table (level : Z) (v : bool) s (nb : nat) :
  reachable s -> nblocks s = Ok nb ->
  optimize (Some level) v s = optimize_by_plan (level_phases level nb) v s
  /\ (forall lvl n, nslices s = Ok n -> n <= 1 ->
        optimize lvl v s
          = Ok (set_last_tover (Some float_0) (set_verbose (Some v) s))).
Proof.
  intros Hs Hnb. split.
  2: { intros lvl n Hn Hle. unfold optimize.
       change (nslices (set_last_tover (Some float_0) (set_verbose (Some v) s)))
         with (nslices s).
       rewrite Hn. cbn [mbind result_bind]. by rewrite decide_True. }
  destruct (reachable_inv _ Hs) as [(cs & ncs & Hinv) _].
  unfold optimize, optimize_by_plan.
  set (s0 := set_last_tover _ _).
  assert (index_inv cs ncs s0) as Hinv0 by (by apply (index_inv_ext cs ncs s)).
  assert (forall s1, same_frame s0 s1 -> nblocks s1 = Ok nb) as Hblocks.
  { intros s1 Hfr. by rewrite (same_frame_nblocks _ _ Hfr). }
  clearbody s0.
  apply bind_ext. intros n _. case_decide; [done|].
  apply bind_ext. intros _ _.
  unfold opt_flags, level_phases.
  destruct ((3 <=? level)%Z && (level <? 6)%Z);
    [|destruct ((6 <=? level)%Z && (level <? 9)%Z);
      [|destruct (level =? 9)%Z]].
  - by apply (optimize_tail cs ncs).
  - by apply (optimize_tail cs ncs).
  - destruct (decide (1 < nb)) as [Hlt|Hle].
    + apply (optimize_tail cs ncs); [done|].
      intros s1 Hinv1 Hfr1. cbn [run_phases].
      apply (swap_or_break_ext cs ncs s0); [done..|].
      intros s2 Hinv2 Hfr2. rewrite (Hblocks _ Hfr2).
      cbn [mbind result_bind]. by rewrite decide_True.
    + apply (optimize_tail cs ncs); [done|].
      intros s1 Hinv1 Hfr1. cbn [run_phases].
      apply (swap_or_break_ext cs ncs s0); [done..|].
      intros s2 Hinv2 Hfr2. rewrite (Hblocks _ Hfr2).
      cbn [mbind result_bind]. by rewrite decide_False.
  - reflexivity.
Qed.
End IndexFacts.

(** * The properties on concrete indexes *)

Section Examples.
Local Open Scope nat_scope.
Local Existing Instance ZEnv.

Lemma sizes_ok_small : sizes_ok 8 8 4 2.
Proof.
  split_and!; [lia | exists 2 | exists 2 | exists 1]; split; (lia || reflexivity).
Qed.

Lemma sizes_ok_block : sizes_ok 32 32 4 2.
Proof.
  split_and!; [lia | exists 2 | exists 8 | exists 1]; split; (lia || reflexivity).
Qed.

Lemma reachable_index_empty : reachable index_empty.
Proof.
  apply (reach_new 8 8 4 2 "int64" (false, true, false, false));
    [apply sizes_ok_small | reflexivity].
Qed.

Lemma reachable_index_1 : reachable index_1.
Proof.
  apply (reach_append index_empty [5; 1; 7; 3]%Z);
    [apply reachable_index_empty | vm_compute; reflexivity].
Qed.

Lemma reachable_index_2 : reachable index_2.
Proof.
  apply (reach_append index_1 [2; 8; 4; 6]%Z);
    [apply reachable_index_1 | vm_compute; reflexivity].
Qed.

Lemma reachable_index_2_LR : reachable index_2_LR.
Proof.
  apply (reach_appendLastRow index_2 [6; 0]%Z 10);
    [apply reachable_index_2 | vm_compute; reflexivity].
Qed.

Lemma reachable_for_each_append {X : Type} (xs : list X) (row : list Z)
    (s s' : Index Z unit) :
  reachable s -> for_each xs (fun _ s => append row s) s = Ok s' ->
  reachable s'.
Proof.
  intros Hs. apply (for_each_ind reachable); [done|].
  intros x s1 s2 _ H1 H. by eapply reach_append.
Qed.

Lemma reachable_index_block : reachable index_block.
Proof.
  apply (reachable_for_each_append (xrange 0 8) [0; 100; 100; 200]%Z
           index_block_0).
  - apply (reach_new 32 32 4 2 "int64" (false, true, false, false));
      [apply sizes_ok_block | vm_compute; reflexivity].
  - vm_compute. reflexivity.
Qed.

Lemma formulas_hold_in_reachable_states_witness :
  reachable index_1
  /\ formulas_hold index_1
  /\ append [2; 8; 4; 6]%Z index_1 = Ok index_2
  /\ sorted (node index_2) !! 1 = Some [2; 4; 6; 8]%Z
  /\ Sorted (fun x y => (y <? x)%Z = false) [2; 4; 6; 8]%Z
  /\ formulas_hold index_2.
Proof.
  pose proof (formulas_hold_in_reachable_states index_1 reachable_index_1)
    as [H1 H2].
  assert (append [2; 8; 4; 6]%Z index_1 = Ok index_2) as Happ
    by (vm_compute; reflexivity).
  destruct (H2 _ _ Happ) as (_ & Hrow & _ & _ & Hsorted & Hf).
  split_and!; [apply reachable_index_1 | exact H1 | exact Happ | exact Hrow
              | | exact Hf].
  apply Hsorted. intros x y Hxy. apply Z.ltb_lt in Hxy. apply Z.ltb_ge. lia.
Defined.

Lemma append_nelements_witness :
  reachable index_2_LR
  /\ append [6; 0; 11; 12]%Z index_2_LR = Ok index_3
  /\ nelements index_3 + 2 = nelements index_2_LR + 4
  /\ (2 = 0 <-> ~ has_partial_slice index_2_LR).
Proof.
  pose proof (append_nelements index_2_LR reachable_index_2_LR)
    as (H1 & H2 & _).
  assert (append [6; 0; 11; 12]%Z index_2_LR = Ok index_3) as Happ
    by (vm_compute; reflexivity).
  destruct (H1 _ _ Happ) as (_ & _ & Hn & _).
  split_and!; [apply reachable_index_2_LR | exact Happ | exact Hn |].
  apply (H2 2). reflexivity.
Defined.

(** C6 as stated fails.  After two slices and a last row of 2 values
    ([nelements = 10]) the append of a slice of 4 values gives
    [nelements = 12], not [14]; and in a new index, which has no partial
    slice, [nelementsLR] is not [0] but unset. *)
Lemma append_nelements_counterexample :
  reachable index_2_LR
  /\ length [6; 0; 11; 12]%Z = slicesize index_2_LR
  /\ append [6; 0; 11; 12]%Z index_2_LR = Ok index_3
  /\ nelements index_2_LR = 10
  /\ nelements index_3 = 12
  /\ nelements index_3 <> nelements index_2_LR + length [6; 0; 11; 12]%Z
  /\ reachable index_empty
  /\ ~ has_partial_slice index_empty
  /\ nelementsLR index_empty <> Some 0.
Proof.
  split_and!; try (vm_compute; reflexivity).
  - apply reachable_index_2_LR.
  - vm_compute. lia.
  - apply reachable_index_empty.
  - vm_compute. lia.
  - discriminate.
Qed.

Lemma optimize_level_table_witness :
  reachable index_block
  /\ nblocks index_block = Ok 1
  /\ level_phases 9 1
     = [("chunks", "median"); ("chunks", "start"); ("chunks", "stop")]
  /\ optimize (Some 9%Z) false index_block
     = optimize_by_plan (level_phases 9 1) false index_block
  /\ nslices index_1 = Ok 1
  /\ optimize (Some 9%Z) false index_1
     = Ok (set_last_tover (Some float_0) (set_verbose (Some false) index_1)).
Proof.
  assert (nblocks index_block = Ok 1) as Hnb by (vm_compute; reflexivity).
  assert (nblocks index_1 = Ok 1) as Hnb1 by (vm_compute; reflexivity).
  assert (nslices index_1 = Ok 1) as Hns1 by (vm_compute; reflexivity).
  destruct (optimize_level_table 9 false index_block 1
              reachable_index_block Hnb) as [Hplan _].
  destruct (optimize_level_table 9 false index_1 1
              reachable_index_1 Hnb1) as [_ Hone].
  split_and!; [apply reachable_index_block | exact Hnb | reflexivity
              | exact Hplan | exact Hns1 |].
  apply (Hone (Some 9%Z) 1 Hns1). lia.
Defined.

(** C7 as stated fails.  At level 9, on eight slices in one block, the
    phases run are [chunks(median)] and [chunks(start)]: [chunks(median)]
    does not meet a termination test, and [slices(median)] and the second
    [chunks(median)] are not run.  On an index of one slice [optimize]
    returns a state that differs from the one it was given. *)
Lemma optimize_level_9_counterexample :
  reachable index_block
  /\ log index_block = []
  /\ (exists s', optimize (Some 9%Z) false index_block = Ok s'
        /\ log s' = [EvSwap "create" None; EvSwap "chunks" (Some "median");
                     EvSwap "chunks" (Some "start"); EvCleanupTemps])
  /\ reachable index_1
  /\ nslices index_1 = Ok 1
  /\ (exists s', optimize (Some 9%Z) true index_1 = Ok s'
        /\ verbose index_1 = None /\ verbose s' = Some true
        /\ last_tover index_1 = None /\ last_tover s' = Some float_0).
Proof.
  split_and!.
  - apply reachable_index_block.
  - reflexivity.
  - eexists. split; [vm_compute; reflexivity|]. reflexivity.
  - apply reachable_index_1.
  - vm_compute. reflexivity.
  - eexists. split; [vm_compute; reflexivity|]. split_and!; reflexivity.
Qed.

Lemma search_empty_item_witness :
  (exists s', search None index_2 = Ok (0%Z, s')
     /\ starts s' = [0; 0]%Z /\ lengths s' = [0; 0]%Z
     /\ log s' = [EvInitSortedSlice])
  /\ (exists n s', search (Some (5, 3)%Z) index_2 = Ok (n, s')
        /\ [EvInitSortedSlice; EvGetSlot (5, 3)%Z] `prefix_of` log s').
Proof.
  destruct (search_empty_item index_2) as [(s' & Hs & Hst & Hle & _ & _ & Hlog) H].
  split.
  - exists s'. split_and!; [exact Hs | exact Hst | exact Hle | exact Hlog].
  - destruct (search (Some (5, 3)%Z) index_2) as [[n s2]|e] eqn:Hsearch;
      [|vm_compute in Hsearch; discriminate Hsearch].
    exists n, s2. split; [reflexivity|]. exact (H _ _ _ _ Hsearch).
Defined.

(** C9 as stated fails for a query with [hi < lo].  [search((5, 3))] asks
    the limits cache for the slot of [(5, 3)] and then searches the sorted
    array. *)
Lemma search_reversed_limits_counterexample :
  reachable index_2
  /\ log index_2 = []
  /\ exists n s', search (Some (5, 3)%Z) index_2 = Ok (n, s')
       /\ log s' = [EvInitSortedSlice; EvGetSlot (5, 3)%Z;
                    EvSearchBinNA (5, 3)%Z; EvCouldEnableCache].
Proof.
  split_and!; [apply reachable_index_2 | reflexivity |].
  eexists _, _. split; [vm_compute; reflexivity|]. reflexivity.
Qed.
End Examples.

(** * Further properties of the frontier *)

Section StringFacts.
Local Open Scope Z_scope.

Lemma ord_bounds (c : byte) : 0 <= ord c < 256.
Proof.
  unfold ord. pose proof (Byte.to_N_bounded c). lia.
Qed.

Lemma chr_ord (n : Z) :
  0 <= n < 256 -> exists b, chr n = Ok b /\ ord b = n.
Proof.
  intros Hn. unfold chr.
  replace ((0 <=? n) && (n <? 256)) with true
    by (symmetry; apply andb_true_iff; split; [apply Z.leb_le | apply Z.ltb_lt]; lia).
  destruct (Byte.of_N (Z.to_N n)) as [b|] eqn:Hb.
  - exists b. split; [done|]. apply Byte.to_of_N in Hb. unfold ord. lia.
  - apply Byte.of_N_None_iff in Hb. lia.
Qed.

Lemma ord_inj (a b : byte) : ord a = ord b -> a = b.
Proof.
  unfold ord. intros H. apply N2Z.inj in H.
  pose proof (Byte.of_to_N a) as Ha. pose proof (Byte.of_to_N b) as Hb.
  rewrite H in Ha. congruence.
Qed.

Lemma pow256_pos (n : nat) : 0 < 256 ^ Z.of_nat n.
Proof. apply Z.pow_pos_nonneg; lia. Qed.

Lemma pow256_S (n : nat) : 256 ^ Z.of_nat (S n) = 256 * 256 ^ Z.of_nat n.
Proof. rewrite Nat2Z.inj_succ, Z.pow_succ_r by lia. done. Qed.

Lemma le_value_bounds (l : list byte) :
  0 <= le_value l < 256 ^ Z.of_nat (length l).
Proof.
  induction l as [|c l IH]; [simpl; lia|].
  cbn [le_value length]. rewrite pow256_S.
  pose proof (ord_bounds c). lia.
Qed.

Lemma le_value_inj (a b : list byte) :
  length a = length b -> le_value a = le_value b -> a = b.
Proof.
  revert b. induction a as [|c a IH]; intros [|d b] Hlen Hv; try done.
  cbn [le_value] in Hv. injection Hlen as Hlen.
  pose proof (ord_bounds c). pose proof (ord_bounds d).
  assert (ord c = ord d /\ le_value a = le_value b) as [Hc Ha] by lia.
  f_equal; [by apply ord_inj | by apply IH].
Qed.

Lemma be_value_snoc (l : list byte) (c : byte) :
  be_value (l ++ [c]) = be_value l * 256 + ord c.
Proof. unfold be_value. by rewrite fold_left_app. Qed.

Lemma be_value_rev (l : list byte) : be_value (rev l) = le_value l.
Proof.
  induction l as [|c l IH]; [done|].
  simpl rev. rewrite be_value_snoc, IH. cbn [le_value]. lia.
Qed.

Lemma le_value_rev (l : list byte) : le_value (rev l) = be_value l.
Proof. by rewrite <- be_value_rev, rev_involutive. Qed.

(** The loop that adds one: carry through the [\xff] bytes. *)
Lemma succ_loop_value (pending done : list byte) :
  exists r, succ_loop pending (length done) (done ++ pending) = Ok (done ++ r)
    /\ length r = length pending
    /\ le_value r = (le_value pending + 1) mod 256 ^ Z.of_nat (length pending).
Proof.
  revert done. induction pending as [|c p IH]; intros done.
  - exists []. by rewrite app_nil_r.
  - cbn [succ_loop]. pose proof (ord_bounds c) as Hc.
    pose proof (le_value_bounds p) as Hp.
    destruct (ord c <? 255) eqn:Hlt.
    + apply Z.ltb_lt in Hlt.
      destruct (chr_ord (ord c + 1)) as (b & -> & Hb); [lia|].
      exists (b :: p). cbn [mbind result_bind]. split_and!.
      * f_equal. rewrite insert_app_r_alt by lia.
        by rewrite Nat.sub_diag.
      * done.
      * cbn [le_value length]. rewrite pow256_S, Hb.
        rewrite Z.mod_small by lia. lia.
    + apply Z.ltb_ge in Hlt.
      destruct (IH (done ++ [x00])) as (r & Hr & Hlen & Hv).
      exists (x00 :: r). split_and!.
      * replace (<[length done := x00]> (done ++ c :: p))
          with ((done ++ [x00]) ++ p).
        2: { rewrite insert_app_r_alt by lia.
             by rewrite Nat.sub_diag, <- app_assoc. }
        replace (S (length done)) with (length (done ++ [x00]))
          by (rewrite length_app; simpl; lia).
        rewrite Hr. by rewrite <- app_assoc.
      * simpl. by rewrite Hlen.
      * cbn [le_value length]. rewrite pow256_S, Hv.
        replace (ord c + 256 * le_value p + 1) with (256 * (le_value p + 1))
          by lia.
        rewrite Z.mul_mod_distr_l by (pose proof (pow256_pos (length p)); lia).
        change (ord x00) with 0. lia.
Qed.

(** The loop that subtracts one: borrow through the [\x00] bytes. *)
Lemma pred_loop_value (pending done : list byte) :
  exists r, pred_loop pending (length done) (done ++ pending) = Ok (done ++ r)
    /\ length r = length pending
    /\ le_value r = (le_value pending - 1) mod 256 ^ Z.of_nat (length pending).
Proof.
  revert done. induction pending as [|c p IH]; intros done.
  - exists []. by rewrite app_nil_r.
  - cbn [pred_loop]. pose proof (ord_bounds c) as Hc.
    pose proof (le_value_bounds p) as Hp.
    destruct (0 <? ord c) eqn:Hlt.
    + apply Z.ltb_lt in Hlt.
      destruct (chr_ord (ord c - 1)) as (b & -> & Hb); [lia|].
      exists (b :: p). cbn [mbind result_bind]. split_and!.
      * f_equal. rewrite insert_app_r_alt by lia.
        by rewrite Nat.sub_diag.
      * done.
      * cbn [le_value length]. rewrite pow256_S, Hb.
        rewrite Z.mod_small by lia. lia.
    + apply Z.ltb_ge in Hlt.
      destruct (IH (done ++ [xff])) as (r & Hr & Hlen & Hv).
      exists (xff :: r). split_and!.
      * replace (<[length done := xff]> (done ++ c :: p))
          with ((done ++ [xff]) ++ p).
        2: { rewrite insert_app_r_alt by lia.
             by rewrite Nat.sub_diag, <- app_assoc. }
        replace (S (length done)) with (length (done ++ [xff]))
          by (rewrite length_app; simpl; lia).
        rewrite Hr. by rewrite <- app_assoc.
      * simpl. by rewrite Hlen.
      * cbn [le_value length]. rewrite pow256_S, Hv.
        change (ord xff) with 255.
        pose proof (pow256_pos (length p)) as Hpos.
        assert (ord c = 0) as -> by lia.
        destruct (decide (le_value p = 0)) as [->|Hne].
        -- assert (forall m, 0 < m -> (-1) mod m = m - 1) as Hm1.
           { intros m Hm. symmetry. apply (Z.mod_unique_pos _ _ (-1)); lia. }
           replace (0 - 1) with (-1) by lia.
           replace (0 + 256 * 0 - 1) with (-1) by lia.
           rewrite !Hm1 by lia. lia.
        -- rewrite !Z.mod_small by lia. lia.
Qed.


Lemma le_value_snoc (l : list byte) (c : byte) :
  le_value (l ++ [c]) = le_value l + 256 ^ Z.of_nat (length l) * ord c.
Proof.
  induction l as [|d l IH]; [simpl; lia|].
  cbn [app le_value length]. rewrite IH, pow256_S. lia.
Qed.

Lemma be_value_cons (c : byte) (l : list byte) :
  be_value (c :: l) = ord c * 256 ^ Z.of_nat (length l) + be_value l.
Proof.
  rewrite <- !le_value_rev. simpl rev. rewrite le_value_snoc, length_rev. lia.
Qed.

Lemma be_value_bounds (l : list byte) :
  0 <= be_value l < 256 ^ Z.of_nat (length l).
Proof.
  rewrite <- le_value_rev, <- (length_rev l). apply le_value_bounds.
Qed.

Lemma be_value_inj (a b : list byte) :
  length a = length b -> be_value a = be_value b -> a = b.
Proof.
  intros Hlen Hv. rewrite <- (rev_involutive a), <- (rev_involutive b).
  f_equal. apply le_value_inj; [by rewrite !length_rev|].
  by rewrite !le_value_rev.
Qed.

(** Strings of one length compare like their values. *)
Lemma bytes_compare_be_value (a b : list byte) :
  length a = length b -> bytes_compare a b = (be_value a ?= be_value b).
Proof.
  revert b. induction a as [|c a IH]; intros [|d b] Hlen; try done.
  injection Hlen as Hlen. cbn [bytes_compare]. rewrite !be_value_cons.
  rewrite <- Hlen. pose proof (be_value_bounds a) as Ha.
  pose proof (be_value_bounds b) as Hb. rewrite <- Hlen in Hb.
  pose proof (pow256_pos (length a)) as Hpos.
  set (M := 256 ^ Z.of_nat (length a)) in *.
  rewrite <- N2Z.inj_compare. fold (ord c) (ord d).
  destruct (Z.compare_spec (ord c) (ord d)) as [Heq|Hlt|Hgt].
  - rewrite Heq, IH by done.
    destruct (Z.compare_spec (be_value a) (be_value b));
      symmetry; [apply Z.compare_eq_iff | apply Z.compare_lt_iff
                | apply Z.compare_gt_iff]; lia.
  - symmetry. apply Z.compare_lt_iff. nia.
  - symmetry. apply Z.compare_gt_iff. nia.
Qed.

Lemma le_value_replicate_ff (n : nat) :
  le_value (replicate n xff) = 256 ^ Z.of_nat n - 1.
Proof.
  induction n as [|n IH]; [done|].
  cbn [replicate le_value]. rewrite IH, pow256_S. change (ord xff) with 255. lia.
Qed.

Lemma le_value_replicate_00 (n : nat) : le_value (replicate n x00) = 0.
Proof.
  induction n as [|n IH]; [done|].
  cbn [replicate le_value]. rewrite IH. change (ord x00) with 0. lia.
Qed.

Lemma rev_replicate {A : Type} (n : nat) (x : A) :
  rev (replicate n x) = replicate n x.
Proof.
  induction n as [|n IH]; [done|]. simpl. rewrite IH.
  by rewrite <- replicate_cons_app.
Qed.

Lemma be_value_replicate_ff (n : nat) :
  be_value (replicate n xff) = 256 ^ Z.of_nat n - 1.
Proof. by rewrite <- le_value_rev, rev_replicate, le_value_replicate_ff. Qed.

Lemma be_value_replicate_00 (n : nat) : be_value (replicate n x00) = 0.
Proof. by rewrite <- le_value_rev, rev_replicate, le_value_replicate_00. Qed.

Lemma length_pad_00 (x : list byte) (itemsize : Z) :
  itemsize <= Z.of_nat (length (pad_00 x itemsize)).
Proof.
  unfold pad_00, str_repeat. rewrite length_app, length_replicate. lia.
Qed.

Lemma pad_00_long (x : list byte) (itemsize : Z) :
  itemsize <= Z.of_nat (length x) -> pad_00 x itemsize = x.
Proof.
  intros H. unfold pad_00, str_repeat.
  replace (Z.to_nat (itemsize - Z.of_nat (length x))) with 0%nat by lia.
  apply app_nil_r.
Qed.

(** The padding step of [StringNextAfter] is [pad_00]. *)
Lemma pad_step (x : list byte) (itemsize : Z) :
  (if 0 <? itemsize - Z.of_nat (length x)
   then x ++ str_repeat byte_00 (itemsize - Z.of_nat (length x)) else x)
  = pad_00 x itemsize.
Proof.
  destruct (0 <? _) eqn:H; [done|]. apply Z.ltb_ge in H.
  symmetry. apply pad_00_long. lia.
Qed.

Lemma StringNextAfter_succ (x : list byte) (itemsize : Z) :
  let p := pad_00 x itemsize in
  exists y, StringNextAfter (PStr x) 1 itemsize = Ok (PStr y)
    /\ length y = length p
    /\ be_value y = (be_value p + 1) mod 256 ^ Z.of_nat (length p).
Proof.
  intros p. unfold StringNextAfter. cbn [assert Z_in mbind result_bind].
  rewrite pad_step. fold p. unfold list_eq_str.
  change (0 <? 1) with true. cbv iota.
  destruct (succ_loop_value (rev p) []) as (r & Hr & Hlen & Hv).
  simpl in Hr. rewrite Hr. cbn [mbind result_bind].
  exists (rev r). split_and!; [done | by rewrite length_rev, Hlen, length_rev |].
  by rewrite be_value_rev, Hv, le_value_rev, length_rev.
Qed.

Lemma StringNextAfter_pred (x : list byte) (itemsize : Z) :
  let p := pad_00 x itemsize in
  exists y, StringNextAfter (PStr x) (-1) itemsize = Ok (PStr y)
    /\ length y = length p
    /\ be_value y = (be_value p - 1) mod 256 ^ Z.of_nat (length p).
Proof.
  intros p. unfold StringNextAfter. cbn [assert Z_in mbind result_bind].
  rewrite pad_step. fold p. unfold list_eq_str.
  change (0 <? -1) with false. cbv iota.
  destruct (pred_loop_value (rev p) []) as (r & Hr & Hlen & Hv).
  simpl in Hr. rewrite Hr. cbn [mbind result_bind].
  exists (rev r). split_and!; [done | by rewrite length_rev, Hlen, length_rev |].
  by rewrite be_value_rev, Hv, le_value_rev, length_rev.
Qed.
End StringFacts.

(** X1. On a byte string, [StringNextAfter] never fails; its result has
    the length of the string right-padded with [\x00] to [itemsize] bytes,
    and, read as a big-endian number, it is that padded string plus one
    (direction [+1]) or minus one (direction [-1]) modulo [256 ** length]. *)
Theorem StringNextAfter_value (x : list byte) (itemsize : Z) :
  let p := pad_00 x itemsize in
  (exists y, StringNextAfter (PStr x) 1 itemsize = Ok (PStr y)
     /\ length y = length p
     /\ be_value y = (be_value p + 1) mod 256 ^ Z.of_nat (length p))
  /\ (exists y, StringNextAfter (PStr x) (-1) itemsize = Ok (PStr y)
        /\ length y = length p
        /\ be_value y = (be_value p - 1) mod 256 ^ Z.of_nat (length p)).
Proof. split; [apply StringNextAfter_succ | apply StringNextAfter_pred]. Qed.

(** X2. Round trip on byte strings: the predecessor of the successor of
    [x], and the successor of its predecessor, are [x] right-padded with
    [\x00] to [itemsize] bytes, for every [x] (the strings of [\xff] and
    of [\x00] included). *)
Theorem StringNextAfter_round_trip (x : list byte) (itemsize : Z) :
  (y ← StringNextAfter (PStr x) 1 itemsize; StringNextAfter y (-1) itemsize)
    = Ok (PStr (pad_00 x itemsize))
  /\ (y ← StringNextAfter (PStr x) (-1) itemsize; StringNextAfter y 1 itemsize)
     = Ok (PStr (pad_00 x itemsize)).
Proof.
  pose proof (length_pad_00 x itemsize) as Hpad.
  pose proof (be_value_bounds (pad_00 x itemsize)) as Hb.
  set (p := pad_00 x itemsize) in *.
  set (M := 256 ^ Z.of_nat (length p)) in *.
  split.
  - destruct (StringNextAfter_succ x itemsize) as (y & -> & Hlen & Hv).
    cbn [mbind result_bind]. fold p in Hlen, Hv.
    destruct (StringNextAfter_pred y itemsize) as (z & -> & Hlen' & Hv').
    rewrite pad_00_long in Hlen', Hv' by lia.
    do 2 f_equal. apply be_value_inj; [congruence|].
    rewrite Hv', Hv, Hlen. fold M.
    rewrite Zminus_mod_idemp_l. replace (be_value p + 1 - 1) with (be_value p) by lia.
    apply Z.mod_small. lia.
  - destruct (StringNextAfter_pred x itemsize) as (y & -> & Hlen & Hv).
    cbn [mbind result_bind]. fold p in Hlen, Hv.
    destruct (StringNextAfter_succ y itemsize) as (z & -> & Hlen' & Hv').
    rewrite pad_00_long in Hlen', Hv' by lia.
    do 2 f_equal. apply be_value_inj; [congruence|].
    rewrite Hv', Hv, Hlen. fold M.
    rewrite Zplus_mod_idemp_l. replace (be_value p - 1 + 1) with (be_value p) by lia.
    apply Z.mod_small. lia.
Qed.

(** X3. The successor of a byte string is strictly greater than the
    padded string unless every byte of it is [\xff], in which case it
    wraps around to the string of [\x00] bytes; the predecessor is
    strictly smaller unless every byte is [\x00], in which case it wraps
    around to the string of [\xff] bytes. *)
Theorem StringNextAfter_order (x : list byte) (itemsize : Z) :
  let p := pad_00 x itemsize in
  let n := length p in
  (exists y, StringNextAfter (PStr x) 1 itemsize = Ok (PStr y)
     /\ (p <> replicate n xff -> py_lt (PStr p) (PStr y) = true)
     /\ (p = replicate n xff -> y = replicate n x00))
  /\ (exists y, StringNextAfter (PStr x) (-1) itemsize = Ok (PStr y)
        /\ (p <> replicate n x00 -> py_lt (PStr y) (PStr p) = true)
        /\ (p = replicate n x00 -> y = replicate n xff)).
Proof.
  intros p n.
  pose proof (be_value_bounds p) as Hb. fold n in Hb.
  pose proof (pow256_pos n) as Hpos.
  split.
  - destruct (StringNextAfter_succ x itemsize) as (y & Hy & Hlen & Hv).
    fold p n in Hlen, Hv. exists y. split_and!; [done | |].
    + intros Hne. unfold py_lt, py_cmp.
      rewrite bytes_compare_be_value by done.
      assert (be_value p <> 256 ^ Z.of_nat n - 1) as Hne'.
      { intros Heq. apply Hne. apply be_value_inj.
        - by rewrite length_replicate.
        - by rewrite be_value_replicate_ff. }
      rewrite Hv, Z.mod_small by lia.
      by replace (be_value p ?= be_value p + 1) with Lt
        by (symmetry; apply Z.compare_lt_iff; lia).
    + intros Heq. apply be_value_inj; [by rewrite length_replicate|].
      rewrite Hv, be_value_replicate_00, Heq, be_value_replicate_ff.
      replace (256 ^ Z.of_nat n - 1 + 1) with (256 ^ Z.of_nat n) by lia.
      apply Z.mod_same. lia.
  - destruct (StringNextAfter_pred x itemsize) as (y & Hy & Hlen & Hv).
    fold p n in Hlen, Hv. exists y. split_and!; [done | |].
    + intros Hne. unfold py_lt, py_cmp.
      rewrite bytes_compare_be_value by done.
      assert (be_value p <> 0) as Hne'.
      { intros Heq. apply Hne. apply be_value_inj.
        - by rewrite length_replicate.
        - by rewrite be_value_replicate_00. }
      rewrite Hv, Z.mod_small by lia.
      by replace (be_value p - 1 ?= be_value p) with Lt
        by (symmetry; apply Z.compare_lt_iff; lia).
    + intros Heq. apply be_value_inj; [by rewrite length_replicate|].
      rewrite Hv, be_value_replicate_ff, Heq, be_value_replicate_00.
      symmetry. apply (Z.mod_unique_pos _ _ (-1)); lia.
Qed.

Section RangeFacts.
Context {P : Platform}.
Local Open Scope Z_scope.

Lemma py_cmp_int_result_l (l : bool) (z x : Z) :
  py_cmp (int_result l z) (PInt x) = Some (z ?= x).
Proof. unfold int_result. by repeat case_match. Qed.

Lemma py_cmp_int_result_r (l : bool) (z x : Z) :
  py_cmp (PInt x) (int_result l z) = Some (x ?= z).
Proof. unfold int_result. by repeat case_match. Qed.

Lemma compare_leb (x y : Z) :
  match x ?= y with Lt | Eq => true | Gt => false end = (x <=? y).
Proof. unfold Z.leb. by destruct (x ?= y). Qed.

Lemma compare_ltb (x y : Z) :
  match x ?= y with Lt => true | _ => false end = (x <? y).
Proof. unfold Z.ltb. by destruct (x ?= y). Qed.

Lemma compare_geb (x y : Z) :
  match x ?= y with Gt | Eq => true | Lt => false end = (x >=? y).
Proof. unfold Z.geb. by destruct (x ?= y). Qed.

Lemma compare_gtb (x y : Z) :
  match x ?= y with Gt => true | _ => false end = (x >? y).
Proof. unfold Z.gtb. by destruct (x ?= y). Qed.

Lemma compare_eqb (x y : Z) :
  match x ?= y with Eq => true | _ => false end = (x =? y).
Proof. destruct (Z.compare_spec x y), (Z.eqb_spec x y); (done || lia). Qed.

Lemma str_in_5 (x a b c d e : string) :
  str_in x [a; b; c; d; e] = true ->
  x = a \/ x = b \/ x = c \/ x = d \/ x = e.
Proof.
  unfold str_in; simpl. rewrite orb_false_r, !orb_true_iff.
  intros H; repeat destruct H as [H | H]; apply String.eqb_eq in H; auto.
Qed.

(** Decide an equation between comparisons of integers. *)
Ltac bool_lia :=
  rewrite ?Z.geb_leb, ?Z.gtb_ltb; cbn [andb];
  apply Bool.eq_iff_eq_true;
  rewrite ?andb_true_iff, ?Z.leb_le, ?Z.ltb_lt, ?Z.eqb_eq;
  intuition (try discriminate; lia).

(** X4. On an integer column a one-sided query is translated exactly:
    for every integer [x] between the two bounds that [infType] gives
    for the dtype, [x] lies in the closed interval returned by
    [getLookupRange([op], [a])] if and only if [x op a] holds. *)
Theorem getLookupRange_int_one_sided (dt : dtype) (op : string) (a x : Z) (lo hi : pyval) :
  str_in (kind dt) ["i"; "u"] = true ->
  infType dt (itemsize dt) (-1) = Ok lo ->
  infType dt (itemsize dt) 1 = Ok hi ->
  py_le lo (PInt x) = true -> py_le (PInt x) hi = true ->
  str_in op ["lt"; "le"; "eq"; "ge"; "gt"] = true ->
  exists r, getLookupRange dt [op] [PInt a] = Ok r
            /\ in_range r (PInt x) = py_op op (PInt x) (PInt a).
Proof.
  intros Hk Hlo Hhi Hx1 Hx2 Hop. unfold getLookupRange.
  cbn [length assert Z_in existsb Z.of_nat mbind result_bind].
  change (Z.pos (Pos.of_succ_nat 0)) with 1. cbn [Z.eqb orb Pos.eqb].
  cbn [mbind result_bind]. rewrite Hop. cbn [assert mbind result_bind].
  rewrite Hlo, Hhi, !nextafter_int by auto.
  cbn [mbind result_bind].
  apply str_in_5 in Hop as [-> | [-> | [-> | [-> | ->]]]];
    cbn [String.eqb Ascii.eqb Bool.eqb];
    eexists; (split; [reflexivity|]); unfold py_op, in_range;
    cbn [String.eqb Ascii.eqb Bool.eqb]; rewrite ?Hx1, ?Hx2;
    unfold py_le, py_lt, py_ge, py_gt, py_eq;
    rewrite ?py_cmp_int_result_l, ?py_cmp_int_result_r; cbn [py_cmp];
    rewrite ?compare_leb, ?compare_ltb, ?compare_geb, ?compare_gtb, ?compare_eqb;
    bool_lia.
Qed.

End RangeFacts.

Lemma getLookupRange_int_one_sided_witness :
  exists r, getLookupRange (P := LP64) dtype_int8 ["lt"] [PInt 5] = Ok r
            /\ in_range r (PInt 3) = py_op "lt" (PInt 3) (PInt 5).
Proof.
  apply (getLookupRange_int_one_sided (P := LP64) dtype_int8 "lt" 5 3
           (PInt (-128)) (PInt 127)); reflexivity.
Defined.


Section InfTypeFacts.
Context {P : Platform}.
Local Open Scope Z_scope.

Lemma py_cmp_int_values (a b : pyval) (za zb : Z) :
  int_value a = Some za -> int_value b = Some zb ->
  py_cmp a b = Some (za ?= zb).
Proof. destruct a, b; simpl; congruence. Qed.

Lemma int_value_int_neg (v : pyval) (z : Z) :
  int_value v = Some z -> int_value (int_neg v) = Some (- z).
Proof.
  destruct v; cbn [int_value int_neg]; intros [= <-];
    [apply int_value_int_result | done].
Qed.

Lemma int_value_int_pred (v : pyval) (z : Z) :
  int_value v = Some z -> int_value (int_pred v) = Some (z - 1).
Proof.
  destruct v; cbn [int_value int_pred]; intros [= <-];
    [apply int_value_int_result | done].
Qed.

Lemma int_value_int_pow (b e : Z) : int_value (int_pow b e) = Some (b ^ e).
Proof. apply int_value_int_result. Qed.

(** The two bounds of every entry of [infinityMap] are in order. *)
Lemma infinityMap_ordered (nm : string) (lo hi : pyval) :
  dict_get nm infinityMap = Ok (lo, hi) -> py_le lo hi = true.
Proof.
  unfold infinityMap. cbn [dict_get].
  repeat (destruct (String.eqb nm _);
          [intros [= <- <-]; unfold py_le;
           first [ reflexivity
                 | erewrite py_cmp_int_values;
                   [| repeat first [ apply int_value_int_neg
                                   | apply int_value_int_pred
                                   | apply int_value_int_pow
                                   | reflexivity ]..];
                   reflexivity ]
          |]).
  discriminate.
Qed.

Lemma bytes_le_replicate_ff (x : list byte) :
  bytes_compare x (replicate (length x) xff) <> Gt.
Proof.
  rewrite bytes_compare_be_value by (by rewrite length_replicate).
  rewrite be_value_replicate_ff. pose proof (be_value_bounds x).
  intros Hgt. apply Z.compare_gt_iff in Hgt. lia.
Qed.

Lemma bytes_ge_replicate_00 (x : list byte) :
  bytes_compare (replicate (length x) x00) x <> Gt.
Proof.
  rewrite bytes_compare_be_value by (by rewrite length_replicate).
  rewrite be_value_replicate_00. pose proof (be_value_bounds x).
  intros Hgt. apply Z.compare_gt_iff in Hgt. lia.
Qed.

(** X6. [infType] demands a sign of [-1] or [+1] (anything else fails
    the assertion); it raises [TypeError] for a dtype that is neither a
    string nor in [infinityMap]; for every other dtype both bounds exist
    and the lower one is not above the upper one; and for a string dtype
    every string of exactly [itemsize] bytes lies between the two. *)
Theorem infType_bounds (dt : dtype) (isz : Z) :
  (forall sign, sign <> 1 -> sign <> -1 ->
     infType dt isz sign = Raise AssertionError)
  /\ (String.eqb (kind dt) "S" = false ->
      dict_get (name dt) infinityMap = Raise KeyError ->
      infType dt isz (-1) = Raise TypeError /\ infType dt isz 1 = Raise TypeError)
  /\ (String.eqb (kind dt) "S" = true
      \/ (exists v, dict_get (name dt) infinityMap = Ok v) ->
      exists lo hi, infType dt isz (-1) = Ok lo /\ infType dt isz 1 = Ok hi
                    /\ py_le lo hi = true)
  /\ (String.eqb (kind dt) "S" = true ->
      forall x, Z.of_nat (length x) = isz ->
      exists lo hi, infType dt isz (-1) = Ok lo /\ infType dt isz 1 = Ok hi
                    /\ in_range (Some (lo, hi)) (PStr x) = true).
Proof.
  split_and!.
  - intros sign H1 H2. unfold infType, Z_in. cbn [existsb].
    destruct (Z.eqb_spec sign (-1)); [done|].
    destruct (Z.eqb_spec sign 1); done.
  - intros HS Hk. unfold infType. cbn [Z_in existsb Z.eqb orb assert].
    cbn [mbind result_bind]. by rewrite HS, Hk.
  - intros H. unfold infType. cbn [Z_in existsb Z.eqb orb assert].
    cbn [mbind result_bind].
    destruct (String.eqb (kind dt) "S") eqn:HS.
    + eexists _, _. split_and!; [reflexivity..|].
      unfold py_le, py_cmp, str_repeat.
      pose proof (bytes_le_replicate_ff (replicate (Z.to_nat isz) byte_00)) as Hle.
      rewrite length_replicate in Hle. unfold byte_ff.
      by destruct (bytes_compare _ _).
    + destruct H as [|[[lo hi] Hv]]; [done|]. rewrite Hv.
      eexists _, _. split_and!; [reflexivity..|]. cbn.
      by eapply infinityMap_ordered.
  - intros HS x Hx. unfold infType. cbn [Z_in existsb Z.eqb orb assert].
    cbn [mbind result_bind]. rewrite HS.
    eexists _, _. split_and!; [reflexivity..|].
    unfold in_range, py_le, py_cmp, str_repeat, byte_00, byte_ff.
    rewrite <- Hx, Nat2Z.id.
    pose proof (bytes_le_replicate_ff x). pose proof (bytes_ge_replicate_00 x).
    by do 2 destruct (bytes_compare _ _).
Qed.
End InfTypeFacts.

Section NextAfterFacts.
Context {P : Platform}.
Local Open Scope Z_scope.

(** X7. Edge and error behaviour of [nextafter]: a direction other than
    [-1], [0], [+1] fails the first assertion; a string value for a
    dtype that is not a string dtype fails the second; direction [0]
    returns [x] itself, for every dtype; a number given for a string
    dtype raises [TypeError]; and so does every dtype that is neither a
    string, an integer, [float32] nor [float64] (a [bool] column, for
    one). *)
Theorem nextafter_edge_cases (x : pyval) (dt : dtype) (isz : Z) :
  (forall d, d <> -1 -> d <> 0 -> d <> 1 ->
     nextafter x d dt isz = Raise AssertionError)
  /\ (forall s d, String.eqb (kind dt) "S" = false ->
        nextafter (PStr s) d dt isz = Raise AssertionError)
  /\ (String.eqb (kind dt) "S" || type_is_number x = true ->
      nextafter x 0 dt isz = Ok x)
  /\ (forall d, d = 1 \/ d = -1 ->
        String.eqb (kind dt) "S" = true -> type_is_number x = true ->
        nextafter x d dt isz = Raise TypeError)
  /\ (forall d, d = 1 \/ d = -1 ->
        String.eqb (kind dt) "S" = false ->
        str_in (kind dt) ["i"; "u"] = false ->
        String.eqb (name dt) "float32" = false ->
        String.eqb (name dt) "float64" = false ->
        type_is_number x = true ->
        nextafter x d dt isz = Raise TypeError).
Proof.
  split_and!.
  - intros d H1 H2 H3. unfold nextafter, Z_in. cbn [existsb].
    destruct (Z.eqb_spec d (-1)); [done|].
    destruct (Z.eqb_spec d 0); [done|].
    destruct (Z.eqb_spec d 1); done.
  - intros s d HS. unfold nextafter. rewrite HS.
    unfold assert. by destruct (Z_in d [-1; 0; 1]).
  - intros H. unfold nextafter. rewrite H. done.
  - intros d Hd HS Hx. unfold nextafter. rewrite HS.
    destruct Hd as [-> | ->]; cbn [Z_in existsb Z.eqb orb assert mbind result_bind];
      by destruct x.
  - intros d Hd HS Hk H32 H64 Hx. unfold nextafter.
    rewrite HS, Hk, H32, H64, Hx.
    by destruct Hd as [-> | ->].
Qed.
End NextAfterFacts.

Lemma infType_bounds_witness :
  infType (P := LP64) dtype_S2 2 0 = Raise AssertionError
  /\ infType (P := LP64) {| kind := "c"; name := "complex128"; itemsize := 16 |}
       16 1 = Raise TypeError
  /\ (exists lo hi, infType (P := LP64) dtype_int64 8 (-1) = Ok lo
        /\ infType (P := LP64) dtype_int64 8 1 = Ok hi /\ py_le lo hi = true)
  /\ (exists lo hi, infType (P := LP64) dtype_S2 2 (-1) = Ok lo
        /\ infType (P := LP64) dtype_S2 2 1 = Ok hi
        /\ in_range (Some (lo, hi)) (PStr [x41; x7a]) = true).
Proof.
  split_and!.
  - apply (proj1 (infType_bounds (P := LP64) dtype_S2 2) 0); lia.
  - apply (proj1 (proj2 (infType_bounds (P := LP64)
             {| kind := "c"; name := "complex128"; itemsize := 16 |} 16)));
      reflexivity.
  - apply (proj1 (proj2 (proj2 (infType_bounds (P := LP64) dtype_int64 8)))).
    right. eexists. reflexivity.
  - apply (proj2 (proj2 (proj2 (infType_bounds (P := LP64) dtype_S2 2))));
      reflexivity.
Defined.

Lemma nextafter_edge_cases_witness :
  nextafter (P := LP64) (PInt 5) 2 dtype_int8 1 = Raise AssertionError
  /\ nextafter (P := LP64) (PStr [x41]) 1 dtype_int8 1 = Raise AssertionError
  /\ nextafter (P := LP64) (PInt 5) 0 dtype_int8 1 = Ok (PInt 5)
  /\ nextafter (P := LP64) (PInt 5) 1 dtype_S2 2 = Raise TypeError
  /\ nextafter (P := LP64) (PInt 1) 1
       {| kind := "b"; name := "bool"; itemsize := 1 |} 1 = Raise TypeError.
Proof.
  pose proof (nextafter_edge_cases (P := LP64)) as H.
  split_and!.
  - apply (proj1 (H (PInt 5) dtype_int8 1) 2); lia.
  - apply (proj1 (proj2 (H (PInt 0) dtype_int8 1))). reflexivity.
  - apply (proj1 (proj2 (proj2 (H (PInt 5) dtype_int8 1)))). reflexivity.
  - apply (proj1 (proj2 (proj2 (proj2 (H (PInt 5) dtype_S2 2)))) 1);
      [by left | reflexivity..].
  - apply (proj2 (proj2 (proj2 (proj2
             (H (PInt 1) {| kind := "b"; name := "bool"; itemsize := 1 |} 1)))) 1);
      [by left | reflexivity..].
Defined.

(** * More facts about lists: windows, chunks and permutations *)

Lemma getslice_decompose {A : Type} (l : list A) (lo hi : nat) :
  (lo <= hi)%nat -> l = take lo l ++ getslice l lo hi ++ drop hi l.
Proof.
  intros H. unfold getslice.
  rewrite <- (take_drop lo l) at 1. f_equal.
  rewrite <- (take_drop (hi - lo) (drop lo l)) at 1. f_equal.
  rewrite drop_drop. f_equal. lia.
Qed.

(** Two lists of rows that differ inside a window only, where they hold
    the same elements, hold the same elements. *)
Lemma mjoin_window {A : Type} (L L' : list (list A)) (lo hi : nat) :
  (lo <= hi)%nat ->
  (forall i, (i < lo \/ hi <= i)%nat -> L' !! i = L !! i) ->
  mjoin (getslice L' lo hi) ≡ₚ mjoin (getslice L lo hi) ->
  mjoin L' ≡ₚ mjoin L.
Proof.
  intros Hlo Hout Hin.
  rewrite (getslice_decompose L lo hi), (getslice_decompose L' lo hi) by done.
  assert (take lo L' = take lo L) as ->.
  { apply list_eq. intros i. destruct (decide (i < lo)%nat).
    - rewrite !lookup_take_lt by done. apply Hout. lia.
    - by rewrite !lookup_take_ge by lia. }
  assert (drop hi L' = drop hi L) as ->.
  { apply list_eq. intros i. rewrite !lookup_drop. apply Hout. lia. }
  rewrite !join_app. by rewrite Hin.
Qed.

Lemma mjoin_Forall2_Permutation {A : Type} (L L' : list (list A)) :
  Forall2 (≡ₚ) L' L -> mjoin L' ≡ₚ mjoin L.
Proof.
  induction 1 as [|x y L' L Hxy _ IH]; simpl; [done|]. by rewrite Hxy, IH.
Qed.

(** Reading a list at the positions [0 .. length - 1] gives the list. *)
Lemma fmap_lookup_seq {A : Type} `{!Inhabited A} (l : list A) :
  (fun i => l !!! i) <$> seq 0 (length l) = l.
Proof.
  apply list_eq. intros i. rewrite list_lookup_fmap.
  destruct (decide (i < length l)%nat) as [Hi|Hi].
  - rewrite lookup_seq_lt by done. simpl.
    destruct (lookup_lt_is_Some_2 l i Hi) as [x Hx].
    rewrite Hx. f_equal. by apply list_lookup_total_correct.
  - rewrite lookup_seq_ge by lia. symmetry. apply lookup_ge_None. lia.
Qed.

(** Reading a list at a permutation of its positions permutes it. *)
Lemma fmap_lookup_Permutation {A : Type} `{!Inhabited A} (l : list A)
    (idx : list nat) :
  idx ≡ₚ seq 0 (length l) -> (fun i => l !!! i) <$> idx ≡ₚ l.
Proof. intros ->. by rewrite fmap_lookup_seq. Qed.

(** The chunks of size [cs] of a row of [n] chunks. *)
Lemma mjoin_chunks {A : Type} (l : list A) (cs n : nat) :
  length l = (n * cs)%nat ->
  mjoin ((fun j => getslice l (j * cs) (j * cs + cs)) <$> seq 0 n) = l.
Proof.
  revert l. induction n as [|n IH]; intros l Hl.
  - by destruct l.
  - rewrite seq_S, fmap_app, join_app. simpl.
    trans (take (n * cs) l ++ drop (n * cs) l); [|apply take_drop]. f_equal.
    + rewrite <- (IH (take (n * cs) l)) by (rewrite length_take; lia).
      f_equal. apply list_fmap_ext. intros i j Hj.
      apply lookup_seq in Hj as [-> Hj]. simpl.
      apply list_eq. intros k. rewrite !lookup_getslice.
      case_decide; [|done]. rewrite lookup_take_lt by nia. done.
    + rewrite app_nil_r. unfold getslice.
      replace (n * cs + cs - n * cs)%nat with cs by lia.
      apply take_ge. rewrite length_drop. lia.
Qed.

Lemma zip_getslice {A B : Type} (l : list A) (k : list B) (a b : nat) :
  zip (getslice l a b) (getslice k a b) = getslice (zip l k) a b.
Proof. unfold getslice. by rewrite <- zip_with_take, <- zip_with_drop. Qed.

Lemma zip_mjoin_fmap {X A B : Type} (f : X -> list A) (g : X -> list B)
    (xs : list X) :
  (forall x, x ∈ xs -> length (f x) = length (g x)) ->
  zip (mjoin (f <$> xs)) (mjoin (g <$> xs))
  = mjoin ((fun x => zip (f x) (g x)) <$> xs).
Proof.
  induction xs as [|x xs IH]; intros H; [done|].
  rewrite !fmap_cons. cbn [mjoin list_join].
  rewrite zip_with_app by (apply H; left).
  f_equal. apply IH. intros y Hy. apply H. by right.
Qed.

(** A loop over [xrange] that may [break], with an invariant [Q] that
    depends on the number of iterations done and a property [P] of the
    state that ends the loop. *)
Lemma for_loop_seq_break {S : Type} (Q : nat -> S -> Prop) (P : S -> Prop)
    (a n : nat) (body : nat -> S -> result (S * bool)) (s s' : S) :
  Q a s ->
  (forall k s1 s2 b, (a <= k < a + n)%nat -> Q k s1 -> body k s1 = Ok (s2, b) ->
     if b then P s2 else Q (Datatypes.S k) s2) ->
  (forall s1, Q (a + n)%nat s1 -> P s1) ->
  for_loop (seq a n) body s = Ok s' -> P s'.
Proof.
  revert a s. induction n as [|n IH]; intros a s Hs Hbody Hend H.
  - injection H as <-. apply Hend. by rewrite Nat.add_0_r.
  - simpl in H. apply bind_Ok in H as ([s1 b] & Hx & H).
    pose proof (Hbody a s s1 b ltac:(lia) Hs Hx) as H1.
    destruct b; [by injection H as <-|].
    apply (IH (Datatypes.S a) s1); [done | | | exact H].
    + intros k s2 s3 b Hk. apply Hbody. lia.
    + intros s2 H2. apply Hend.
      by replace (a + Datatypes.S n)%nat with (Datatypes.S a + n)%nat by lia.
Qed.

Lemma for_loop_seq_ind {S : Type} (Q : nat -> S -> Prop) (a n : nat)
    (body : nat -> S -> result (S * bool)) (s s' : S) :
  Q a s ->
  (forall k s1 s2 b, (a <= k < a + n)%nat -> Q k s1 -> body k s1 = Ok (s2, b) ->
     if b then Q (a + n)%nat s2 else Q (Datatypes.S k) s2) ->
  for_loop (seq a n) body s = Ok s' -> Q (a + n)%nat s'.
Proof. intros Hs Hbody. by apply (for_loop_seq_break Q). Qed.

Lemma take_idx_Forall2 {A : Type} (l : list A) (idx : list nat) (r : list A) :
  take_idx l idx = Ok r -> Forall2 (fun i x => l !! i = Some x) idx r.
Proof.
  revert r. induction idx as [|i idx IH]; intros r H; simpl in H.
  - injection H as <-. constructor.
  - apply bind_Ok in H as (x & Hx & H). apply bind_Ok in H as (r' & Hr & H).
    injection H as <-. constructor; [by apply getitem_Ok | by apply IH].
Qed.

(** Sorting a row of values and moving the row of their companions by
    the same [argsort] permutes the pairs. *)
Lemma sort_row_pairs {T : Type} (ltb : T -> T -> bool) (row : list T)
    (irow bidx : list nat) :
  length irow = length row ->
  take_idx irow (argsort ltb row) = Ok bidx ->
  length bidx = length row
  /\ zip (sort_values ltb row) bidx ≡ₚ zip row irow.
Proof.
  intros Hlen H. apply take_idx_Forall2 in H.
  split.
  { apply Forall2_length in H. by rewrite <- H, length_argsort. }
  unfold argsort, sort_values in *.
  set (ps := sort_pairs ltb _) in *.
  assert (zip ps.*1 bidx = (fun p : T * nat => (p.1, irow !!! p.2)) <$> ps) as ->.
  { clearbody ps. revert bidx H.
    induction ps as [|[v i] ps IH]; intros bidx H.
    - by inversion H.
    - rewrite !fmap_cons in H. inversion H as [|? x ? bidx' Hx Hrest]; subst.
      rewrite !fmap_cons. cbn [zip_with fst snd]. f_equal.
      + f_equal. symmetry. by apply list_lookup_total_correct.
      + by apply IH. }
  subst ps. rewrite sort_pairs_Permutation.
  trans (zip row ((fun i => irow !!! i) <$> seq 0 (length row))).
  - rewrite zip_with_fmap_r.
    rewrite (zip_with_zip (fun x z => (x, irow !!! z))).
    erewrite list_fmap_ext; [reflexivity|]. by intros ? [? ?] _.
  - by rewrite <- Hlen, fmap_lookup_seq.
Qed.

Lemma mjoin_mjoin {A : Type} (L : list (list (list A))) :
  mjoin (mjoin <$> L) = mjoin (mjoin L).
Proof.
  induction L as [|x L IH]; [done|].
  rewrite fmap_cons. change (mjoin (x :: L)) with (x ++ mjoin L).
  rewrite join_app, <- IH. done.
Qed.

(** [m] blocks of [n] consecutive positions are the positions below
    [m * n]. *)
Lemma seq_blocks {B : Type} (g : nat -> B) (n m : nat) :
  mjoin ((fun i => (fun j => g (i * n + j)%nat) <$> seq 0 n) <$> seq 0 m)
  = g <$> seq 0 (m * n).
Proof.
  induction m as [|m IH]; [done|].
  rewrite seq_S, fmap_app, join_app, IH. simpl. rewrite app_nil_r.
  replace (n + m * n)%nat with (m * n + n)%nat by lia.
  rewrite seq_app, fmap_app. f_equal.
  apply list_eq. intros j. rewrite !list_lookup_fmap.
  destruct (decide (j < n)%nat).
  - rewrite !lookup_seq_lt by done. simpl. f_equal.
  - by rewrite !lookup_seq_ge by lia.
Qed.

Lemma getslice_lookup_total {A : Type} `{!Inhabited A} (L : list A)
    (lo n : nat) :
  (lo + n <= length L)%nat ->
  getslice L lo (lo + n) = (fun i => L !!! (i + lo)%nat) <$> seq 0 n.
Proof.
  intros Hn. apply list_eq. intros i.
  rewrite lookup_getslice, list_lookup_fmap.
  case_decide as Hi.
  - rewrite lookup_seq_lt by lia. simpl.
    destruct (lookup_lt_is_Some_2 L (lo + i)) as [x Hx]; [lia|].
    rewrite Hx. f_equal. symmetry. apply list_lookup_total_correct.
    by rewrite Nat.add_comm.
  - by rewrite lookup_seq_ge by lia.
Qed.

Lemma length_getslice_full {A : Type} (l : list A) (a b : nat) :
  length (getslice l a b) = (b - a)%nat -> (a < b)%nat -> (b <= length l)%nat.
Proof. unfold getslice. rewrite length_take, length_drop. lia. Qed.

(** *** Chunks of a block *)

Lemma chunk_at_block {A : Type} (cs ncs offset : nat) (rows : list (list A))
    (i j : nat) :
  (j < ncs)%nat ->
  chunk_at cs ncs offset rows (i * ncs + j)
  = getslice (rows !!! (i + offset)%nat) (j * cs) (j * cs + cs).
Proof.
  intros Hj. unfold chunk_at.
  assert ((i * ncs + j) / ncs = i)%nat as ->.
  { rewrite Nat.div_add_l by lia. rewrite Nat.div_small by done. lia. }
  replace (i * ncs + j - i * ncs)%nat with j by lia. done.
Qed.

(** The chunks of a window of [m] rows, in order, hold what the rows
    hold. *)
Lemma window_chunks {A : Type} (cs ncs offset m : nat) (rows : list (list A)) :
  Forall (fun r => length r = (ncs * cs)%nat) rows ->
  (offset + m <= length rows)%nat ->
  mjoin (chunk_at cs ncs offset rows <$> seq 0 (m * ncs))
  = mjoin (getslice rows offset (offset + m)).
Proof.
  intros Hrows Hm.
  rewrite <- (seq_blocks (chunk_at cs ncs offset rows) ncs m).
  rewrite <- mjoin_mjoin. f_equal.
  rewrite getslice_lookup_total by done.
  rewrite <- list_fmap_compose. apply list_fmap_ext.
  intros i x Hi. apply lookup_seq in Hi as [-> Hi]. simpl.
  destruct (lookup_lt_is_Some_2 rows (i + offset)) as [r Hr]; [lia|].
  pose proof (Forall_lookup_1 _ _ _ _ Hrows Hr) as Lr. simpl in Lr.
  rewrite <- (mjoin_chunks (rows !!! (i + offset)%nat) cs ncs)
    by (by rewrite (list_lookup_total_correct _ _ _ Hr)).
  f_equal. apply list_fmap_ext. intros j y Hj.
  apply lookup_seq in Hj as [-> Hj]. simpl. by apply chunk_at_block.
Qed.

(** Gathering the chunks of a window in the order given by a permutation
    of their positions permutes the elements of the window. *)
Lemma gather_Permutation {A : Type} (cs ncs offset m : nat)
    (rows : list (list A)) (sidx : list nat) :
  Forall (fun r => length r = (ncs * cs)%nat) rows ->
  (offset + m <= length rows)%nat ->
  sidx ≡ₚ seq 0 (m * ncs) ->
  mjoin (chunk_at cs ncs offset rows <$> sidx)
  ≡ₚ mjoin (getslice rows offset (offset + m)).
Proof.
  intros Hrows Hm ->. by rewrite window_chunks.
Qed.

(** The window of slices that [swap_chunks] handles in block [k]: [ncb3]
    chunks make [nsl] whole slices, which are the slices of the block
    that exist. *)
Lemma block_window (ncs nsb n nch k ncb2 ncb3 : nat) :
  (0 < ncs)%nat -> (n * ncs <= nch)%nat ->
  ncb2 = (ncs * nsb)%nat \/ (nch < k * (ncs * nsb) /\ 0 < ncs * nsb)%nat ->
  (if decide (nch - k * (ncs * nsb) < ncs * nsb)%nat
   then ncb3 = ((nch - k * (ncs * nsb)) / ncs * ncs)%nat else ncb3 = ncb2) ->
  (k * (ncs * nsb) + ncb3 <= n * ncs)%nat ->
  ncb3 = (ncb3 / ncs * ncs)%nat
  /\ (k * nsb + ncb3 / ncs <= n)%nat
  /\ Nat.min (k * nsb + nsb) n = (k * nsb + ncb3 / ncs)%nat
  /\ (ncb3 = (ncs * nsb)%nat
      \/ (nch < Datatypes.S k * (ncs * nsb) /\ 0 < ncs * nsb)%nat).
Proof.
  intros Hncs Hn Hncb Hncb3 Hin. case_decide as Hrem.
  - set (q := ((nch - k * (ncs * nsb)) / ncs)%nat) in *.
    assert (ncb3 / ncs = q)%nat as Hq by (subst ncb3; apply Nat.div_mul; lia).
    rewrite Hq.
    assert (n - k * nsb <= q)%nat.
    { subst q. apply Nat.div_le_lower_bound; [lia|]. nia. }
    split_and!; [done | nia | nia |]. right. lia.
  - assert (ncb2 = ncs * nsb)%nat as -> by lia. subst ncb3.
    assert (ncs * nsb / ncs = nsb)%nat as ->
      by (rewrite Nat.mul_comm; apply Nat.div_mul; lia).
    split_and!; [lia | nia | nia | by left].
Qed.

(** One step of the loop of [swap_chunks] that gathers the chunks of a
    slice in a buffer: chunk [j] of the buffer receives the chunk that
    position [f j] of the bounds refers to. *)
Lemma gather_step {A : Type} (cs ncs lo : nat) (rows : list (list A))
    (buf buf' : list A) (f : nat -> nat) (j idx : nat) (row : list A) :
  (0 < cs)%nat -> (j < ncs)%nat -> length buf = (ncs * cs)%nat ->
  Forall (fun r => length r = (ncs * cs)%nat) rows ->
  rows !! (idx / ncs + lo)%nat = Some row ->
  f j = idx ->
  setslice buf (j * cs) cs
    (getslice row ((idx - idx / ncs * ncs) * cs)
                  ((idx - idx / ncs * ncs) * cs + cs)) = Ok buf' ->
  take (j * cs) buf
  = mjoin ((fun j' => chunk_at cs ncs lo rows (f j')) <$> seq 0 j) ->
  length buf' = (ncs * cs)%nat
  /\ take (Datatypes.S j * cs) buf'
     = mjoin ((fun j' => chunk_at cs ncs lo rows (f j')) <$> seq 0 (Datatypes.S j)).
Proof.
  intros Hcs Hj Lbuf Hrows Hrow Hf Hset Htake.
  pose proof (Forall_lookup_1 _ _ _ _ Hrows Hrow) as Lrow. simpl in Lrow.
  assert (idx - idx / ncs * ncs < ncs)%nat as Hmod.
  { pose proof (Nat.div_mod_eq idx ncs).
    pose proof (Nat.mod_upper_bound idx ncs). lia. }
  set (chunk := getslice row _ _) in *.
  assert (length chunk = cs) as Lchunk.
  { subst chunk. rewrite length_getslice by nia. lia. }
  apply setslice_Ok_exact in Hset as ->; [|nia|done].
  split; [rewrite <- Lbuf; apply length_seg; [done|nia]|].
  rewrite seq_S, fmap_app, join_app, <- Htake. simpl. rewrite app_nil_r.
  rewrite Hf. unfold chunk_at.
  rewrite (list_lookup_total_correct _ _ _ Hrow). fold chunk.
  rewrite app_assoc. apply take_app_length'.
  rewrite length_app, length_take. nia.
Qed.

(** Sorting a row and shifting the positions that [argsort] returns by
    [off] pairs every value with its position counted from [off]. *)
Lemma sort_row_offset {T : Type} (ltb : T -> T -> bool) (arr : list T)
    (off : nat) :
  zip (sort_values ltb arr) ((fun i => i + off)%nat <$> argsort ltb arr)
  ≡ₚ zip arr (seq off (length arr)).
Proof.
  unfold sort_values, argsort.
  set (ps := sort_pairs ltb _).
  rewrite zip_with_fmap_r, zip_with_fst_snd.
  subst ps. rewrite sort_pairs_Permutation.
  rewrite <- zip_with_zip, <- (zip_with_fmap_r pair).
  assert ((fun i => i + off)%nat <$> seq 0 (length arr)
          = seq off (length arr)) as ->; [|done].
  apply list_eq. intros k. rewrite list_lookup_fmap.
  destruct (decide (k < length arr)%nat).
  - rewrite !lookup_seq_lt by done. simpl. f_equal. lia.
  - by rewrite !lookup_seq_ge by lia.
Qed.

(** * Further properties of the index *)

Section IndexMore.
Local Open Scope nat_scope.
Context {T C : Type} {env : IndexEnv T C}.
Implicit Types (s : Index T C).

(** X8. The counters of the index: [nblocks] and [nsuperblocks] are the
    least numbers of blocks and of superblocks that hold [nelements]
    values, [nslices] and [nchunks] the numbers of complete slices and
    chunks; each of them raises [ZeroDivisionError] when the size it
    divides by is [0]. *)
Theorem block_counts s :
  (blocksize s = 0 -> nblocks s = Raise ZeroDivisionError)
  /\ (superblocksize s = 0 -> nsuperblocks s = Raise ZeroDivisionError)
  /\ (slicesize s = 0 -> nslices s = Raise ZeroDivisionError)
  /\ (chunksize s = 0 -> nchunks s = Raise ZeroDivisionError)
  /\ (0 < blocksize s ->
      exists n, nblocks s = Ok n /\ nelements s <= n * blocksize s
                /\ forall m, nelements s <= m * blocksize s -> n <= m)
  /\ (0 < superblocksize s ->
      exists n, nsuperblocks s = Ok n /\ nelements s <= n * superblocksize s
                /\ forall m, nelements s <= m * superblocksize s -> n <= m)
  /\ (0 < slicesize s ->
      exists n, nslices s = Ok n
                /\ n * slicesize s <= nelements s < (n + 1) * slicesize s)
  /\ (0 < chunksize s ->
      exists n, nchunks s = Ok n
                /\ n * chunksize s <= nelements s < (n + 1) * chunksize s).
Proof.
  assert (forall a b, 0 < b ->
            let n := if decide (0 < a `mod` b) then a / b + 1 else a / b in
            a <= n * b /\ forall m, a <= m * b -> n <= m) as Hceil.
  { intros a b Hb n. pose proof (Nat.div_mod_eq a b) as Hdm.
    pose proof (Nat.mod_upper_bound a b) as Hm. subst n.
    case_decide; split; try nia; intros m Hle;
      destruct (decide (a / b + 1 <= m)); try nia. }
  assert (forall a b, 0 < b -> a / b * b <= a < (a / b + 1) * b) as Hfloor.
  { intros a b Hb. pose proof (Nat.div_mod_eq a b) as Hdm.
    pose proof (Nat.mod_upper_bound a b) as Hm. nia. }
  unfold nblocks, nsuperblocks, nslices, nchunks, py_div.
  split_and!; try (intros ->; by rewrite decide_True by done).
  - intros H. rewrite decide_False by lia. cbn [mbind result_bind].
    eexists. split; [done|]. by apply Hceil.
  - intros H. rewrite decide_False by lia. cbn [mbind result_bind].
    eexists. split; [done|]. by apply Hceil.
  - intros H. rewrite decide_False by lia. eexists. split; [done|].
    by apply Hfloor.
  - intros H. rewrite decide_False by lia. eexists. split; [done|].
    by apply Hfloor.
Qed.

(** *** The last-row arrays *)

Lemma append_frame arr s s' :
  append arr s = Ok s' ->
  superblocksize s' = superblocksize s /\ blocksize s' = blocksize s
  /\ slicesize s' = slicesize s /\ chunksize s' = chunksize s
  /\ type_ s' = type_ s /\ reord_opts s' = reord_opts s
  /\ sortedLR s' = sortedLR s /\ indicesLR s' = indicesLR s
  /\ bebounds s' = bebounds s
  /\ tmp s' = tmp s /\ starts s' = starts s /\ lengths s' = lengths s
  /\ limboundscache s' = limboundscache s /\ log s' = log s
  /\ verbose s' = verbose s /\ last_tover s' = last_tover s
  /\ dirtycache s' = true.
Proof.
  intros H. unfold append in H. inv_bind H. injection H as <-.
  simpl_state. by split_and!.
Qed.

Lemma appendLastRow_frame arr tnrows s s' :
  appendLastRow arr tnrows s = Ok s' ->
  superblocksize s' = superblocksize s /\ blocksize s' = blocksize s
  /\ slicesize s' = slicesize s /\ chunksize s' = chunksize s
  /\ type_ s' = type_ s /\ reord_opts s' = reord_opts s
  /\ node s' = node s
  /\ length (sortedLR s') = length (sortedLR s)
  /\ length (indicesLR s') = length (indicesLR s)
  /\ tmp s' = tmp s /\ starts s' = starts s /\ lengths s' = lengths s
  /\ limboundscache s' = limboundscache s /\ log s' = log s
  /\ verbose s' = verbose s /\ last_tover s' = last_tover s
  /\ dirtycache s' = true.
Proof.
  intros H. unfold appendLastRow in H. inv_bind H. injection H as <-.
  simpl_state.
  repeat match goal with H : setslice _ _ _ _ = Ok _ |- _ =>
    apply setslice_Ok_length in H end.
  rewrite length_insert. split_and!; try done; congruence.
Qed.

Lemma same_frame_lr s s' : same_frame s s' -> lr_ok s -> lr_ok s'.
Proof.
  unfold same_frame, lr_ok. intros ?; destruct_and!.
  repeat match goal with H : _ s' = _ s |- _ => rewrite H end. done.
Qed.

Lemma reachable_lr s : reachable s -> lr_ok s.
Proof.
  induction 1 as [sbs bs ss cs ty ro s Hsz Hnew
                 | s arr s' Hs IH H
                 | s arr tnrows s' Hs IH H
                 | s level v s' Hs IH H
                 | s item n s' Hs IH H
                 | s what mode s' stop Hs IH H
                 | s s' Hs IH H
                 | s mode s' Hs IH H
                 | s mode nblock s' Hs IH H
                 | s mode s' Hs IH H
                 | s s' Hs IH H];
    try (destruct (reachable_inv _ Hs) as [(cs & ncs & Hinv) _]).
  - unfold Index_new in Hnew. inv_bind Hnew. injection Hnew as <-.
    inv_reads. unfold lr_ok. simpl_state. cbn [length].
    rewrite !length_replicate. split; lia.
  - apply append_frame in H. destruct_and!. unfold lr_ok in *. congruence.
  - apply appendLastRow_frame in H. destruct_and!. unfold lr_ok in *. congruence.
  - apply (optimize_Ok cs ncs) in H as [_ ?]; [|done]. by eapply same_frame_lr.
  - apply search_core_eq, search_core_frame in H. by eapply same_frame_lr.
  - apply (swap_Ok cs ncs) in H as [_ ?]; [|done]. by eapply same_frame_lr.
  - apply (create_temps_Ok cs ncs) in H as [_ ?]; [|done]. by eapply same_frame_lr.
  - apply (swap_chunks_Ok cs ncs) in H as [_ ?]; [|done]. by eapply same_frame_lr.
  - apply (reorder_slices_Ok cs ncs) in H as (_ & ? & _); [|done].
    by eapply same_frame_lr.
  - apply (swap_slices_Ok cs ncs) in H as [_ ?]; [|done]. by eapply same_frame_lr.
  - apply (cleanup_temps_Ok cs ncs) in H as [_ ?]; [|done]. by eapply same_frame_lr.
Qed.

Lemma length_stride_from_ceil {A : Type} (l : list A) (cs : nat) :
  0 < cs -> 0 < length l ->
  length (stride_from l 0 cs (length l)) = (length l - 1) / cs + 1.
Proof.
  intros Hcs Hl.
  pose proof (Nat.div_mod_eq (length l - 1) cs) as Hdm.
  pose proof (Nat.mod_upper_bound (length l - 1) cs) as Hm.
  apply length_from_lookup.
  - intros j Hj. rewrite lookup_stride_from by done.
    apply lookup_lt_is_Some. nia.
  - rewrite lookup_stride_from by done. apply lookup_ge_None. nia.
Qed.

(** What a successful [appendLastRow] has written, on a reachable
    state. *)
Lemma appendLastRow_written arr tnrows s s' :
  reachable s -> appendLastRow arr tnrows s = Ok s' ->
  let r := sort_values val_ltb arr in
  let k := length arr in
  let n := length (sorted (node s)) in
  let nb := (k - 1) / chunksize s + 2 in
  0 < chunksize s /\ 0 < k <= slicesize s
  /\ tnrows = n * slicesize s + k
  /\ bebounds s' = stride_from r 0 (chunksize s) k ++ [default val_garbage (last r)]
  /\ last r = Some (default val_garbage (last r))
  /\ length (bebounds s') = nb
  /\ getslice (sortedLR s') 0 nb = bebounds s'
  /\ getslice (sortedLR s') nb (nb + k) = r
  /\ last (indicesLR s') = Some k
  /\ (k < slicesize s ->
      take k (indicesLR s') = (fun i => i + n * slicesize s) <$> argsort val_ltb arr).
Proof.
  intros Hs H r k n nb. subst n nb.
  destruct (reachable_inv _ Hs) as [(cs & ncs & Hinv) _].
  destruct (reachable_lr _ Hs) as [LsLR LiLR].
  destruct Hinv as (Hcs & Hncs & Ec & Es & _).
  unfold appendLastRow in H. rewrite take_idx_argsort in H.
  cbn [mbind result_bind] in H. fold r in H. inv_bind H. injection H as <-.
  simpl_state. inv_reads.
  match goal with H : bool_decide _ = true |- _ =>
    apply bool_decide_eq_true in H as [Hoff Hk] end.
  assert (length r = k) as Hr by apply length_sort_values.
  rewrite Hr in *.
  assert (0 < k) as Hkpos.
  { match goal with H : last r = Some _ |- _ =>
      apply last_Some in H as (l' & Hl') end.
    apply (f_equal length) in Hl'. rewrite length_app in Hl'. simpl in Hl'. lia. }
  rewrite Ec, Es in *. rewrite nbounds_inslice_chunks in LsLR by done.
  match goal with H : setslice (indicesLR s) 0 _ _ = Ok ?l |- _ =>
    rename H into Hi; rename l into iLR end.
  assert (k <= ncs * cs) as Hkss.
  { unfold setslice in Hi. rewrite length_fmap, length_argsort in Hi.
    fold k in Hi. rewrite LiLR in Hi.
    case_decide as Hd; [lia|].
    destruct (argsort val_ltb arr) as [|? [|? ?]] eqn:Ha; try discriminate.
    apply (f_equal length) in Ha. rewrite length_argsort in Ha. simpl in Ha.
    fold k in Ha. nia. }
  assert (length (stride_from r 0 cs k) = (k - 1) / cs + 1) as Lstride.
  { rewrite <- Hr at 1. rewrite length_stride_from_ceil by lia. by rewrite Hr. }
  assert ((k - 1) / cs <= ncs - 1) as Hnb.
  { rewrite <- (nbounds_inslice_chunks ncs cs) by done.
    apply Nat.Div0.div_le_mono. lia. }
  match goal with H : last r = Some ?v |- _ => rename H into Hlast end.
  rewrite Hlast. cbn [default].
  assert (length (stride_from r 0 cs k ++ [x1]) = (k - 1) / cs + 2) as Lbe.
  { rewrite length_app, Lstride. simpl. lia. }
  match goal with H : setslice (sortedLR s) 0 _ _ = Ok ?l |- _ =>
    rename H into H1; rename l into sLR1 end.
  match goal with H : setslice sLR1 _ _ _ = Ok ?l |- _ =>
    rename H into H2; rename l into sLR2 end.
  rewrite Lbe in *.
  pose proof (setslice_Ok_length _ _ _ _ _ H1) as L1.
  apply setslice_Ok_exact in H1; [|lia|done].
  apply setslice_Ok_exact in H2; [|lia|done].
  split_and!; try done.
  - lia.
  - rewrite H2. rewrite getslice_seg_other by (try done; lia).
    rewrite H1. change ((k - 1) / cs + 2) with (0 + ((k - 1) / cs + 2)).
    by apply getslice_seg_same; [|lia].
  - rewrite H2. apply getslice_seg_same; [done | lia].
  - pose proof (setslice_Ok_length _ _ _ _ _ Hi) as Li.
    rewrite last_lookup, length_insert.
    replace (pred (length iLR)) with (length iLR - 1) by lia.
    rewrite list_lookup_insert_eq by lia. f_equal. lia.
  - intros Hlt. pose proof (setslice_Ok_length _ _ _ _ _ Hi) as Li.
    rewrite take_insert_ge by lia.
    apply setslice_Ok_exact in Hi;
      [|lia | by rewrite length_fmap, length_argsort].
    rewrite Hi, take_0. cbn [app].
    rewrite take_app_length'; [done|]. by rewrite length_fmap, length_argsort.
Qed.

(** X9. What [appendLastRow] stores can be read back.  After a
    successful call on a reachable index with the [k] values [arr]
    ([0 < k <= slicesize]), [bebounds] holds every [chunksize]-th value
    of the sorted values followed by the last one; [sortedLR] holds
    [bebounds] in its first [len(bebounds)] places and the sorted values
    right after them; the last entry of [indicesLR] is [k]; and, when
    [k < slicesize], the first [k] entries of [indicesLR] are the
    positions of the sorted values in the table. *)
Theorem appendLastRow_read_back arr tnrows s s' :
  reachable s -> appendLastRow arr tnrows s = Ok s' ->
  let r := sort_values val_ltb arr in
  let k := length arr in
  let n := length (sorted (node s)) in
  let nb := length (bebounds s') in
  0 < k <= slicesize s
  /\ nb = (k - 1) / chunksize s + 2
  /\ (forall j, j + 1 < nb -> bebounds s' !! j = r !! (j * chunksize s))
  /\ last (bebounds s') = last r
  /\ getslice (sortedLR s') 0 nb = bebounds s'
  /\ getslice (sortedLR s') nb (nb + k) = r
  /\ last (indicesLR s') = Some k
  /\ (k < slicesize s ->
      take k (indicesLR s')
      = (fun i => i + n * slicesize s) <$> argsort val_ltb arr).
Proof.
  intros Hs H r k n nb.
  destruct (appendLastRow_written _ _ _ _ Hs H)
    as (Hcs & Hk & _ & Hbe & Hlast & Lbe & Hread1 & Hread2 & Hi & Hidx).
  fold r k in Hbe, Hlast, Lbe, Hread1, Hread2, Hi, Hidx.
  subst nb. rewrite Lbe. split_and!; try done; try (subst k; lia).
  - intros j Hj. rewrite Hbe.
    assert (length (stride_from r 0 (chunksize s) k) = (k - 1) / chunksize s + 1)
      as Lst.
    { rewrite Hbe, length_app in Lbe. simpl in Lbe. lia. }
    rewrite lookup_app_l by lia.
    change k with (length arr).
    rewrite <- (length_sort_values val_ltb arr). fold r.
    by rewrite lookup_stride_from.
  - rewrite Hbe, last_snoc. done.
Qed.

(** X10. Round trip through the file: an index object opened on what a
    successful [appendLastRow] has left on disk has the same [nrows],
    [nelements], [nelementsLR] and [bebounds] as the object that wrote
    it, over the same arrays and sizes. *)
Theorem Index_open_after_appendLastRow arr tnrows s s' :
  reachable s -> appendLastRow arr tnrows s = Ok s' ->
  exists s'', Index_open s' = Ok s''
    /\ nrows s'' = nrows s' /\ nelements s'' = nelements s'
    /\ nelementsLR s'' = nelementsLR s' /\ bebounds s'' = bebounds s'
    /\ node s'' = node s' /\ sortedLR s'' = sortedLR s'
    /\ indicesLR s'' = indicesLR s'
    /\ slicesize s'' = slicesize s' /\ chunksize s'' = chunksize s'.
Proof.
  intros Hs H.
  destruct (appendLastRow_written _ _ _ _ Hs H)
    as (Hcs & Hk & _ & _ & _ & Lbe & Hread1 & _ & Hi & _).
  pose proof (appendLastRow_Ok _ _ _ _ H)
    as (Hnode & _ & Hss & Hcs' & _ & Hlr & Hrows & Hne).
  unfold Index_open. unfold getlast. rewrite Hi. cbn [mbind result_bind].
  rewrite Hcs'. destruct (decide (chunksize s = 0)) as [|_]; [lia|].
  cbn [mbind result_bind].
  set (k := length arr) in *.
  assert (((Z.of_nat k - 1) `div` Z.of_nat (chunksize s))%Z
          = Z.of_nat ((k - 1) / chunksize s)) as ->.
  { rewrite Nat2Z.inj_div, Nat2Z.inj_sub by lia. done. }
  replace (Z.of_nat ((k - 1) / chunksize s) <? 0)%Z with false
    by (symmetry; apply Z.ltb_ge; lia).
  replace (Z.to_nat (Z.of_nat ((k - 1) / chunksize s) + 2))
    with ((k - 1) / chunksize s + 2) by lia.
  eexists. split; [reflexivity|]. simpl_state.
  rewrite decide_True by lia. rewrite Hread1, Hnode, Hss, Hrows, Hne, Hlr.
  by split_and!.
Qed.

(** X11. [append] does not touch the last-row arrays: after an
    [appendLastRow] of [k] values followed by an [append], the object in
    memory has [nelementsLR = 0], but the count stored at the end of
    [indicesLR] is still [k], so an index object opened on the file
    counts [k] elements and one row more than the object that wrote
    it. *)
Theorem Index_open_after_append arrLR tnrows arr s s1 s2 :
  reachable s -> appendLastRow arrLR tnrows s = Ok s1 -> append arr s1 = Ok s2 ->
  sortedLR s2 = sortedLR s1 /\ indicesLR s2 = indicesLR s1
  /\ bebounds s2 = bebounds s1
  /\ nelementsLR s2 = Some 0
  /\ exists s3, Index_open s2 = Ok s3
       /\ nelementsLR s3 = Some (length arrLR)
       /\ nelements s3 = nelements s2 + length arrLR
       /\ nrows s3 = nrows s2 + 1.
Proof.
  intros Hs H1 H2.
  destruct (appendLastRow_written _ _ _ _ Hs H1)
    as (Hcs & Hk & _ & _ & _ & _ & _ & _ & Hi & _).
  pose proof (appendLastRow_Ok _ _ _ _ H1)
    as (Hnode & _ & Hss & Hcs' & _ & _).
  pose proof (reach_appendLastRow _ _ _ _ Hs H1) as Hs1.
  destruct (reachable_inv _ Hs1) as [(cs & ncs & Hinv) _].
  pose proof (append_frame _ _ _ H2) as Hfr. destruct_and!.
  apply (append_Ok cs ncs) in H2 as (_ & _ & Hsorted & Hrows & Hne & Hlr);
    [|done].
  split_and!; try done.
  unfold Index_open, getlast.
  repeat match goal with H : _ s2 = _ s1 |- _ => rewrite H end.
  rewrite Hi. cbn [mbind result_bind].
  rewrite Hcs'. destruct (decide (chunksize s = 0)) as [|_]; [lia|].
  cbn [mbind result_bind].
  eexists. split; [reflexivity|]. simpl_state.
  rewrite decide_True by lia. rewrite Hsorted, length_app, Hrows, Hne.
  simpl. split_and!; [done | lia | lia].
Qed.

(** *** What the optimizer leaves alone *)

(** Take a successful run apart, branch by branch. *)
Ltac inv_run :=
  repeat match goal with
  | H : (_ ≫= _) = Ok _ |- _ =>
      let x := fresh "x" in apply bind_Ok in H as (x & ? & H)
  | H : Raise _ = Ok _ |- _ => discriminate H
  | H : Ok _ = Ok _ |- _ => injection H as ?; simplify_eq
  | H : match ?c with _ => _ end = Ok _ |- _ => destruct c eqn:?
  end.

Lemma create_temps_core s s' :
  create_temps s = Ok s' -> opt_core s' = opt_core s.
Proof. intros H. unfold create_temps in H. inv_run. done. Qed.

Lemma cleanup_temps_core s s' :
  cleanup_temps s = Ok s' -> opt_core s' = opt_core s /\ tmp s' = None.
Proof. intros H. unfold cleanup_temps in H. inv_run. done. Qed.

Lemma reorder_slices_core mode nblock s s' :
  reorder_slices mode nblock s = Ok s' -> opt_core s' = opt_core s.
Proof.
  intros H. unfold reorder_slices in H. inv_bind H. revert H.
  apply (for_loop_ind (fun s1 => opt_core s1 = opt_core s)); [done|].
  intros nslice s1 s2 b _ H1 Hb. rewrite <- H1. clear H1.
  case_decide; inv_run; done.
Qed.

Lemma swap_chunks_core mode s s' :
  swap_chunks mode s = Ok s' -> opt_core s' = opt_core s.
Proof.
  intros H. unfold swap_chunks in H. inv_bind H. injection H as <-.
  match goal with H : for_loop _ _ _ = Ok _ |- _ => revert H end.
  apply (for_loop_ind (fun st : nat * list T * list nat * Index T C =>
           opt_core st.2 = opt_core s)); [done|].
  intros nblock [[[ncb2 ts] ti] s1] [[[ncb2' ts'] ti'] s2] b _.
  cbn [snd]. intros H1 Hb. rewrite <- H1. clear H1.
  inv_bind Hb.
  case_decide; [by injection Hb as <- <- <- <- <-|].
  inv_bind Hb.
  case_decide; [by injection Hb as <- <- <- <- <-|].
  inv_bind Hb. injection Hb as <- <- <- <- <-.
  match goal with H : reorder_slices _ _ _ = Ok _ |- _ =>
    apply reorder_slices_core in H as -> end.
  match goal with H : for_each _ _ _ = Ok _ |- _ => revert H end.
  apply (for_each_ind (fun st : list T * list nat * Index T C =>
           opt_core st.2 = opt_core s1)); [done|].
  intros k [[ts1 ti1] s3] [[ts2 ti2] s4] _. cbn [snd].
  intros H3 Hb. rewrite <- H3. clear H3.
  inv_bind Hb. by injection Hb as <- <- <-.
Qed.

Lemma swap_slices_core mode s s' :
  swap_slices mode s = Ok s' -> opt_core s' = opt_core s.
Proof.
  intros H. unfold swap_slices in H. inv_bind H. injection H as <-.
  match goal with H : for_loop _ _ _ = Ok _ |- _ => revert H end.
  apply (for_loop_ind (fun st : nat * Index T C =>
           opt_core st.2 = opt_core s)); [done|].
  intros sblock [nss2 s1] [nss2' s2] b _. cbn [snd].
  intros H1 Hb. rewrite <- H1. clear H1.
  inv_bind Hb.
  case_decide; [by injection Hb as <- <- <-|].
  inv_bind Hb.
  case_decide; [by injection Hb as <- <- <-|].
  inv_bind Hb. injection Hb as <- <- <-.
  match goal with
  | H1 : for_each _ _ s1 = Ok ?s3, H2 : for_each _ _ ?s3 = Ok ?s4 |- _ =>
      transitivity (opt_core s3);
      [revert H2; apply (for_each_ind (fun s2 : Index T C =>
                           opt_core s2 = opt_core s3)); [done|]
      |revert H1; apply (for_each_ind (fun s2 : Index T C =>
                           opt_core s2 = opt_core s1)); [done|]]
  end;
    intros k s3 s4 _ H3 Hb; rewrite <- H3; inv_bind Hb; by injection Hb as <-.
Qed.

(** [swap] and [optimize] keep what their steps keep. *)
Lemma swap_stable (Q : Index T C -> Prop) what mode s s' stop :
  stable Q -> Q s -> swap what mode s = Ok (s', stop) -> Q s'.
Proof.
  intros (Hlog & Hlast & _ & Hcreate & _ & Hchunks & Hslices) HQ H.
  unfold swap in H. inv_bind H.
  match goal with H : _ = Ok ?s1 |- _ =>
    match type of H with context [create_temps] =>
      assert (Q s1) as HQ1; [rename H into Hstep|] end end.
  { destruct (String.eqb what "create");
      [|destruct (String.eqb what "chunks");
        [|destruct (String.eqb what "slices")]].
    - eapply Hcreate; [|done]. by apply Hlog.
    - eapply Hchunks; [|done]. by apply Hlog.
    - eapply Hslices; [|done]. by apply Hlog.
    - injection Hstep as <-. by apply Hlog. }
  repeat case_match; injection H as <- <-; auto.
Qed.

Lemma swap_or_break_stable (Q : Index T C -> Prop) what mode rest :
  stable Q -> (forall s1 s2, Q s1 -> rest s1 = Ok s2 -> Q s2) ->
  forall s1 s2, Q s1 -> swap_or_break what mode rest s1 = Ok s2 -> Q s2.
Proof.
  intros HQ Hrest s s' Hs H. unfold swap_or_break in H.
  apply bind_Ok in H as ([s3 stop] & Hswap & H).
  eapply swap_stable in Hswap; [|done..].
  destruct stop; [by injection H as <-|]. by eapply Hrest.
Qed.

Lemma when_swap_or_break_stable (Q : Index T C -> Prop) cond what mode rest :
  stable Q -> (forall s1 s2, Q s1 -> rest s1 = Ok s2 -> Q s2) ->
  forall s1 s2, Q s1 -> when_swap_or_break cond what mode rest s1 = Ok s2 ->
                Q s2.
Proof.
  intros HQ Hrest. unfold when_swap_or_break. destruct cond; [|done].
  by apply swap_or_break_stable.
Qed.

Lemma Ok_stable (Q : Index T C -> Prop) :
  forall s1 s2, Q s1 -> @Ok (Index T C) s1 = Ok s2 -> Q s2.
Proof. by intros ? ? ? [= <-]. Qed.

Lemma optimize_stable (Q : Index T C -> Prop) level v s s' :
  stable Q -> Q (set_last_tover (Some float_0) (set_verbose (Some v) s)) ->
  optimize level v s = Ok s' -> Q s'.
Proof.
  intros HQ H0 H. unfold optimize in H.
  set (s0 := set_last_tover _ _) in *. clearbody s0.
  destruct (opt_flags level s0) as [[[optmedian optstarts] optstops] optfull].
  set (phases := if optfull then _ else _) in H.
  assert (forall s1 s2, Q s1 -> phases s1 = Ok s2 -> Q s2) as Hphases.
  { subst phases. destruct optfull.
    - apply swap_or_break_stable; [done|].
      intros s1 s2 H1 Hb. inv_bind Hb.
      match goal with H : nblocks _ = Ok _ |- _ => clear H end.
      revert s1 s2 H1 Hb. case_decide;
        repeat (apply swap_or_break_stable; [done|]); apply Ok_stable.
    - repeat (apply when_swap_or_break_stable; [done|]). apply Ok_stable. }
  clearbody phases.
  destruct HQ as (Hlog & Hlast & Hdirty & Hcreate & Hclean & Hchunks & Hslices).
  assert (stable Q) as HQ by (by split_and!).
  inv_bind H. case_decide; [by injection H as <-|].
  apply bind_Ok in H as (? & _ & H).
  destruct (optmedian || optstarts || optstops || optfull).
  - apply bind_Ok in H as ([s3 d] & Hrun & H).
    assert (Q s3) as H3.
    { apply bind_Ok in Hrun as ([s1 stop] & Hswap & Hrun).
      eapply swap_stable in Hswap; [|done..].
      destruct stop; [by injection Hrun as <- <-|].
      apply bind_Ok in Hrun as (s2 & Hrun & [= <- <-]).
      by apply (Hphases s1 s2). }
    apply bind_Ok in H as (s4 & Hc & [= <-]).
    eapply Hclean in Hc; [|done].
    destruct d; [by apply Hdirty | done].
  - apply bind_Ok in H as ([s3 d] & Hrun & [= <-]).
    apply bind_Ok in Hrun as (s2 & Hrun & [= <- <-]).
    by apply (Hphases s0 s2).
Qed.

Lemma stable_opt_core c : stable (fun s => opt_core s = c).
Proof.
  split_and!; try done.
  - intros s s' <- H. by apply create_temps_core.
  - intros s s' <- H. by apply cleanup_temps_core.
  - intros mode s s' <- H. by eapply swap_chunks_core.
  - intros mode s s' <- H. by eapply swap_slices_core.
Qed.

Lemma optimize_tmp level v s s' :
  optimize level v s = Ok s' -> tmp s' = None \/ tmp s' = tmp s.
Proof.
  intros H. unfold optimize in H.
  set (s0 := set_last_tover _ _) in *.
  assert (tmp s0 = tmp s) as <- by done. clearbody s0.
  destruct (opt_flags level s0) as [[[optmedian optstarts] optstops] optfull].
  inv_bind H. case_decide; [injection H as <-; by right|].
  apply bind_Ok in H as (? & _ & H).
  destruct optmedian, optstarts, optstops, optfull; cbn [orb] in H;
    try (apply bind_Ok in H as ([s3 d] & _ & H);
         apply bind_Ok in H as (s4 & Hc & [= <-]);
         apply cleanup_temps_core in Hc as [_ Hc]; left; by destruct d).
  right. unfold when_swap_or_break in H. cbn [mbind result_bind] in H.
  by injection H as <-.
Qed.

(** X12. What [optimize] leaves alone.  On a reachable index a
    successful [optimize] changes neither the sizes, the type, the
    counters [nrows], [nelements], [nelementsLR], the last-row arrays and
    [bebounds], nor the number of slices; it does not touch [starts],
    [lengths] or the limits cache; it records its [verbose] argument; and
    it leaves no temporaries behind when there were none before. *)
Theorem optimize_frame level v s s' :
  reachable s -> optimize level v s = Ok s' ->
  same_frame s s'
  /\ starts s' = starts s /\ lengths s' = lengths s
  /\ limboundscache s' = limboundscache s
  /\ verbose s' = Some v
  /\ (tmp s = None -> tmp s' = None).
Proof.
  intros Hs H. destruct (reachable_inv _ Hs) as [(cs & ncs & Hinv) _].
  pose proof (optimize_tmp _ _ _ _ H) as Htmp.
  pose proof (optimize_stable _ _ _ _ _
                (stable_opt_core (starts s, lengths s, limboundscache s, Some v))
                eq_refl H) as Hcore.
  pose proof (optimize_Ok cs ncs _ _ _ _ Hinv H) as [_ Hfr].
  unfold opt_core in Hcore. injection Hcore as H1 H2 H3 H4.
  split_and!; try done. intros Ht. destruct Htmp; congruence.
Qed.

(** *** The dirty flag after a search *)

Lemma for_each_proj {X A B : Type} (f : Index T C -> B) (xs : list X)
    (body : X -> A * Index T C -> result (A * Index T C)) st st' :
  (forall x st1 st2, body x st1 = Ok st2 -> f st2.2 = f st1.2) ->
  for_each xs body st = Ok st' -> f st'.2 = f st.2.
Proof.
  intros Hbody.
  apply (for_each_ind (fun st1 => f st1.2 = f st.2)); [done|].
  intros x st1 st2 _ H1 H. rewrite <- H1. by eapply Hbody.
Qed.

Lemma search_scalar_dirtycache item s n s' :
  search_scalar item s = Ok (n, s') -> dirtycache s' = dirtycache s.
Proof.
  unfold search_scalar. intros H.
  apply (for_each_proj dirtycache) in H; [done|].
  intros i [tlen s1] [tlen' s2] Hb. cbn [snd].
  destruct (ext_searchBin _ _ _) as [start stop].
  inv_bind Hb. by injection Hb as <- <-.
Qed.

Lemma searchLastRow_dirtycache item s r1 r2 s' :
  searchLastRow item s = Ok (r1, r2, s') -> dirtycache s' = dirtycache s.
Proof.
  unfold searchLastRow. destruct item as [item1 item2]. intros H.
  inv_run; done.
Qed.

Lemma search_dirtycache item s n s' :
  search item s = Ok (n, s') -> dirtycache s' = false.
Proof.
  intros H. unfold search in H.
  set (s0 := if dirtycache s then _ else s) in H.
  assert (dirtycache s0 = false) as <-
    by (subst s0; by destruct (dirtycache s) eqn:E).
  clearbody s0. destruct item as [item|]; [|by injection H as <- <-].
  apply bind_Ok in H as (cache & _ & H).
  destruct (cache_getslot cache item) as [nslot cache1].
  destruct (0 <=? nslot)%Z.
  - destruct (cache_getitem cache1 nslot) as [startlengths cache2].
    apply (for_each_proj dirtycache) in H; [exact H|].
    intros [[nrow2 start] len] [tlen s1] [tlen' s2] Hb. inv_run. done.
  - apply bind_Ok in H as ([tlen1 s1] & H1 & H).
    assert (dirtycache s1 = dirtycache s0) as <-.
    { clear H. repeat case_match; inv_run; try done;
        match goal with H : search_scalar _ _ = Ok _ |- _ =>
          by apply search_scalar_dirtycache in H end. }
    apply bind_Ok in H as (k & _ & H).
    apply bind_Ok in H as ([tlen2 s2] & H2 & H).
    assert (dirtycache s2 = dirtycache s1) as <-.
    { clear H H1. case_decide; inv_run; [|done].
      match goal with H : searchLastRow _ _ = Ok _ |- _ =>
        by apply searchLastRow_dirtycache in H end. }
    apply bind_Ok in H as (cache3 & _ & H).
    clear H1 H2.
    destruct (cache_couldenablecache cache3) as [[] cache4]; inv_run; done.
Qed.

(** X13. What a search leaves alone.  A successful [search] changes
    nothing of the index but [starts], [lengths], the limits cache, the
    dirty flag and the log: the arrays, the last-row arrays, the sizes,
    the counters and the temporaries are as before; and the cache is
    clean afterwards ([dirtycache] is [False]). *)
Theorem search_frame item s n s' :
  search item s = Ok (n, s') ->
  search_core s' = search_core s /\ dirtycache s' = false.
Proof.
  intros H. split; [by eapply search_core_eq | by eapply search_dirtycache].
Qed.

(** *** The optimizer moves the entries of the index without losing any *)

Lemma lookup_prows (a : Arrays T) (k : nat) :
  prows a !! k = r ← sorted a !! k; i ← indices a !! k; Some (zip r i).
Proof.
  unfold prows. rewrite lookup_zip_with.
  destruct (sorted a !! k); [|done]. simpl. by destruct (indices a !! k).
Qed.

Lemma length_prows (w : nat) (a : Arrays T) :
  rows_ok w a -> length (prows a) = length (sorted a).
Proof. intros (Hl & _). unfold prows. rewrite length_zip_with. lia. Qed.

Lemma rows_ok_insert (w : nat) (a : Arrays T) (k : nat) (r : list T)
    (i : list nat) (b : list (list T)) (ab zb mb mr : list T)
    (rg : list (T * T)) :
  rows_ok w a -> length r = w -> length i = w ->
  rows_ok w (mkArrays (<[k := r]> (sorted a)) (<[k := i]> (indices a))
               b ab zb mb rg mr).
Proof.
  intros (Hl & Hs & Hi) Hr Hlen. unfold rows_ok. simpl.
  rewrite !length_insert. split_and!; [done | by apply Forall_insert..].
Qed.

Lemma reorder_slices_rows mode nblock s s' (t : Arrays T) (ss : nat) :
  slicesize s = ss -> tmp s = Some t ->
  rows_ok ss (node s) -> rows_ok ss t ->
  reorder_slices mode nblock s = Ok s' ->
  exists nsb, nslicesblock s = Ok nsb /\
    let lo := nblock * nsb in
    let hi := Nat.min (lo + nsb) (length (sorted (node s))) in
    rows_ok ss (node s')
    /\ (forall k, k < lo \/ hi <= k -> prows (node s') !! k = prows (node s) !! k)
    /\ (forall k, lo <= k < hi ->
          exists r r', prows t !! k = Some r /\ prows (node s') !! k = Some r'
                       /\ r' ≡ₚ r /\ sorted_row r').
Proof.
  intros Hss Ht Hn Hrt H. unfold reorder_slices in H. inv_bind H.
  rewrite Ht in *. inv_reads.
  match goal with H : attr _ = Ok _ |- _ => injection H as <- end.
  match goal with H : nslicesblock s = Ok ?n |- _ => exists n; split; [done|] end.
  rename x1 into nsb. intros lo hi.
  replace (xrange (nblock * nsb) ((nblock + 1) * nsb)) with (seq lo nsb) in H
    by (unfold xrange; f_equal; lia).
  set (len := length (sorted (node s))) in *.
  cut (slicesize s' = ss /\ tmp s' = Some t /\ rows_ok ss (node s')
       /\ length (sorted (node s')) = len
       /\ (forall k, k < lo \/ Nat.min (lo + nsb) len <= k ->
            prows (node s') !! k = prows (node s) !! k)
       /\ (forall k, lo <= k < Nat.min (lo + nsb) len ->
            exists r r', prows t !! k = Some r /\ prows (node s') !! k = Some r'
                         /\ r' ≡ₚ r /\ sorted_row r')).
  { intros (_ & _ & ? & _ & ? & ?). done. }
  revert H.
  apply (for_loop_seq_ind (fun k s1 =>
    slicesize s1 = ss /\ tmp s1 = Some t /\ rows_ok ss (node s1)
    /\ length (sorted (node s1)) = len
    /\ (forall j, j < lo \/ Nat.min k len <= j ->
         prows (node s1) !! j = prows (node s) !! j)
    /\ (forall j, lo <= j < Nat.min k len ->
         exists r r', prows t !! j = Some r /\ prows (node s1) !! j = Some r'
                      /\ r' ≡ₚ r /\ sorted_row r'))).
  { split_and!; [done..| |]; [done | intros j Hj; lia]. }
  intros k s1 s2 b Hk (Hss1 & Ht1 & Hn1 & Hlen1 & Hout & Hin) Hbody.
  case_decide as Hbrk.
  { injection Hbody as <- <-. rewrite Hlen1 in Hbrk.
    replace (Nat.min (lo + nsb) len) with (Nat.min k len) by lia.
    done. }
  inv_bind Hbody. injection Hbody as <- <-.
  match goal with H : take_idx ?b (argsort _ ?b) = Ok _ |- _ =>
    rewrite take_idx_argsort in H; injection H as <- end.
  simpl_state.
  rewrite Hss1 in *.
  destruct Hrt as (Hlt & Hst & Hit).
  match goal with H : getitem (sorted t) k = Ok ?r |- _ =>
    apply getitem_Ok in H; rename H into Grow; rename r into row end.
  match goal with H : getitem (indices t) k = Ok ?r |- _ =>
    apply getitem_Ok in H; rename H into Girow; rename r into irow end.
  pose proof (Forall_lookup_1 _ _ _ _ Hst Grow) as Lrow.
  pose proof (Forall_lookup_1 _ _ _ _ Hit Girow) as Lirow. simpl in Lrow, Lirow.
  match goal with H : take_idx irow _ = Ok ?r |- _ =>
    apply sort_row_pairs in H as [Lb Hperm]; [|congruence]; rename r into bidx end.
  match goal with H : set_row _ (sorted _) _ _ = Ok _ |- _ =>
    apply set_row_Ok in H as (Hkl & r1 & Lr1 & -> & Er1) end.
  match goal with H : set_row _ (indices _) _ _ = Ok _ |- _ =>
    apply set_row_Ok in H as (Hki & r2 & Lr2 & -> & Er2) end.
  rewrite Er1 in * by (by rewrite length_sort_values). clear Er1.
  rewrite Er2 in * by congruence. clear Er2.
  assert (prows (node s1) !! k = None -> False) as Hsome.
  { rewrite lookup_prows. intros Hnone.
    apply lookup_lt_is_Some_2 in Hkl as [? Hkl], Hki as [? Hki].
    by rewrite Hkl, Hki in Hnone. }
  split_and!; [done | done | by apply rows_ok_insert | | |].
  - by rewrite length_insert.
  - intros j Hj. unfold prows at 1. simpl. rewrite <- insert_zip_with.
    rewrite list_lookup_insert_ne by lia. apply Hout. lia.
  - intros j Hj. unfold prows at 2. simpl. rewrite <- insert_zip_with.
    destruct (decide (j = k)) as [->|Hne].
    + exists (zip row irow), (zip (sort_values val_ltb row) bidx).
      split_and!; [| |done|].
      * by rewrite lookup_prows, Grow, Girow.
      * apply list_lookup_insert_eq. apply lookup_lt_is_Some.
        destruct (prows (node s1) !! k) eqn:E; [eauto | by destruct Hsome].
      * exists row. apply fst_zip. rewrite length_sort_values. lia.
    + rewrite list_lookup_insert_ne by done. apply Hin. lia.
Qed.

Lemma chunk_at_prows (cs ncs offset : nat) (w : nat) (a : Arrays T) (idx : nat) :
  rows_ok w a ->
  zip (chunk_at cs ncs offset (sorted a) idx)
      (chunk_at cs ncs offset (indices a) idx)
  = chunk_at cs ncs offset (prows a) idx.
Proof.
  intros (Hl & _). unfold chunk_at. rewrite zip_getslice. f_equal.
  set (k := idx / ncs + offset).
  rewrite !list_lookup_total_alt, lookup_prows.
  destruct (sorted a !! k) as [r|] eqn:Hr; simpl.
  - destruct (indices a !! k) as [i|] eqn:Hi; [done|].
    apply lookup_lt_Some in Hr. apply lookup_ge_None in Hi. lia.
  - destruct (indices a !! k) as [i|] eqn:Hi; [|done].
    apply lookup_lt_Some in Hi. apply lookup_ge_None in Hr. lia.
Qed.

Lemma length_chunk_at (cs ncs offset : nat) (w : nat) (a : Arrays T) (idx : nat) :
  rows_ok w a ->
  length (chunk_at cs ncs offset (sorted a) idx)
  = length (chunk_at cs ncs offset (indices a) idx).
Proof.
  intros (Hl & Hs & Hi). unfold chunk_at, getslice.
  rewrite !length_take, !length_drop.
  set (k := idx / ncs + offset).
  rewrite !list_lookup_total_alt.
  destruct (sorted a !! k) as [r|] eqn:Hr; simpl.
  - destruct (indices a !! k) as [i|] eqn:Hk; simpl.
    + rewrite (Forall_lookup_1 _ _ _ _ Hs Hr), (Forall_lookup_1 _ _ _ _ Hi Hk).
      done.
    + apply lookup_lt_Some in Hr. apply lookup_ge_None in Hk. lia.
  - destruct (indices a !! k) as [i|] eqn:Hk; [|done].
    apply lookup_lt_Some in Hk. apply lookup_ge_None in Hr. lia.
Qed.

Lemma Forall_prows (w : nat) (a : Arrays T) :
  rows_ok w a -> Forall (fun r => length r = w) (prows a).
Proof.
  intros (Hl & Hs & Hi). apply Forall_lookup. intros k r Hk.
  rewrite lookup_prows in Hk.
  destruct (sorted a !! k) as [x|] eqn:Hx; [|done]. simpl in Hk.
  destruct (indices a !! k) as [y|] eqn:Hy; [|done]. injection Hk as <-.
  rewrite length_zip_with.
  rewrite (Forall_lookup_1 _ _ _ _ Hs Hx), (Forall_lookup_1 _ _ _ _ Hi Hy). lia.
Qed.

Lemma index_inv_rows (cs ncs : nat) s :
  index_inv cs ncs s ->
  Forall (fun r => length r = ncs * cs) (sorted (node s)).
Proof.
  intros (_ & _ & _ & _ & Hok & _). apply Forall_lookup. intros k r Hk.
  destruct (ok_slices _ _ _ Hok k) as (r' & Hr' & Hlen & _);
    [by eapply lookup_lt_Some|]. congruence.
Qed.


Lemma counts_chunks (cs ncs : nat) s :
  index_inv cs ncs s -> counts_ok s ->
  length (sorted (node s)) * ncs <= nelements s / cs.
Proof.
  intros (Hcs & Hncs & Ec & Es & _) Hcnt. unfold counts_ok in Hcnt.
  apply Nat.div_le_lower_bound; [lia|].
  destruct (nelementsLR s) as [k|].
  - destruct Hcnt as [-> _]. rewrite Es. nia.
  - destruct Hcnt as (_ & _ & ->). lia.
Qed.

Lemma length_read_bounds (cs ncs : nat) name lo hi s :
  index_inv cs ncs s -> lo < hi ->
  length (read_bounds name lo hi s) = hi - lo ->
  hi <= length (sorted (node s)) * ncs.
Proof.
  intros (_ & _ & _ & _ & Hok & _) Hlt H. unfold read_bounds in H.
  destruct Hok as [_ _ _ La Lz Lm _].
  apply length_getslice_full in H; [|done].
  repeat case_match; lia.
Qed.

Lemma swap_chunks_rows (cs ncs : nat) mode s s' :
  index_inv cs ncs s -> counts_ok s -> shape_ok s ->
  swap_chunks mode s = Ok s' ->
  shape_ok s'
  /\ entries (node s') ≡ₚ entries (node s)
  /\ Forall (fun r' => r' ∈ prows (node s) \/ sorted_row r') (prows (node s')).
Proof.
  intros Hinv Hcnt Hshape H. unfold swap_chunks in H. inv_bind H.
  injection H as <-.
  match goal with H : nchunkslice s = Ok _ |- _ =>
    apply (nchunkslice_inv _ _ _ _ Hinv) in H as -> end.
  rename x2 into nsb. rename x3 into nbl. unfold xrange in *.
  rewrite Nat.sub_0_r in *.
  pose proof Hinv as (Hcs & Hncs & Ec & Es & _).
  rewrite Ec, Es in *.
  match goal with H : for_loop _ _ _ = Ok (?a, ?b, ?c, ?s1) |- _ =>
    change s1 with (a, b, c, s1).2; generalize dependent (a, b, c, s1) end.
  clear n l0 l i. intros st H. revert H.
  apply (for_loop_seq_break
    (fun k (st : nat * list T * list nat * Index T C) =>
       let '(ncb2, ts, ti, s1) := st in
       index_inv cs ncs s1 /\ same_frame s s1 /\ shape_ok s1
       /\ is_Some (tmp s1)
       /\ length ts = ncs * cs /\ length ti = ncs * cs
       /\ (ncb2 = ncs * nsb
           \/ (nelements s / cs < k * (ncs * nsb) /\ 0 < ncs * nsb))
       /\ entries (node s1) ≡ₚ entries (node s)
       /\ Forall (fun r' => r' ∈ prows (node s) \/ sorted_row r')
                 (prows (node s1)))
    (fun st => shape_ok st.2
       /\ entries (node st.2) ≡ₚ entries (node s)
       /\ Forall (fun r' => r' ∈ prows (node s) \/ sorted_row r')
                 (prows (node st.2)))).
  { rewrite !length_replicate.
    split_and!; [done | apply same_frame_refl | done | | done | done | by left
                | done |].
    { destruct (tmp s); [eauto | discriminate]. }
    apply Forall_forall. by left. }
  2: { intros [[[ncb2 ts] ti] s1] (_ & _ & ? & _ & _ & _ & _ & ? & ?). done. }
  intros k [[[ncb2 ts] ti] s1] [[[ncb2' ts'] ti'] s2] b Hk
    (Hinv1 & Hfr1 & Hsh1 & [t1 Ht1] & Lts & Lti & Hncb & Hent & Hprov) Hbody.
  pose proof Hinv1 as (_ & _ & Ec1 & Es1 & Hok1 & _).
  pose proof (same_frame_counts _ _ Hfr1 Hcnt) as Hcnt1.
  pose proof (counts_chunks _ _ _ Hinv1 Hcnt1) as Hnch.
  assert (nelements s1 = nelements s) as En by (by destruct Hfr1 as (_&_&_&_&_&_&_&?&_)).
  unfold nchunks in Hbody. rewrite Ec1, En in *.
  inv_bind Hbody.
  match goal with H : py_div (nelements s) cs = Ok _ |- _ =>
    apply py_div_Ok in H as [_ ->] end.
  set (nch := nelements s / cs) in *.
  set (n := length (sorted (node s1))) in *.
  rename x2 into ncb3.
  assert (if decide (nch - k * (ncs * nsb) < ncs * nsb)
          then ncb3 = (nch - k * (ncs * nsb)) / ncs * ncs else ncb3 = ncb2)
    as Hncb3.
  { destruct (decide (nch - k * (ncs * nsb) < ncs * nsb)).
    - match goal with H : _ ≫= _ = Ok ncb3 |- _ =>
        apply bind_Ok in H as (q & Hq & [= <-]) end.
      by apply py_div_Ok in Hq as [_ ->].
    - match goal with H : Ok _ = Ok ncb3 |- _ => by injection H as -> end. }
  match goal with H : _ = Ok ncb3 |- _ => clear H end.
  destruct (decide (ncb3 <= 1)) as [Hsmall|Hsmall].
  { injection Hbody as <- <- <- <- <-. done. }
  inv_bind Hbody.
  match goal with H : py_div ncb3 ncs = Ok _ |- _ =>
    apply py_div_Ok in H as [_ ->] end.
  set (sidx := argsort val_ltb _) in *.
  assert (length sidx = ncb3) as Lsidx.
  { match goal with H : count_moved sidx ncb3 = Ok _ |- _ =>
      unfold count_moved in H;
      by destruct (decide (length sidx = ncb3)) end. }
  assert (k * (ncs * nsb) + ncb3 <= n * ncs) as Hin.
  { subst sidx. rewrite length_argsort in Lsidx.
    apply (length_read_bounds cs ncs x) with (lo := k * (ncs * nsb));
      [done | lia |]. rewrite Lsidx. lia. }
  destruct (block_window ncs nsb n nch k ncb2 ncb3)
    as (Hmul & Hwin & Hmin & Hncb'); [done..|].
  set (nsl := ncb3 / ncs) in *.
  destruct (decide (_ * 20 < ncb3)) as [Hdiff|Hdiff].
  { injection Hbody as <- <- <- <- <-. split_and!; done. }
  rewrite !Nat.sub_0_r in Hbody.
  apply bind_Ok in Hbody as ([[ts3 ti3] s3] & Hgather & Hbody).
  apply bind_Ok in Hbody as (s4 & Hreorder & Hbody).
  injection Hbody as <- <- <- <- <-.
  set (lo := k * nsb) in *.
  destruct Hsh1 as [Hrn1 Hrt1]. rewrite Es1 in Hrn1, Hrt1.
  eapply (for_each_seq_ind (fun i (st : list T * list nat * Index T C) =>
    let '(ts, ti, s3) := st in
    index_inv cs ncs s3 /\ same_frame s1 s3 /\ node s3 = node s1
    /\ length ts = ncs * cs /\ length ti = ncs * cs
    /\ exists t3, tmp s3 = Some t3 /\ rows_ok (ncs * cs) t3
        /\ forall i', i' < i ->
             prows t3 !! (lo + i')
             = Some (mjoin ((fun j => chunk_at cs ncs lo (prows (node s1))
                                        (sidx !!! (i' * ncs + j)))
                            <$> seq 0 ncs)))) in Hgather.
  2: { split_and!; [done | apply same_frame_refl | done..|].
       exists t1. split_and!; [done | by apply Hrt1 | intros; lia]. }
  2: { intros i [[tsa tia] sa] [[tsb tib] sb] Hi
         (Hinva & Hfra & Hnodea & Ltsa & Ltia & ta & Hta & Hrta & Hrows) Hb.
       apply bind_Ok in Hb as ([ts2 ti2] & Hinner & Hb).
       rewrite Hta, Hnodea in *. cbn [attr mbind result_bind] in Hb.
       pose proof Hinva as (_ & _ & _ & Esa & _). rewrite Esa in Hb.
       eapply (for_each_seq_ind (fun j (st : list T * list nat) =>
         length st.1 = ncs * cs /\ length st.2 = ncs * cs
         /\ take (j * cs) st.1
            = mjoin ((fun j' => chunk_at cs ncs lo (sorted (node s1))
                                  (sidx !!! (i * ncs + j'))) <$> seq 0 j)
         /\ take (j * cs) st.2
            = mjoin ((fun j' => chunk_at cs ncs lo (indices (node s1))
                                  (sidx !!! (i * ncs + j'))) <$> seq 0 j)))
         in Hinner.
       2: { done. }
       2: { intros j [ta1 tb1] [ta2 tb2] Hj (La & Lb & Ha & Hb') Hstep.
            cbn [fst snd] in *.
            inv_bind Hstep. injection Hstep as <- <-. inv_reads.
            match goal with H : sidx !! _ = Some _ |- _ =>
              apply list_lookup_total_correct in H; rename H into Hidx end.
            assert (j < ncs) as Hj' by lia.
            pose proof (index_inv_rows cs ncs _ Hinv1) as Fs.
            destruct Hrn1 as (_ & _ & Fi).
            match goal with
            | Hrow : sorted (node s1) !! _ = Some _,
              Hs : setslice ta1 _ _ _ = Ok _ |- _ =>
                pose proof (gather_step cs ncs lo _ _ _
                  (fun j' => sidx !!! (i * ncs + j')) j _ _ Hcs Hj'
                  La Fs Hrow Hidx Hs Ha) as [? ?]
            end.
            match goal with
            | Hrow : indices (node s1) !! _ = Some _,
              Hs : setslice tb1 _ _ _ = Ok _ |- _ =>
                pose proof (gather_step cs ncs lo _ _ _
                  (fun j' => sidx !!! (i * ncs + j')) j _ _ Hcs Hj'
                  Lb Fi Hrow Hidx Hs Hb') as [? ?]
            end.
            split_and!; assumption. }
       cbn [fst snd] in Hinner.
       destruct Hinner as (Lts2 & Lti2 & Hts2 & Hti2).
       rewrite Nat.add_0_l in Hts2, Hti2.
       rewrite take_ge in Hts2 by lia. rewrite take_ge in Hti2 by lia.
       inv_bind Hb. injection Hb as <- <- <-.
       repeat match goal with H : set_row _ _ _ _ = Ok _ |- _ =>
         let Hsame := fresh "Hsame" in
         apply set_row_Ok in H as (? & ? & ? & -> & Hsame);
         rewrite Hsame in * by done; clear Hsame end.
       split_and!; [ | | done | done | done | ].
       - destruct Hinva as (? & ? & ? & _ & ? & Htmpa).
         split_and!; simpl_state; [done..|].
         intros t' [= <-]. simpl_state.
         destruct (Htmpa _ Hta) as (HF & ? & ? & ?).
         split_and!; [by apply Forall_insert | done..].
       - eapply same_frame_trans; [exact Hfra | apply same_frame_set_tmp].
       - eexists. split; [reflexivity|]. split.
         + unfold set_indices, set_sorted. cbn. by apply rows_ok_insert.
         + intros i' Hi'. unfold prows. simpl_state.
           rewrite <- insert_zip_with. fold (prows ta).
           destruct (decide (i' = i)) as [->|Hne].
           * rewrite list_lookup_insert_eq
               by (rewrite (length_prows _ _ Hrta); lia).
             f_equal. rewrite Hts2, Hti2.
             rewrite zip_mjoin_fmap
               by (intros; by apply (length_chunk_at _ _ _ (ncs * cs))).
             f_equal. apply list_fmap_ext. intros ? j' _.
             by apply (chunk_at_prows _ _ _ (ncs * cs)).
           * rewrite list_lookup_insert_ne by lia. apply Hrows. lia. }
  rewrite Nat.add_0_l in Hgather.
  destruct Hgather as (Hinv3 & Hfr3 & Hnode3 & Lts3 & Lti3 & t3 & Ht3 & Hrt3
    & Hrows3).
  pose proof Hinv3 as (_ & _ & _ & Es3 & _).
  pose proof (reorder_slices_Ok cs ncs _ _ _ _ Hinv3 Hreorder)
    as (Hinv4 & Hfr4 & Htmp4).
  pose proof Hinv4 as (_ & _ & _ & Es4 & _).
  assert (same_frame s s4) as Hfr by eauto using same_frame_trans.
  destruct (reorder_slices_rows mode k s3 s4 t3 (ncs * cs))
    as (nsb' & Hnsb' & Hrn4 & Hout & Hwindow);
    [done | done | by rewrite Hnode3 | done | done |].
  assert (nsb' = nsb) as ->.
  { assert (same_frame s s3) as (_ & Eb & Esl & _)
      by eauto using same_frame_trans.
    unfold nslicesblock in *. rewrite Eb, Esl in Hnsb'. congruence. }
  rewrite Hnode3 in Hout, Hwindow. fold lo n in Hout, Hwindow.
  rewrite Hmin in Hout, Hwindow.
  split_and!; [done | done | | | done | done | done | |].
  - split; [by rewrite Es4 | ].
    intros t. rewrite Htmp4, Ht3, Es4. by intros [= <-].
  - rewrite Htmp4, Ht3. eauto.
  - rewrite <- Hent. unfold entries.
    apply (mjoin_window _ _ lo (lo + nsl)); [lia | done |].
    trans (mjoin ((fun i => mjoin ((fun j => chunk_at cs ncs lo (prows (node s1))
                                      (sidx !!! (i * ncs + j))) <$> seq 0 ncs))
                  <$> seq 0 nsl)).
    + apply mjoin_Forall2_Permutation.
      apply Forall2_same_length_lookup_2.
      * rewrite length_fmap, length_seq, length_getslice; [lia|].
        rewrite (length_prows _ _ Hrn4).
        destruct Hfr4 as (_&_&_&_&_&_&_&_&_&_&_&_&->). rewrite Hnode3. done.
      * intros i r1 r2. rewrite lookup_getslice, list_lookup_fmap.
        destruct (decide (i < lo + nsl - lo)) as [Hi|Hi]; [|by intros ?].
        rewrite lookup_seq_lt by lia. simpl. intros Hr1 [= <-].
        destruct (Hwindow (lo + i)) as (r & r' & Hr & Hr' & Hperm & _); [lia|].
        rewrite Hrows3 in Hr by lia. congruence.
    + trans (mjoin (mjoin <$>
               ((fun i => (fun j => chunk_at cs ncs lo (prows (node s1))
                                      (sidx !!! (i * ncs + j))) <$> seq 0 ncs)
                <$> seq 0 nsl))).
      { by rewrite <- list_fmap_compose. }
      rewrite mjoin_mjoin.
      rewrite (seq_blocks (fun q => chunk_at cs ncs lo (prows (node s1))
                                      (sidx !!! q)) ncs nsl).
      rewrite <- Hmul, <- Lsidx.
      trans (mjoin (chunk_at cs ncs lo (prows (node s1))
                    <$> ((fun q => sidx !!! q) <$> seq 0 (length sidx)))).
      { by rewrite <- list_fmap_compose. }
      rewrite fmap_lookup_seq.
      apply gather_Permutation.
      * by apply Forall_prows.
      * rewrite (length_prows _ _ Hrn1). done.
      * rewrite <- Hmul, <- Lsidx. subst sidx. rewrite length_argsort.
        apply argsort_Permutation.
  - apply Forall_lookup. intros j r Hr.
    destruct (decide (lo <= j < lo + nsl)) as [Hj|Hj].
    + destruct (Hwindow j Hj) as (? & r' & _ & Hr' & _ & Hsr).
      right. congruence.
    + rewrite Hout in Hr by lia.
      by apply (Forall_lookup_1 _ _ _ _ Hprov Hr).
Qed.

Lemma swap_slices_rows mode s s' :
  shape_ok s -> swap_slices mode s = Ok s' ->
  shape_ok s'
  /\ entries (node s') ≡ₚ entries (node s)
  /\ Forall (fun r' => r' ∈ prows (node s) \/ sorted_row r') (prows (node s')).
Proof.
  intros Hshape H. unfold swap_slices in H. inv_bind H. injection H as <-.
  unfold xrange in *. rewrite Nat.sub_0_r in *.
  set (ss := slicesize s) in *.
  match goal with H : for_loop _ _ _ = Ok (?a, ?s1) |- _ =>
    change s1 with (a, s1).2; generalize dependent (a, s1) end.
  clear n i. intros st H.
  cut (slicesize st.2 = ss /\ shape_ok st.2 /\ is_Some (tmp st.2)
       /\ entries (node st.2) ≡ₚ entries (node s)
       /\ Forall (fun r' => r' ∈ prows (node s) \/ sorted_row r')
                 (prows (node st.2))).
  { by intros (_ & ? & _ & ? & ?). }
  revert H.
  apply (for_loop_ind (fun st : nat * Index T C =>
    slicesize st.2 = ss /\ shape_ok st.2 /\ is_Some (tmp st.2)
    /\ entries (node st.2) ≡ₚ entries (node s)
    /\ Forall (fun r' => r' ∈ prows (node s) \/ sorted_row r')
              (prows (node st.2)))).
  { split_and!; [done | done | | done |].
    - cbn [snd]. destruct (tmp s); [eauto | discriminate].
    - apply Forall_forall. by left. }
  intros sblock [nss2 s1] [nss2' s2] b _. cbn [snd].
  intros (Ess1 & Hsh1 & [t1 Ht1] & Hent & Hprov) Hbody.
  pose proof Hsh1 as [Hrn1 Hrt1]. rewrite Ess1 in Hrn1, Hrt1.
  inv_bind Hbody.
  set (n2 := if decide (_ - _ < _) then _ else nss2) in *. clearbody n2.
  destruct (decide (n2 <= 1)) as [Hsmall|Hsmall].
  { injection Hbody as <- <- <-. split_and!; eauto. }
  inv_bind Hbody.
  set (sidx := argsort val_ltb _) in *.
  assert (sidx ≡ₚ seq 0 n2) as Hperm.
  { match goal with H : count_moved sidx n2 = Ok _ |- _ =>
      unfold count_moved in H;
      destruct (decide (length sidx = n2)) as [E|]; [|done] end.
    subst sidx. rewrite length_argsort in E. rewrite <- E.
    apply argsort_Permutation. }
  clearbody sidx.
  destruct (decide (_ * 50 < n2)) as [Hdiff|Hdiff].
  { injection Hbody as <- <- <-. split_and!; eauto. }
  rewrite !Nat.sub_0_r in Hbody.
  set (ns := sblock * n2) in *. clearbody ns.
  apply bind_Ok in Hbody as (sA & Hstash & Hbody).
  apply bind_Ok in Hbody as (sB & Hrestore & Hbody).
  injection Hbody as <- <- <-.
  set (S1 := sorted (node s1)) in *. set (I1 := indices (node s1)) in *.
  eapply (for_each_seq_ind (fun i sA =>
    node sA = node s1 /\ slicesize sA = ss
    /\ exists tA, tmp sA = Some tA /\ rows_ok ss tA
        /\ forall i', i' < i ->
             sorted tA !! (ns + i') = S1 !! (ns + sidx !!! i')
             /\ indices tA !! (ns + i') = I1 !! (ns + sidx !!! i')
             /\ ns + sidx !!! i' < length S1)) in Hstash.
  2: { split_and!; [done..|]. exists t1.
       split_and!; [done | by apply Hrt1 | intros; lia]. }
  2: { intros i sa sb Hi (Hna & Essa & ta & Hta & Hrta & Hrows) Hb.
       rewrite Hta, Hna, Essa in Hb. cbn [attr] in Hb.
       fold S1 in Hb. fold I1 in Hb.
       inv_bind Hb. injection Hb as <-.
       match goal with H : Ok _ = Ok _ |- _ => injection H as <- end.
       destruct Hrn1 as (Ll & Fs & Fi).
       repeat match goal with H : getitem _ _ = Ok _ |- _ =>
         apply getitem_Ok in H end.
       match goal with H : sidx !! i = Some _ |- _ =>
         apply list_lookup_total_correct in H as <- end.
       match goal with H : S1 !! _ = Some ?r |- _ =>
         pose proof (Forall_lookup_1 _ _ _ _ Fs H) as Lrow;
         rename H into Hrow end.
       match goal with H : I1 !! _ = Some ?r |- _ =>
         pose proof (Forall_lookup_1 _ _ _ _ Fi H) as Lirow;
         rename H into Hirow end.
       simpl in Lrow, Lirow.
       repeat match goal with H : set_row ss _ _ _ = Ok _ |- _ =>
         let Hsame := fresh "Hsame" in
         apply set_row_Ok in H as (? & ? & ? & -> & Hsame);
         rewrite Hsame in * by done; clear Hsame end.
       split_and!; [done | done |].
       eexists. split; [reflexivity|]. split; [by apply rows_ok_insert|].
       intros i' Hi'. cbn [sorted indices].
       destruct (decide (i' = i)) as [->|Hne].
       - rewrite !list_lookup_insert_eq by lia.
         split_and!; [done | done | by eapply lookup_lt_Some].
       - rewrite !list_lookup_insert_ne by lia. apply Hrows. lia. }
  destruct Hstash as (HnA & EssA & tF & HtF & HrtF & Hstashed).
  rewrite Nat.add_0_l in Hstashed.
  eapply (for_each_seq_ind (fun i sB =>
    tmp sB = Some tF /\ slicesize sB = ss /\ rows_ok ss (node sB)
    /\ (forall q, sorted (node sB) !! q
                  = if decide (ns <= q < ns + i) then sorted tF !! q
                    else S1 !! q)
    /\ (forall q, indices (node sB) !! q
                  = if decide (ns <= q < ns + i) then indices tF !! q
                    else I1 !! q))) in Hrestore.
  2: { rewrite HnA. split_and!; [done..| |];
         intros q; by rewrite decide_False by lia. }
  2: { intros i sa sb Hi (Hta & Essa & Hrna & HS & HI) Hb.
       rewrite Hta, Essa in Hb. cbn [attr] in Hb.
       inv_bind Hb. injection Hb as <-.
       match goal with H : Ok _ = Ok _ |- _ => injection H as <- end.
       destruct HrtF as (Ll & Fs & Fi).
       repeat match goal with H : getitem _ _ = Ok _ |- _ =>
         apply getitem_Ok in H end.
       match goal with H : sorted tF !! _ = Some ?r |- _ =>
         pose proof (Forall_lookup_1 _ _ _ _ Fs H) as Lrow;
         rename H into Hrow end.
       match goal with H : indices tF !! _ = Some ?r |- _ =>
         pose proof (Forall_lookup_1 _ _ _ _ Fi H) as Lirow;
         rename H into Hirow end.
       simpl in Lrow, Lirow.
       repeat match goal with H : set_row ss _ _ _ = Ok _ |- _ =>
         let Hsame := fresh "Hsame" in
         apply set_row_Ok in H as (? & ? & ? & -> & Hsame);
         rewrite Hsame in * by done; clear Hsame end.
       split_and!; [done | done | by apply rows_ok_insert | |];
         intros q; cbn [set_node node sorted indices];
         (destruct (decide (q = ns + i)) as [->|Hne];
          [rewrite list_lookup_insert_eq by lia;
           by rewrite decide_True by lia
          |rewrite list_lookup_insert_ne by lia;
           rewrite ?HS, ?HI; repeat case_decide; (done || lia)]). }
  rewrite Nat.add_0_l in Hrestore.
  destruct Hrestore as (HtB & EssB & HrnB & HS & HI).
  assert (length sidx = n2) as Lsidx
    by (by rewrite Hperm, length_seq).
  assert (ns + n2 <= length (prows (node s1))) as Hlen.
  { rewrite (length_prows _ _ Hrn1). fold S1.
    assert (n2 - 1 ∈ sidx) as Hmax
      by (rewrite Hperm; apply elem_of_seq; lia).
    apply list_elem_of_lookup in Hmax as [k Hk].
    pose proof (lookup_lt_Some _ _ _ Hk) as Hlt.
    apply list_lookup_total_correct in Hk.
    destruct (Hstashed k) as (_ & _ & ?); lia. }
  assert (forall q, prows (node sB) !! q
            = if decide (ns <= q < ns + n2)
              then prows (node s1) !! (ns + sidx !!! (q - ns))
              else prows (node s1) !! q) as Hrows.
  { intros q. rewrite !lookup_prows, HS, HI.
    destruct (decide (ns <= q < ns + n2)) as [Hq|Hq]; [|done].
    destruct (Hstashed (q - ns)) as (E1 & E2 & _); [lia|].
    replace (ns + (q - ns)) with q in E1, E2 by lia.
    by rewrite E1, E2. }
  split_and!; [done | | by eauto | |].
  - split; rewrite EssB; [done|]. intros t. rewrite HtB. by intros [= <-].
  - rewrite <- Hent. unfold entries.
    apply (mjoin_window _ _ ns (ns + n2)); [lia | |].
    { intros q Hq. rewrite Hrows. by rewrite decide_False by lia. }
    apply join_Permutation.
    trans ((fun idx => prows (node s1) !!! (idx + ns)) <$> sidx).
    + match goal with |- ?a ≡ₚ ?b => assert (a = b) as ->; [|done] end.
      apply list_eq. intros k.
      rewrite lookup_getslice, list_lookup_fmap, Hrows.
      destruct (decide (k < ns + n2 - ns)) as [Hk|Hk].
      * rewrite decide_True by lia.
        replace (ns + k - ns) with k by lia.
        destruct (lookup_lt_is_Some_2 sidx k) as [idx Hidx]; [lia|].
        rewrite Hidx. simpl.
        rewrite (list_lookup_total_correct _ _ _ Hidx).
        destruct (Hstashed k) as (_ & _ & Hin); [lia|].
        rewrite (list_lookup_total_correct _ _ _ Hidx) in Hin.
        destruct (lookup_lt_is_Some_2 (prows (node s1)) (ns + idx)) as [r Hr].
        { rewrite (length_prows _ _ Hrn1). done. }
        rewrite Hr. f_equal. symmetry. apply list_lookup_total_correct.
        by rewrite Nat.add_comm.
      * symmetry. rewrite fmap_None. apply lookup_ge_None. lia.
    + rewrite Hperm. by rewrite getslice_lookup_total.
  - apply Forall_lookup. intros q r Hr. rewrite Hrows in Hr.
    eapply (proj1 (Forall_forall _ _) Hprov).
    case_decide; by eapply list_elem_of_lookup_2.
Qed.

(** *** What the steps keep *)

Lemma prows_fst (w : nat) (a : Arrays T) :
  rows_ok w a -> (fun r : list (T * nat) => r.*1) <$> prows a = sorted a.
Proof.
  intros (Hl & Hs & Hi). apply list_eq. intros k.
  rewrite list_lookup_fmap, lookup_prows.
  destruct (sorted a !! k) as [r|] eqn:Hr; [|done]. simpl.
  destruct (indices a !! k) as [i|] eqn:Hk; simpl.
  - f_equal. apply fst_zip.
    rewrite (Forall_lookup_1 _ _ _ _ Hs Hr), (Forall_lookup_1 _ _ _ _ Hi Hk).
    done.
  - apply lookup_lt_Some in Hr. apply lookup_ge_None in Hk. lia.
Qed.

Lemma prows_snd (w : nat) (a : Arrays T) :
  rows_ok w a -> (fun r : list (T * nat) => r.*2) <$> prows a = indices a.
Proof.
  intros (Hl & Hs & Hi). apply list_eq. intros k.
  rewrite list_lookup_fmap, lookup_prows.
  destruct (indices a !! k) as [i|] eqn:Hk.
  - destruct (sorted a !! k) as [r|] eqn:Hr; simpl.
    + f_equal. apply snd_zip.
      rewrite (Forall_lookup_1 _ _ _ _ Hs Hr), (Forall_lookup_1 _ _ _ _ Hi Hk).
      done.
    + apply lookup_lt_Some in Hk. apply lookup_ge_None in Hr. lia.
  - by destruct (sorted a !! k).
Qed.

(** A property of the rows of values that sorting establishes holds for
    the slices that come from slices with the property. *)
Lemma rows_from_Forall (A : list T -> Prop) s s' :
  (forall b, A (sort_values val_ltb b)) ->
  shape_ok s -> shape_ok s' -> rows_from (prows (node s)) s' ->
  Forall A (sorted (node s)) -> Forall A (sorted (node s')).
Proof.
  intros HA [Hs _] [Hs' _] Hfrom HF.
  rewrite <- (prows_fst _ _ Hs) in HF. rewrite <- (prows_fst _ _ Hs').
  rewrite Forall_fmap in *. unfold rows_from in Hfrom.
  eapply Forall_impl; [exact Hfrom|]. intros p [Hp|[b Hb]]; simpl.
  - by apply (proj1 (Forall_forall _ _) HF).
  - rewrite Hb. apply HA.
Qed.

Lemma rows_from_refl s : rows_from (prows (node s)) s.
Proof. apply Forall_forall. by left. Qed.

Lemma rows_from_trans (L : list (list (T * nat))) s s' :
  rows_from L s -> rows_from (prows (node s)) s' -> rows_from L s'.
Proof.
  unfold rows_from. intros H1 H2. eapply Forall_impl; [exact H2|].
  intros p [Hp|Hp]; [|by right]. by apply (proj1 (Forall_forall _ _) H1).
Qed.

Lemma moves_ext (cs ncs : nat) E L s s' :
  moves cs ncs E L s ->
  slicesize s' = slicesize s -> chunksize s' = chunksize s ->
  node s' = node s -> tmp s' = tmp s -> nrows s' = nrows s ->
  nelements s' = nelements s -> nelementsLR s' = nelementsLR s ->
  moves cs ncs E L s'.
Proof.
  intros (Hinv & Hcnt & [Hsn Hst] & Hent & Hfrom) Ess Ecs En Et E1 E2 E3.
  unfold moves, counts_ok, shape_ok, rows_from in *.
  rewrite Ess, En, Et, E1, E2, E3.
  split_and!; [by apply (index_inv_ext cs ncs s) | done..].
Qed.

Lemma stable_moves (cs ncs : nat) E L : stable (moves cs ncs E L).
Proof.
  unfold stable. split_and!.
  - intros s e H. by apply (moves_ext cs ncs E L s).
  - intros s t H. by apply (moves_ext cs ncs E L s).
  - intros s b H. by apply (moves_ext cs ncs E L s).
  - intros s s' (Hinv & Hcnt & [Hn Ht] & Hent & Hfrom) H.
    pose proof (create_temps_Ok cs ncs _ _ Hinv H) as [Hinv' Hfr].
    unfold create_temps in H. inv_bind H. injection H as <-.
    split_and!; [done | by eapply same_frame_counts | | done | done].
    split; simpl_state; [done|]. intros t [= <-].
    unfold rows_ok. simpl. rewrite !length_replicate.
    split_and!; [done | |]; apply Forall_replicate;
      by rewrite length_replicate.
  - intros s s' (Hinv & Hcnt & [Hn Ht] & Hent & Hfrom) H.
    pose proof (cleanup_temps_Ok cs ncs _ _ Hinv H) as [Hinv' Hfr].
    unfold cleanup_temps in H. inv_bind H. injection H as <-.
    split_and!; [done | by eapply same_frame_counts | | done | done].
    split; simpl_state; [done|]. by intros t [=].
  - intros mode s s' (Hinv & Hcnt & Hsh & Hent & Hfrom) H.
    pose proof (swap_chunks_Ok cs ncs _ _ _ Hinv H) as [Hinv' Hfr].
    destruct (swap_chunks_rows cs ncs mode s s') as (? & He & ?); [done..|].
    split_and!; [done | by eapply same_frame_counts | done | by rewrite He
                | by eapply rows_from_trans].
  - intros mode s s' (Hinv & Hcnt & Hsh & Hent & Hfrom) H.
    pose proof (swap_slices_Ok cs ncs _ _ _ Hinv H) as [Hinv' Hfr].
    destruct (swap_slices_rows mode s s') as (? & He & ?); [done..|].
    split_and!; [done | by eapply same_frame_counts | done | by rewrite He
                | by eapply rows_from_trans].
Qed.

Lemma moves_start (cs ncs : nat) s :
  index_inv cs ncs s -> counts_ok s -> shape_ok s ->
  moves cs ncs (entries (node s)) (prows (node s)) s.
Proof. intros. split_and!; [done..|]. apply rows_from_refl. Qed.
End IndexMore.

(** * The further properties on concrete indexes *)

Section ExamplesMore.
Local Open Scope nat_scope.
Local Existing Instance ZEnv.

Lemma appendLastRow_index_2 :
  appendLastRow [6; 0]%Z 10 index_2 = Ok index_2_LR.
Proof. vm_compute. reflexivity. Qed.

Lemma append_index_2_LR :
  append [6; 0; 11; 12]%Z index_2_LR = Ok index_3.
Proof. vm_compute. reflexivity. Qed.

Lemma appendLastRow_read_back_witness :
  reachable index_2
  /\ appendLastRow [6; 0]%Z 10 index_2 = Ok index_2_LR
  /\ bebounds index_2_LR = [0; 6]%Z
  /\ getslice (sortedLR index_2_LR) 0 2 = bebounds index_2_LR
  /\ getslice (sortedLR index_2_LR) 2 4 = [0; 6]%Z
  /\ last (indicesLR index_2_LR) = Some 2
  /\ take 2 (indicesLR index_2_LR) = [9; 8].
Proof.
  pose proof (appendLastRow_read_back [6; 0]%Z 10 index_2 index_2_LR
                reachable_index_2 appendLastRow_index_2)
    as (_ & _ & _ & _ & H1 & H2 & H3 & H4).
  split_and!; [apply reachable_index_2 | apply appendLastRow_index_2
              | reflexivity | exact H1 | exact H2 | exact H3 |].
  apply H4. vm_compute. lia.
Defined.

Lemma Index_open_after_appendLastRow_witness :
  exists s'', Index_open index_2_LR = Ok s''
    /\ nrows s'' = 3 /\ nelements s'' = 10 /\ nelementsLR s'' = Some 2
    /\ bebounds s'' = [0; 6]%Z.
Proof.
  destruct (Index_open_after_appendLastRow [6; 0]%Z 10 index_2 index_2_LR
              reachable_index_2 appendLastRow_index_2)
    as (s'' & H & H1 & H2 & H3 & H4 & _).
  exists s''. split_and!; [exact H | exact H1 | exact H2 | exact H3 | exact H4].
Defined.

Lemma Index_open_after_append_witness :
  nelementsLR index_3 = Some 0 /\ nelements index_3 = 12
  /\ exists s3, Index_open index_3 = Ok s3
       /\ nelementsLR s3 = Some 2 /\ nelements s3 = 14 /\ nrows s3 = 4.
Proof.
  destruct (Index_open_after_append [6; 0]%Z 10 [6; 0; 11; 12]%Z
              index_2 index_2_LR index_3
              reachable_index_2 appendLastRow_index_2 append_index_2_LR)
    as (_ & _ & _ & H0 & s3 & H & H1 & H2 & H3).
  split_and!; [exact H0 | reflexivity |].
  exists s3. split_and!; [exact H | exact H1 | exact H2 | exact H3].
Defined.

Lemma optimize_frame_witness :
  exists s', optimize (Some 9%Z) false index_block = Ok s'
    /\ same_frame index_block s'
    /\ verbose s' = Some false /\ tmp s' = None.
Proof.
  destruct (optimize (Some 9%Z) false index_block) as [s'|e] eqn:H;
    [|vm_compute in H; discriminate H].
  destruct (optimize_frame (Some 9%Z) false index_block s'
              reachable_index_block H) as (H1 & _ & _ & _ & H2 & H3).
  exists s'. split_and!; [reflexivity | exact H1 | exact H2 | by apply H3].
Defined.

Lemma search_frame_witness :
  exists n s', search (Some (3, 5)%Z) index_2 = Ok (n, s')
    /\ search_core s' = search_core index_2 /\ dirtycache s' = false.
Proof.
  destruct (search (Some (3, 5)%Z) index_2) as [[n s']|e] eqn:H;
    [|vm_compute in H; discriminate H].
  exists n, s'. split; [reflexivity|]. by apply (search_frame _ _ _ _ H).
Defined.
End ExamplesMore.
